(** * GERARD i18n: language detection, content loading and DOM binding

    A shallow embedding of [src/js/i18n.js].  The [I18n] object, the
    browser's [localStorage], the page as a tree of nodes and the observable
    effects (fetches, storage writes, console output, assignments to
    [textContent] and [innerHTML]) are one explicit [World]; the methods of
    [I18n] are computations over it that either return or throw. *)

From Stdlib Require Import String Ascii List Bool Arith Lia DecimalString.
From Equations Require Import Equations.
Import ListNotations.
Open Scope string_scope.
Set Warnings "-register-all".

(** ** JavaScript values held by a parsed content document *)

(** What [response.json()] can produce.  A number is carried by the text
    [String(n)] gives for it, so [0] and [-0] are both ["0"]. *)
Inductive json : Type :=
| JNull
| JBool (b : bool)
| JNum (repr : string)
| JStr (s : string)
| JArr (items : list json)
| JObj (fields : list (string * json)).

(** A JavaScript value: [None] is [undefined]. *)
Definition value : Type := option json.
Definition undefined : value := None.

(** The truthiness test of [if (x)], [!x] and [x && y]. *)
Definition truthy (v : value) : bool :=
  match v with
  | None => false
  | Some JNull => false
  | Some (JBool b) => b
  | Some (JNum r) => negb (r =? "0")
  | Some (JStr s) => negb (s =? "")
  | Some (JArr _) => true
  | Some (JObj _) => true
  end.

(** Own property of a parsed object.  [fields] lists the properties of the
    object [JSON.parse] built, each name once. *)
Fixpoint lookup (k : string) (fields : list (string * json)) : value :=
  match fields with
  | [] => None
  | (k', j) :: rest => if k' =? k then Some j else lookup k rest
  end.

(** [String(j)], as template literals and DOM string attributes apply it;
    [None] is the TypeError of a value that has no primitive.  An object
    prints through [Object.prototype.toString] unless an own property named
    [toString] hides it: a parsed value is never callable, and [valueOf]
    then gives no primitive either.  An array is its elements joined by
    commas, [null] elements being empty. *)
Fixpoint ToString_json (j : json) : option string :=
  match j with
  | JNull => Some "null"
  | JBool true => Some "true"
  | JBool false => Some "false"
  | JNum r => Some r
  | JStr s => Some s
  | JArr l =>
      let fix join (xs : list json) : option string :=
        match xs with
        | [] => Some ""
        | x :: rest =>
            match (match x with JNull => Some "" | _ => ToString_json x end) with
            | None => None
            | Some sx =>
                match rest with
                | [] => Some sx
                | _ :: _ =>
                    match join rest with
                    | Some sr => Some (sx ++ "," ++ sr)
                    | None => None
                    end
                end
            end
        end in
      join l
  | JObj fields =>
      match lookup "toString" fields with
      | Some _ => None
      | None => Some "[object Object]"
      end
  end.

Definition ToString (v : value) : option string :=
  match v with
  | None => Some "undefined"
  | Some j => ToString_json j
  end.

(** The decimal text of an array index, as [`${i}`] prints it. *)
Definition idx (i : nat) : string := NilEmpty.string_of_uint (Nat.to_uint i).

(** The double-quote character. *)
Definition dquote : string := String "034"%char "".

(** ** The page *)

(** A node of the page: a text node, or an element with its tag name, its
    attributes other than [class], the tokens of its [class] attribute and
    its children in document order. *)
Inductive Node : Type :=
| Text (data : string)
| Elem (tag : string) (attrs : list (string * string))
       (classes : list string) (children : list Node).

(** The document: the children of the document node. *)
Definition Document : Type := list Node.

Fixpoint assoc (name : string) (attrs : list (string * string)) : option string :=
  match attrs with
  | [] => None
  | (n, v) :: rest => if n =? name then Some v else assoc name rest
  end.

(** Set the attribute [name], in place if the element has it already. *)
Fixpoint put (name v : string) (attrs : list (string * string))
  : list (string * string) :=
  match attrs with
  | [] => [(name, v)]
  | (n, v') :: rest =>
      if n =? name then (name, v) :: rest else (n, v') :: put name v rest
  end.

Definition tagName (n : Node) : string :=
  match n with
  | Elem t _ _ _ => t
  | Text _ => ""
  end.

Definition getAttribute (name : string) (n : Node) : option string :=
  match n with
  | Elem _ a _ _ => assoc name a
  | Text _ => None
  end.

Definition classList (n : Node) : list string :=
  match n with
  | Elem _ _ c _ => c
  | Text _ => []
  end.

Definition childNodes (n : Node) : list Node :=
  match n with
  | Elem _ _ _ kids => kids
  | Text _ => []
  end.

Definition with_children (kids : list Node) (n : Node) : Node :=
  match n with
  | Elem t a c _ => Elem t a c kids
  | Text s => Text s
  end.

Definition with_attribute (name v : string) (n : Node) : Node :=
  match n with
  | Elem t a c kids => Elem t (put name v a) c kids
  | Text s => Text s
  end.

(** The first result [f] gives along a list. *)
Fixpoint first_some {A B} (f : A -> option B) (l : list A) : option B :=
  match l with
  | [] => None
  | x :: rest =>
      match f x with
      | Some b => Some b
      | None => first_some f rest
      end
  end.

(** The list with its first entry that [f] changes changed; [None] when
    [f] changes none. *)
Fixpoint first_change {A} (f : A -> option A) (l : list A) : option (list A) :=
  match l with
  | [] => None
  | x :: rest =>
      match f x with
      | Some x' => Some (x' :: rest)
      | None => option_map (cons x) (first_change f rest)
      end
  end.

(** The first node in tree order that [sel] selects, in the subtree of
    [n]. *)
Fixpoint find_node (sel : Node -> bool) (n : Node) : option Node :=
  if sel n then Some n else
  match n with
  | Text _ => None
  | Elem _ _ _ kids => first_some (find_node sel) kids
  end.

(** The subtree of [n] with [f] applied to the first node in tree order
    that [sel] selects; [None] when there is none. *)
Fixpoint change_node (sel : Node -> bool) (f : Node -> Node) (n : Node)
  : option Node :=
  if sel n then Some (f n) else
  match n with
  | Text _ => None
  | Elem t a c kids => option_map (Elem t a c) (first_change (change_node sel f) kids)
  end.

(** [document.querySelector(sel)]: the first match in tree order. *)
Definition querySelector (sel : Node -> bool) (d : Document) : option Node :=
  first_some (find_node sel) d.

(** The document with [f] applied to the element [querySelector] finds. *)
Definition update (sel : Node -> bool) (f : Node -> Node) (d : Document)
  : Document :=
  match first_change (change_node sel f) d with
  | Some d' => d'
  | None => d
  end.

(** Does the node match [[data-i18n="key"]]? *)
Definition matches (key : string) (n : Node) : bool :=
  match getAttribute "data-i18n" n with
  | Some k => k =? key
  | None => false
  end.

(** Does the node match [meta[name="name"]]? *)
Definition meta_named (name : string) (n : Node) : bool :=
  (tagName n =? "meta") &&
  match getAttribute "name" n with
  | Some v => v =? name
  | None => false
  end.

(** Is the node the element [getElementById(id)] looks for? *)
Definition has_id (id : string) (n : Node) : bool :=
  match getAttribute "id" n with
  | Some v => v =? id
  | None => false
  end.

Definition is_element (n : Node) : bool :=
  match n with
  | Elem _ _ _ _ => true
  | Text _ => false
  end.

Definition is_title (n : Node) : bool := tagName n =? "title".
Definition is_head (n : Node) : bool := tagName n =? "head".

(** [document.documentElement]: the element child of the document. *)
Definition documentElement (d : Document) : option Node :=
  find is_element d.

(** The children a string leaves when it replaces all children of an
    element: one text node, none for the empty string. *)
Definition text_nodes (s : string) : list Node :=
  if s =? "" then [] else [Text s].

(** [head.appendChild(title)] on the head element of the page: the first
    [head] child of the root [html] element. *)
Definition append_to_head (title : Node) (d : Document) : Document :=
  match
    first_change
      (fun root =>
         if is_element root then
           Some (if tagName root =? "html" then
                   match first_change
                           (fun k => if is_head k
                                     then Some (with_children
                                                  (childNodes k ++ [title]) k)
                                     else None)
                           (childNodes root) with
                   | Some kids => with_children kids root
                   | None => root
                   end
                 else root)
         else None) d
  with
  | Some d' => d'
  | None => d
  end.

(** [document.title = s]: the text of the first [title] element becomes
    [s]; a page without one gets one at the end of its head element, if it
    has a head.  (What [document.title] reads back later is this text with
    its white space stripped and collapsed; the script never reads it.) *)
Definition set_title (s : string) (d : Document) : Document :=
  match first_change (change_node is_title (with_children (text_nodes s))) d with
  | Some d' => d'
  | None => append_to_head (Elem "title" [] [] (text_nodes s)) d
  end.

(** The root element with its [lang] attribute set. *)
Definition set_lang (s : string) (d : Document) : Document :=
  match first_change (fun n => if is_element n
                               then Some (with_attribute "lang" s n)
                               else None) d with
  | Some d' => d'
  | None => d
  end.

(** What the script reads of its environment: [window.location.pathname],
    the value [new URLSearchParams(window.location.search).get('lang')]
    ([None] for [null]) and [navigator.language]. *)
Record Window : Type := mkWindow {
  pathname : string;
  search_lang : option string;
  navigator_language : string
}.

(** ** The world the script runs in *)

(** Why a load reached its [catch] block. *)
Inductive load_error : Type :=
| FetchRejected
| NotOk (lang : string)
| JsonRejected
| SetItemThrew.

Inductive event : Type :=
| Fetch (url : string)
| SetItem (key val : string)
| ConsoleError (e : load_error)
| SetTextContent (key text : string)   (* el.textContent = text, el found by key *)
| SetInnerHTML (key html : string).    (* el.innerHTML = html, el found by key *)

Record World : Type := mkWorld {
  currentLang : string;           (* I18n.currentLang *)
  content : json;                 (* I18n.content, JNull until a load succeeds *)
  gerard_lang : option string;    (* localStorage['gerard-lang'] *)
  setItem_ok : string -> bool;    (* does setItem('gerard-lang', v) return
                                     rather than throw (quota, disabled
                                     storage)? *)
  window : Window;
  html_parser : string -> string -> list Node;
                                  (* the nodes the browser's fragment parser
                                     builds inside an element of the given
                                     tag name from the given markup *)
  document : Document;
  click_wired : bool;             (* is the switcher's click handler installed? *)
  trace : list event              (* effects so far, oldest first *)
}.

Definition supportedLangs : list string := ["es"; "en"].

Definition includes (s : string) (l : list string) : bool :=
  existsb (String.eqb s) l.

Definition set_currentLang (l : string) (w : World) : World :=
  mkWorld l (content w) (gerard_lang w) (setItem_ok w) (window w)
          (html_parser w) (document w) (click_wired w) (trace w).
Definition set_content (c : json) (w : World) : World :=
  mkWorld (currentLang w) c (gerard_lang w) (setItem_ok w) (window w)
          (html_parser w) (document w) (click_wired w) (trace w).
Definition set_gerard_lang (l : string) (w : World) : World :=
  mkWorld (currentLang w) (content w) (Some l) (setItem_ok w) (window w)
          (html_parser w) (document w) (click_wired w) (trace w).
Definition set_document (d : Document) (w : World) : World :=
  mkWorld (currentLang w) (content w) (gerard_lang w) (setItem_ok w) (window w)
          (html_parser w) d (click_wired w) (trace w).
Definition set_click_wired (w : World) : World :=
  mkWorld (currentLang w) (content w) (gerard_lang w) (setItem_ok w) (window w)
          (html_parser w) (document w) true (trace w).
Definition emit (e : event) (w : World) : World :=
  mkWorld (currentLang w) (content w) (gerard_lang w) (setItem_ok w) (window w)
          (html_parser w) (document w) (click_wired w) (trace w ++ [e]).

(** ** Computations that may throw *)

Inductive Outcome (A : Type) : Type :=
| Ok (a : A) (w : World)
| Threw (w : World).
Arguments Ok {A} a w.
Arguments Threw {A} w.

Definition JS (A : Type) : Type := World -> Outcome A.

Definition ret {A} (a : A) : JS A := fun w => Ok a w.
Definition throw {A} : JS A := fun w => Threw w.
Definition bind {A B} (m : JS A) (k : A -> JS B) : JS B :=
  fun w => match m w with
           | Ok a w' => k a w'
           | Threw w' => Threw w'
           end.

Declare Scope js_scope.
Delimit Scope js_scope with js.
Notation "x <- m ;; k" := (bind m (fun x => k))
  (at level 100, m at next level, right associativity) : js_scope.
Notation "m ;; k" := (bind m (fun _ => k))
  (at level 100, right associativity) : js_scope.
Notation "m >>= f" := (bind m f)
  (at level 50, left associativity) : js_scope.
Open Scope js_scope.

(** The world a computation leaves behind, however it ends. *)
Definition world_of {A} (o : Outcome A) : World :=
  match o with
  | Ok _ w => w
  | Threw w => w
  end.

Definition returned {A} (o : Outcome A) : bool :=
  match o with
  | Ok _ _ => true
  | Threw _ => false
  end.

Definition modify (f : World -> World) : JS unit := fun w => Ok tt (f w).
Definition read {A} (f : World -> A) : JS A := fun w => Ok (f w) w.
Definition this_content : JS value := read (fun w => Some (content w)).

(** A string conversion the DOM or a template literal applies: a TypeError
    when the value has no primitive. *)
Definition string_of (s : option string) : JS string :=
  match s with
  | Some s => ret s
  | None => throw
  end.

(** [o.k]: a TypeError on [undefined] and [null]; an own property of an
    object; [undefined] on everything else (none of the names the script
    reads is a member of a string, number, boolean or array). *)
Definition member (o : value) (k : string) : JS value :=
  match o with
  | None => throw
  | Some JNull => throw
  | Some (JObj fields) => ret (lookup k fields)
  | Some _ => ret undefined
  end.
Notation "o .[ k ]" := (member o k) (at level 1, format "o .[ k ]") : js_scope.

(** [a.forEach((x, i) => f x i)]: a TypeError unless [a] is an array. *)
Fixpoint each (f : value -> nat -> JS unit) (l : list json) (i : nat) : JS unit :=
  match l with
  | [] => ret tt
  | x :: rest => f (Some x) i ;; each f rest (S i)
  end.

Definition forEach (a : value) (f : value -> nat -> JS unit) : JS unit :=
  match a with
  | Some (JArr l) => each f l 0
  | _ => throw
  end.

(** ** DOM helpers *)

(** What a [textContent] assignment stores: [null] and [undefined] empty
    the element. *)
Definition textContent_of (v : value) : option string :=
  match v with
  | None => Some ""
  | Some JNull => Some ""
  | Some j => ToString_json j
  end.

(** What an [innerHTML] assignment parses: only [null] is the empty string. *)
Definition innerHTML_of (v : value) : option string :=
  match v with
  | Some JNull => Some ""
  | _ => ToString v
  end.

Definition on_document (f : Document -> Document) : JS unit :=
  modify (fun w => set_document (f (document w)) w).

(** [el.textContent = v] on the element [[data-i18n="key"]] selects: its
    children become the text, literally. *)
Definition set_textContent (key : string) (v : value) : JS unit :=
  s <- string_of (textContent_of v) ;;
  on_document (update (matches key) (with_children (text_nodes s))) ;;
  modify (emit (SetTextContent key s)).

(** [el.innerHTML = v] on the element [[data-i18n="key"]] selects: its
    children become what the parser builds from the markup. *)
Definition set_innerHTML (key : string) (v : value) : JS unit :=
  s <- string_of (innerHTML_of v) ;;
  parse <- read html_parser ;;
  on_document (update (matches key)
                 (fun el => with_children (parse (tagName el) s) el)) ;;
  modify (emit (SetInnerHTML key s)).

(** Is there an element matching [[data-i18n="key"]]? *)
Definition exists_el (key : string) : JS bool :=
  read (fun w => match querySelector (matches key) (document w) with
                 | Some _ => true
                 | None => false
                 end).

(** [setText(selector, text)], the selector being [[data-i18n="key"]]. *)
Definition setText (key : string) (text : value) : JS unit :=
  el <- exists_el key ;;
  if el : bool then set_textContent key text else ret tt.

(** [setHTML(selector, html)]. *)
Definition setHTML (key : string) (html : value) : JS unit :=
  el <- exists_el key ;;
  if el : bool then set_innerHTML key html else ret tt.

(** [document.querySelector('meta[name="name"]')?.setAttribute('content', v)]
    with [v] the property [k] of [meta]. *)
Definition set_meta (name : string) (meta : value) (k : string) : JS unit :=
  tag <- read (fun w => querySelector (meta_named name) (document w)) ;;
  match tag with
  | Some _ =>
      v <- meta.[k] ;;
      s <- string_of (ToString v) ;;
      on_document (update (meta_named name) (with_attribute "content" s))
  | None => ret tt
  end.

(** [document.documentElement.lang = v]: a TypeError on a document without
    a root element. *)
Definition set_root_lang (v : value) : JS unit :=
  root <- read (fun w => documentElement (document w)) ;;
  match root with
  | Some _ => s <- string_of (ToString v) ;; on_document (set_lang s)
  | None => throw
  end.

(** ** Language detection *)

(** [pathname.match(/^\/(en|es)\//)]: the captured code, if any. *)
Definition pathMatch (p : string) : option string :=
  if prefix "/en/" p then Some "en"
  else if prefix "/es/" p then Some "es"
  else None.

(** The guard [x && supportedLangs.includes(x)] on a string or [null]:
    the string when the guard holds. *)
Definition supported (x : option string) : option string :=
  match x with
  | Some s =>
      if negb (s =? "") && includes s supportedLangs then Some s else None
  | None => None
  end.

Definition detectLanguage (w : World) : string :=
  (* Check URL path first (/en/, /es/) *)
  match pathMatch (pathname (window w)) with
  | Some l => l
  | None =>
  (* Check query param (?lang=en) *)
  match supported (search_lang (window w)) with
  | Some langParam => langParam
  | None =>
  (* Check localStorage *)
  match supported (gerard_lang w) with
  | Some storedLang => storedLang
  | None =>
  (* Check browser language *)
  let browserLang := substring 0 2 (navigator_language (window w)) in
  if includes browserLang supportedLangs then browserLang
  (* Default to Spanish *)
  else "es"
  end end end.

(** ** Rendering *)

Definition renderMeta : JS unit :=
  c <- this_content ;;
  meta <- c.["meta"] ;;
  t <- meta.["title"] ;;
  s <- string_of (ToString t) ;;
  on_document (set_title s) ;;
  set_meta "description" meta "description" ;;
  set_meta "keywords" meta "keywords" ;;
  c.["lang"] >>= set_root_lang.

Definition renderNav : JS unit :=
  c <- this_content ;;
  nav <- c.["nav"] ;;
  nav.["benefits"] >>= setText "nav.benefits" ;;
  nav.["howItWorks"] >>= setText "nav.howItWorks" ;;
  nav.["features"] >>= setText "nav.features" ;;
  nav.["faq"] >>= setText "nav.faq" ;;
  nav.["contact"] >>= setText "nav.contact" ;;
  nav.["cta"] >>= setText "nav.cta".

Definition renderHero : JS unit :=
  c <- this_content ;;
  hero <- c.["hero"] ;;
  hero.["tag"] >>= setText "hero.tag" ;;
  hero.["title"] >>= setText "hero.title" ;;
  hero.["subtitle"] >>= setText "hero.subtitle" ;;
  hero.["trustedBy"] >>= setText "hero.trustedBy" ;;
  (* heroButtons, the result of querySelectorAll, is never used *)
  buttons <- hero.["buttons"] ;;
  forEach buttons (fun btn i =>
    el <- exists_el ("hero.buttons." ++ idx i) ;;
    if el : bool
    then btn.["text"] >>= set_textContent ("hero.buttons." ++ idx i)
    else ret tt).

Definition renderBenefits : JS unit :=
  c <- this_content ;;
  sections <- c.["sections"] ;;
  benefits <- sections.["benefits"] ;;
  benefits.["tag"] >>= setText "benefits.tag" ;;
  benefits.["title"] >>= setText "benefits.title" ;;
  benefits.["subtitle"] >>= setText "benefits.subtitle" ;;
  benefits.["metricsTitle"] >>= setText "benefits.metricsTitle" ;;
  features <- benefits.["features"] ;;
  forEach features (fun feature i =>
    feature.["title"]
      >>= setText ("benefits.features." ++ idx i ++ ".title") ;;
    feature.["description"]
      >>= setText ("benefits.features." ++ idx i ++ ".description")) ;;
  metrics <- benefits.["metrics"] ;;
  forEach metrics (fun metric i =>
    metric.["label"]
      >>= setText ("benefits.metrics." ++ idx i ++ ".label") ;;
    metric.["value"]
      >>= setText ("benefits.metrics." ++ idx i ++ ".value") ;;
    metric.["comparison"]
      >>= setText ("benefits.metrics." ++ idx i ++ ".comparison")).

Definition renderDifferential : JS unit :=
  c <- this_content ;;
  sections <- c.["sections"] ;;
  differential <- sections.["differential"] ;;
  differential.["tag"] >>= setText "differential.tag" ;;
  differential.["title"] >>= setText "differential.title" ;;
  items <- differential.["items"] ;;
  forEach items (fun item i =>
    item.["title"]
      >>= setText ("differential.items." ++ idx i ++ ".title") ;;
    item.["description"]
      >>= setText ("differential.items." ++ idx i ++ ".description")).

Definition renderHowItWorks : JS unit :=
  c <- this_content ;;
  sections <- c.["sections"] ;;
  howItWorks <- sections.["howItWorks"] ;;
  howItWorks.["tag"] >>= setText "howItWorks.tag" ;;
  howItWorks.["title"] >>= setText "howItWorks.title" ;;
  steps <- howItWorks.["steps"] ;;
  forEach steps (fun step i =>
    step.["title"]
      >>= setText ("howItWorks.steps." ++ idx i ++ ".title") ;;
    step.["description"]
      >>= setText ("howItWorks.steps." ++ idx i ++ ".description")) ;;
  integration <- howItWorks.["integration"] ;;
  integration.["title"] >>= setText "howItWorks.integration.title" ;;
  integration <- howItWorks.["integration"] ;;
  integration.["description"]
    >>= setText "howItWorks.integration.description".

Definition renderEngine : JS unit :=
  c <- this_content ;;
  sections <- c.["sections"] ;;
  engine <- sections.["engine"] ;;
  if negb (truthy engine) then ret tt else
  engine.["tag"] >>= setText "engine.tag" ;;
  engine.["title"] >>= setText "engine.title" ;;
  engine.["subtitle"] >>= setText "engine.subtitle" ;;
  engine.["statement"] >>= setHTML "engine.statement" ;;
  stages <- engine.["stages"] ;;
  forEach stages (fun stage i =>
    stage.["title"]
      >>= setText ("engine.stages." ++ idx i ++ ".title") ;;
    stage.["description"]
      >>= setText ("engine.stages." ++ idx i ++ ".description") ;;
    stage.["metric"]
      >>= setText ("engine.stages." ++ idx i ++ ".metric") ;;
    stage.["metricLabel"]
      >>= setText ("engine.stages." ++ idx i ++ ".metricLabel")).

Definition renderFeatures : JS unit :=
  c <- this_content ;;
  sections <- c.["sections"] ;;
  featureSet <- sections.["featureSet"] ;;
  featureSet.["tag"] >>= setText "featureSet.tag" ;;
  featureSet.["title"] >>= setText "featureSet.title" ;;
  features <- featureSet.["features"] ;;
  forEach features (fun feature i =>
    feature.["title"]
      >>= setText ("featureSet.features." ++ idx i ++ ".title") ;;
    feature.["description"]
      >>= setText ("featureSet.features." ++ idx i ++ ".description")).

Definition renderTestimonials : JS unit :=
  c <- this_content ;;
  sections <- c.["sections"] ;;
  testimonials <- sections.["testimonials"] ;;
  testimonials.["tag"] >>= setText "testimonials.tag" ;;
  testimonials.["title"] >>= setText "testimonials.title" ;;
  items <- testimonials.["items"] ;;
  forEach items (fun item i =>
    quote <- item.["quote"] ;;
    q <- string_of (ToString quote) ;;
    setText ("testimonials.items." ++ idx i ++ ".quote")
            (Some (JStr (dquote ++ q ++ dquote))) ;;
    item.["author"]
      >>= setText ("testimonials.items." ++ idx i ++ ".author") ;;
    item.["company"]
      >>= setText ("testimonials.items." ++ idx i ++ ".company")).

(** The strings [`<li>${item}</li>`] of the entries of a list, [None] when
    an entry has no primitive. *)
Fixpoint li_strings (l : list json) : option (list string) :=
  match l with
  | [] => Some []
  | item :: rest =>
      match ToString_json item with
      | None => None
      | Some s =>
          match li_strings rest with
          | Some ss => Some (("<li>" ++ s ++ "</li>") :: ss)
          | None => None
          end
      end
  end.

(** [items.map(item => `<li>${item}</li>`).join('')]: a TypeError unless
    [items] is an array. *)
Definition li_markup (items : value) : JS value :=
  match items with
  | Some (JArr l) =>
      ss <- string_of (option_map (String.concat "") (li_strings l)) ;;
      ret (Some (JStr ss))
  | _ => throw
  end.

Definition renderBeforeAfter : JS unit :=
  c <- this_content ;;
  sections <- c.["sections"] ;;
  beforeAfter <- sections.["beforeAfter"] ;;
  beforeAfter.["tag"] >>= setText "beforeAfter.tag" ;;
  beforeAfter.["title"] >>= setText "beforeAfter.title" ;;
  before <- beforeAfter.["before"] ;;
  before.["title"] >>= setText "beforeAfter.before.title" ;;
  after <- beforeAfter.["after"] ;;
  after.["title"] >>= setText "beforeAfter.after.title" ;;
  beforeList <- exists_el "beforeAfter.before.items" ;;
  (if beforeList : bool then
     before <- beforeAfter.["before"] ;;
     items <- before.["items"] ;;
     li_markup items >>= set_innerHTML "beforeAfter.before.items"
   else ret tt) ;;
  afterList <- exists_el "beforeAfter.after.items" ;;
  (if afterList : bool then
     after <- beforeAfter.["after"] ;;
     items <- after.["items"] ;;
     li_markup items >>= set_innerHTML "beforeAfter.after.items"
   else ret tt) ;;
  footer <- beforeAfter.["footer"] ;;
  forEach footer (fun line i =>
    setText ("beforeAfter.footer." ++ idx i) line).

Definition renderUseCases : JS unit :=
  c <- this_content ;;
  sections <- c.["sections"] ;;
  useCases <- sections.["useCases"] ;;
  useCases.["tag"] >>= setText "useCases.tag" ;;
  useCases.["title"] >>= setText "useCases.title" ;;
  cases <- useCases.["cases"] ;;
  forEach cases (fun useCase i =>
    useCase.["title"]
      >>= setText ("useCases.cases." ++ idx i ++ ".title") ;;
    useCase.["description"]
      >>= setText ("useCases.cases." ++ idx i ++ ".description")).

Definition renderFAQ : JS unit :=
  c <- this_content ;;
  sections <- c.["sections"] ;;
  faq <- sections.["faq"] ;;
  faq.["tag"] >>= setText "faq.tag" ;;
  faq.["title"] >>= setText "faq.title" ;;
  items <- faq.["items"] ;;
  forEach items (fun item i =>
    item.["question"]
      >>= setText ("faq.items." ++ idx i ++ ".question") ;;
    item.["answer"]
      >>= setText ("faq.items." ++ idx i ++ ".answer")).

Definition renderFinalCTA : JS unit :=
  c <- this_content ;;
  sections <- c.["sections"] ;;
  finalCTA <- sections.["finalCTA"] ;;
  finalCTA.["title"] >>= setText "finalCTA.title" ;;
  finalCTA.["subtitle"] >>= setText "finalCTA.subtitle" ;;
  finalCTA.["note"] >>= setText "finalCTA.note" ;;
  buttons <- finalCTA.["buttons"] ;;
  forEach buttons (fun btn i =>
    btn.["text"] >>= setText ("finalCTA.buttons." ++ idx i)).

Definition renderFooter : JS unit :=
  c <- this_content ;;
  footer <- c.["footer"] ;;
  footer.["tagline"] >>= setText "footer.tagline" ;;
  company <- footer.["company"] ;;
  company.["description"] >>= setText "footer.company.description" ;;
  contact <- footer.["contact"] ;;
  contact.["location"] >>= setText "footer.contact.location" ;;
  footer.["copyright"] >>= setText "footer.copyright".

(** Render all content to page. *)
Definition render : JS unit :=
  c <- this_content ;;
  if negb (truthy c) then ret tt else
  renderMeta ;;
  renderNav ;;
  renderHero ;;
  renderBenefits ;;
  renderDifferential ;;
  renderHowItWorks ;;
  renderEngine ;;
  renderFeatures ;;
  renderTestimonials ;;
  renderBeforeAfter ;;
  renderUseCases ;;
  renderFAQ ;;
  renderFinalCTA ;;
  renderFooter.

(** ** The language switcher *)

(** [classList.toggle(token, force)]. *)
Definition toggle (token : string) (force : bool) (cl : list string)
  : list string :=
  if force then (if includes token cl then cl else cl ++ [token])
  else filter (fun c => negb (c =? token)) cl.

(** [btn.classList.toggle('active', btn.dataset.lang === lang)] on every
    element [#lang-switcher [data-lang]] selects in the subtree of [n]:
    the elements with a [data-lang] attribute below an element whose id is
    [lang-switcher].  [inside] says that [n] lies below such an element. *)
Fixpoint mark (lang : string) (inside : bool) (n : Node) : Node :=
  match n with
  | Text s => Text s
  | Elem t a c kids =>
      Elem t a
        (match (if inside then assoc "data-lang" a else None) with
         | Some l => toggle "active" (l =? lang) c
         | None => c
         end)
        (map (mark lang (inside || has_id "lang-switcher" n)) kids)
  end.

(** The elements [#lang-switcher [data-lang]] selects in the subtree of
    [n], in tree order. *)
Fixpoint lang_buttons (inside : bool) (n : Node) : list Node :=
  match n with
  | Text _ => []
  | Elem _ a _ kids =>
      (match (if inside then assoc "data-lang" a else None) with
       | Some _ => [n]
       | None => []
       end) ++
      flat_map (lang_buttons (inside || has_id "lang-switcher" n)) kids
  end.

(** [document.querySelectorAll('#lang-switcher [data-lang]')]. *)
Definition querySelectorAll_lang_buttons (d : Document) : list Node :=
  flat_map (lang_buttons false) d.

Definition updateLangSwitcher : JS unit :=
  lang <- read currentLang ;;
  on_document (map (mark lang false)).

Definition setupLangSwitcher : JS unit :=
  switcher <- read (fun w => querySelector (has_id "lang-switcher") (document w)) ;;
  match switcher with
  | None => ret tt
  | Some _ =>
      modify set_click_wired ;;
      updateLangSwitcher
  end.

(** ** Loading *)

(** What [fetch] and [response.json()] do for a URL: the request is
    rejected, or answers with [response.ok] and a body that parses
    ([Some]) or does not ([None]). *)
Inductive response : Type :=
| Rejected
| Response (ok : bool) (body : option json).

Definition content_url (lang : string) : string :=
  "/content/content-" ++ lang ++ ".json".

(** How many loads can still follow a failed load of [lang]. *)
Definition fallbacks (lang : string) : nat :=
  if lang =? "es" then 0 else 1.

Section Network.

Variable fetch : string -> response.

(** The [try] block of [loadContent]: the world it leaves and, when it
    threw, the error its [catch] receives.  The document is assigned before
    the preference is stored, so a [setItem] that throws leaves the new
    document in place. *)
Definition try_load (lang : string) (w : World) : World * option load_error :=
  let w := emit (Fetch (content_url lang)) w in
  match fetch (content_url lang) with
  | Rejected => (w, Some FetchRejected)
  | Response false _ => (w, Some (NotOk lang))
  | Response true None => (w, Some JsonRejected)
  | Response true (Some doc) =>
      let w := set_content doc w in
      if setItem_ok w lang
      then (emit (SetItem "gerard-lang" lang) (set_gerard_lang lang w), None)
      else (w, Some SetItemThrew)
  end.

Equations? loadContent (lang : string) (w : World) : World
  by wf (fallbacks lang) lt :=
  loadContent lang w with try_load lang w => {
    | (w1, None) := w1;
    | (w1, Some error) with string_dec lang "es" => {
        | left _ := emit (ConsoleError error) w1;
        | right _ := loadContent "es" (emit (ConsoleError error) w1) } }.
Proof.
  unfold fallbacks. simpl.
  destruct (String.eqb_spec lang "es"); [contradiction | lia].
Qed.

Definition switchLanguage (lang : string) : JS unit :=
  fun w =>
    if lang =? currentLang w then Ok tt w else
    (modify (set_currentLang lang) ;;
     modify (loadContent lang) ;;
     render ;;
     updateLangSwitcher) w.

Definition init : JS unit :=
  modify (fun w => set_currentLang (detectLanguage w) w) ;;
  lang <- read currentLang ;;
  modify (loadContent lang) ;;
  render ;;
  setupLangSwitcher.

End Network.

(** ** A sample page and sample content documents *)

Module Sample.

Definition obj1 (k v : string) : json := JObj [(k, JStr v)].
Definition titled (t d : string) : json :=
  JObj [("title", JStr t); ("description", JStr d)].
Definition section (items : string) (l : list json) : json :=
  JObj [("tag", JStr "tag"); ("title", JStr "title"); (items, JArr l)].

Definition benefits : json :=
  JObj [("tag", JStr "Beneficios"); ("title", JStr "Por que GERARD");
        ("subtitle", JStr "sub"); ("metricsTitle", JStr "Metricas");
        ("features", JArr [titled "Rapido" "desc"]);
        ("metrics", JArr [JObj [("label", JStr "l"); ("value", JStr "9");
                                ("comparison", JStr "c")]])].

Definition engine (statement : string) : json :=
  JObj [("tag", JStr "Motor"); ("title", JStr "t"); ("subtitle", JStr "s");
        ("statement", JStr statement);
        ("stages", JArr [JObj [("title", JStr "t"); ("description", JStr "d");
                               ("metric", JStr "m"); ("metricLabel", JStr "ml")]])].

Definition beforeAfter (before_items : list json) : json :=
  JObj [("tag", JStr "Antes"); ("title", JStr "t");
        ("before", JObj [("title", JStr "Antes"); ("items", JArr before_items)]);
        ("after", JObj [("title", JStr "Despues"); ("items", JArr [JStr "orden"])]);
        ("footer", JArr [JStr "linea"])].

Definition howItWorks : json :=
  JObj [("tag", JStr "tag"); ("title", JStr "title");
        ("steps", JArr [titled "paso" "d"]);
        ("integration", titled "Integracion" "d")].

Definition finalCTA : json :=
  JObj [("title", JStr "t"); ("subtitle", JStr "s"); ("note", JStr "n");
        ("buttons", JArr [obj1 "text" "Demo"])].

(** Every section but [benefits] and [engine]. *)
Definition other_sections (before_items : list json) : list (string * json) :=
  [("differential", section "items" [titled "a" "b"]);
   ("howItWorks", howItWorks);
   ("featureSet", section "features" [titled "a" "b"]);
   ("testimonials",
    section "items" [JObj [("quote", JStr "Genial"); ("author", JStr "Ana");
                           ("company", JStr "ACME")]]);
   ("beforeAfter", beforeAfter before_items);
   ("useCases", section "cases" [titled "a" "b"]);
   ("faq", section "items" [JObj [("question", JStr "q"); ("answer", JStr "a")]]);
   ("finalCTA", finalCTA)].

(** A content document for [lang] with the given sections. *)
Definition doc (lang : string) (nav_benefits : string)
  (sections : list (string * json)) : json :=
  JObj [("lang", JStr lang);
        ("meta", JObj [("title", JStr "GERARD"); ("description", JStr "d");
                       ("keywords", JStr "k")]);
        ("nav", JObj [("benefits", JStr nav_benefits); ("howItWorks", JStr "h");
                      ("features", JStr "f"); ("faq", JStr "FAQ");
                      ("contact", JStr "c"); ("cta", JStr "cta")]);
        ("hero", JObj [("tag", JStr "t"); ("title", JStr "GERARD");
                       ("subtitle", JStr "s"); ("trustedBy", JStr "tb");
                       ("buttons", JArr [obj1 "text" "Demo"])]);
        ("sections", JObj sections);
        ("footer", JObj [("tagline", JStr "Hecho en Madrid");
                         ("company", obj1 "description" "d");
                         ("contact", obj1 "location" "Madrid");
                         ("copyright", JStr "2024")])].

Definition full (lang : string) : json :=
  doc lang "Beneficios"
      (("benefits", benefits) :: ("engine", engine "<em>motor</em>")
         :: other_sections [JStr "caos"]).

(** The full document with markup characters in a navigation label and in
    an entry of the "before" list. *)
Definition with_markup : json :=
  doc "es" "<b>Beneficios</b>"
      (("benefits", benefits) :: ("engine", engine "<em>motor</em>")
         :: other_sections [JStr "<b>caos</b>"]).

(** The full document without its [benefits] section. *)
Definition without_benefits : json :=
  doc "es" "Beneficios"
      (("engine", engine "<em>motor</em>") :: other_sections [JStr "caos"]).

(** The full document without its [engine] section. *)
Definition without_engine : json :=
  doc "es" "Beneficios" (("benefits", benefits) :: other_sections [JStr "caos"]).

(** An element bound to [key], with the template's text in it. *)
Definition slot (key : string) : Node :=
  Elem "span" [("data-i18n", key)] [] [Text "template"].
Definition lang_button (lang : string) (classes : list string) : Node :=
  Elem "button" [("data-lang", lang)] classes [Text lang].

Definition page : Document :=
  [Elem "html" [("lang", "es")] []
     [Elem "head" [] []
        [Elem "title" [] [] [Text "static"];
         Elem "meta" [("name", "description"); ("content", "static")] [] []];
      Elem "body" [] []
        [slot "nav.benefits"; slot "hero.title"; slot "benefits.title";
         slot "engine.statement"; slot "beforeAfter.before.items";
         slot "faq.title"; slot "footer.tagline";
         Elem "div" [("id", "lang-switcher")] []
           [lang_button "es" ["btn"; "active"]; lang_button "en" ["btn"]]]]].

(** What the browser's parser builds from the fragments the sample
    documents supply. *)
Definition parser (context markup : string) : list Node :=
  if markup =? "<em>motor</em>" then [Elem "em" [] [] [Text "motor"]]
  else if markup =? "<li>caos</li>" then [Elem "li" [] [] [Text "caos"]]
  else if markup =? "<li>orden</li>" then [Elem "li" [] [] [Text "orden"]]
  else if markup =? "<li><b>caos</b></li>"
       then [Elem "li" [] [] [Elem "b" [] [] [Text "caos"]]]
  else text_nodes markup.

Definition window0 : Window := mkWindow "/" None "fr-FR".

(** The world at page load, in a browser whose storage accepts writes. *)
Definition world0 : World :=
  mkWorld "es" JNull None (fun _ => true) window0 parser page false [].

(** The same in a browser whose [localStorage.setItem] throws. *)
Definition world_no_storage : World :=
  mkWorld "es" JNull None (fun _ => false) window0 parser page false [].

(** A server holding both documents, one holding only the Spanish one, one
    holding nothing, and one whose Spanish document lacks the benefits
    section. *)
Definition both (url : string) : response :=
  if url =? "/content/content-es.json" then Response true (Some (full "es"))
  else if url =? "/content/content-en.json" then Response true (Some (full "en"))
  else Response false None.
Definition only_es (url : string) : response :=
  if url =? "/content/content-es.json" then Response true (Some (full "es"))
  else Response false None.
Definition down (url : string) : response := Rejected.

End Sample.

(** ** Observations on a run *)

Definition isSome {A} (o : option A) : bool :=
  match o with
  | Some _ => true
  | None => false
  end.

(** Does the load of [lang] fail: a rejected request, a response that is
    not [ok], or a body that does not parse? *)
Definition failed (fetch : string -> response) (lang : string) : bool :=
  match fetch (content_url lang) with
  | Response true (Some _) => false
  | _ => true
  end.

(** Does the [try] block of a load of [lang] throw: the load fails, or the
    store refuses the write? *)
Definition attempt_fails (fetch : string -> response) (w : World)
  (lang : string) : bool :=
  failed fetch lang || negb (setItem_ok w lang).

(** The URLs fetched, in order. *)
Fixpoint fetches (t : list event) : list string :=
  match t with
  | [] => []
  | Fetch url :: rest => url :: fetches rest
  | _ :: rest => fetches rest
  end.

(** The [localStorage.setItem] calls that returned, in order. *)
Fixpoint storage_writes (t : list event) : list (string * string) :=
  match t with
  | [] => []
  | SetItem k v :: rest => (k, v) :: storage_writes rest
  | _ :: rest => storage_writes rest
  end.

(** The errors passed to [console.error], in order. *)
Fixpoint console_errors (t : list event) : list load_error :=
  match t with
  | [] => []
  | ConsoleError e :: rest => e :: console_errors rest
  | _ :: rest => console_errors rest
  end.

(** The strings assigned to [textContent], each with the key of its
    element, in order. *)
Fixpoint text_writes (t : list event) : list (string * string) :=
  match t with
  | [] => []
  | SetTextContent k s :: rest => (k, s) :: text_writes rest
  | _ :: rest => text_writes rest
  end.

(** The strings assigned to [innerHTML], each with the key of its
    element, in order. *)
Fixpoint markup_writes (t : list event) : list (string * string) :=
  match t with
  | [] => []
  | SetInnerHTML k s :: rest => (k, s) :: markup_writes rest
  | _ :: rest => markup_writes rest
  end.

(** The selectors whose elements receive markup rather than text. *)
Definition raw_keys : list string :=
  ["engine.statement"; "beforeAfter.before.items"; "beforeAfter.after.items"].

(** An effect a render pass may have: a [textContent] assignment, or an
    [innerHTML] assignment to the element of a raw key. *)
Definition binding_write (e : event) : Prop :=
  match e with
  | SetTextContent _ _ => True
  | SetInnerHTML key _ => In key raw_keys
  | _ => False
  end.

(** [w'] is [w] up to the page and a log of binding writes. *)
Definition renders (w w' : World) : Prop :=
  currentLang w' = currentLang w /\
  content w' = content w /\
  gerard_lang w' = gerard_lang w /\
  setItem_ok w' = setItem_ok w /\
  window w' = window w /\
  html_parser w' = html_parser w /\
  click_wired w' = click_wired w /\
  exists added, trace w' = (trace w ++ added)%list /\ Forall binding_write added.

(** A computation that only renders, however it ends. *)
Definition keeps {A} (m : JS A) : Prop :=
  forall w, renders w (world_of (m w)).

(** The signals of the priority chain, as the page author sees them: a
    supported code between the first two slashes of the path, a supported
    [lang] query value, a supported stored preference, a supported two-letter
    start of the browser locale. *)
Definition path_signal (w : World) (l : string) : Prop :=
  In l supportedLangs /\ prefix ("/" ++ l ++ "/") (pathname (window w)) = true.
Definition query_signal (w : World) (l : string) : Prop :=
  search_lang (window w) = Some l /\ In l supportedLangs.
Definition stored_signal (w : World) (l : string) : Prop :=
  gerard_lang w = Some l /\ In l supportedLangs.
Definition browser_signal (w : World) (l : string) : Prop :=
  substring 0 2 (navigator_language (window w)) = l /\ In l supportedLangs.

Definition silent (signal : World -> string -> Prop) (w : World) : Prop :=
  forall l, ~ signal w l.

(** The first segment of a path, as a reader of the URL takes it: what
    follows the leading slash, up to the next slash or the end. *)
Fixpoint upto_slash (s : string) : string :=
  match s with
  | EmptyString => EmptyString
  | String c rest => if Ascii.eqb c "/" then EmptyString else String c (upto_slash rest)
  end.

Definition first_segment (p : string) : string :=
  match p with
  | String c rest => if Ascii.eqb c "/" then upto_slash rest else upto_slash p
  | EmptyString => EmptyString
  end.

(** ** The tree around an element *)

(** Where a node sits in a document: among the children of the document
    ([Top]), or among the children of an element that sits somewhere itself;
    [before] and [after] are its siblings on either side. *)
Inductive Place : Type :=
| Top (before after : list Node)
| Inside (outer : Place) (tag : string) (attrs : list (string * string))
         (classes : list string) (before after : list Node).

(** The document with [n] at the place. *)
Fixpoint plug (p : Place) (n : Node) : Document :=
  match p with
  | Top before after => (before ++ n :: after)%list
  | Inside outer t a c before after =>
      plug outer (Elem t a c (before ++ n :: after))
  end.

(** No node that comes before the place in tree order is selected: no
    ancestor, and nothing in the subtrees of the earlier siblings of the
    place and of its ancestors.  [n] is the node at the place. *)
Fixpoint first_at (sel : Node -> bool) (p : Place) (n : Node) : Prop :=
  match p with
  | Top before _ => Forall (fun k => find_node sel k = None) before
  | Inside outer t a c before after =>
      Forall (fun k => find_node sel k = None) before /\
      sel (Elem t a c (before ++ n :: after)) = false /\
      first_at sel outer (Elem t a c (before ++ n :: after))
  end.

(** ** Pages whose bound elements stand apart *)

(** Does the element carry a [data-i18n] attribute? *)
Definition bound (n : Node) : bool :=
  match getAttribute "data-i18n" n with
  | Some _ => true
  | None => false
  end.

(** No element of the subtree carries a [data-i18n] attribute. *)
Fixpoint unbound (n : Node) : bool :=
  negb (bound n) &&
  match n with
  | Text _ => true
  | Elem _ _ _ kids => forallb unbound kids
  end.

(** No element with a [data-i18n] attribute lies inside an element whose
    children the script replaces: another element with a [data-i18n]
    attribute, or a [title] element. *)
Fixpoint flat (n : Node) : bool :=
  match n with
  | Text _ => true
  | Elem _ _ _ kids =>
      if bound n || is_title n then forallb unbound kids else forallb flat kids
  end.

(** The outermost elements with a [data-i18n] attribute, in tree order. *)
Fixpoint outline (n : Node) : list Node :=
  if bound n then [n] else
  match n with
  | Text _ => []
  | Elem _ _ _ kids => flat_map outline kids
  end.

(** A list with the first entry that [g] changes changed. *)
Definition update_list {A} (g : A -> option A) (l : list A) : list A :=
  match first_change g l with
  | Some l' => l'
  | None => l
  end.

Definition on_match (K : string) (f : Node -> Node) (e : Node) : option Node :=
  if matches K e then Some (f e) else None.

(** [k'] can stand for [k] in a flat page: the page stays flat and has an
    element for the same keys. *)
Definition akin (k k' : Node) : Prop :=
  flat k = true ->
  flat k' = true /\
  (unbound k = true -> unbound k' = true) /\
  forall K, isSome (find_node (matches K) k') = isSome (find_node (matches K) k).

(** The switcher controls with the [active] token taken off. *)
Fixpoint unmark (inside : bool) (n : Node) : Node :=
  match n with
  | Text s => Text s
  | Elem t a c kids =>
      Elem t a
        (match (if inside then assoc "data-lang" a else None) with
         | Some _ => toggle "active" false c
         | None => c
         end)
        (map (unmark (inside || has_id "lang-switcher" n)) kids)
  end.

(** The passes after the metadata pass, one after the other. *)
Definition section_passes : JS unit :=
  renderNav ;; renderHero ;; renderBenefits ;; renderDifferential ;;
  renderHowItWorks ;; renderEngine ;; renderFeatures ;; renderTestimonials ;;
  renderBeforeAfter ;; renderUseCases ;; renderFAQ ;; renderFinalCTA ;;
  renderFooter.

(** The [lang] attribute of the root element. *)
Definition root_lang (d : Document) : option string :=
  match documentElement d with
  | Some root => getAttribute "lang" root
  | None => None
  end.

(** [m] keeps the relation [R] between the world it starts in and the
    world it leaves, however it ends. *)
Definition spares (R : World -> World -> Prop) {A} (m : JS A) : Prop :=
  forall w, R w (world_of (m w)).

(** A relation every write of a section pass keeps: it holds of a world
    and itself, composes, and holds across a logged effect and across the
    replacement of the children of the element for a key. *)
Definition frame (R : World -> World -> Prop) : Prop :=
  (forall w, R w w) /\
  (forall w1 w2 w3, R w1 w2 -> R w2 w3 -> R w1 w3) /\
  (forall e w, R w (emit e w)) /\
  (forall key (new : Node -> list Node) w,
     R w (set_document
            (update (matches key) (fun el => with_children (new el) el)
                    (document w)) w)).

(** The same content and the same root language. *)
Definition same_root_lang (w w' : World) : Prop :=
  content w' = content w /\
  root_lang (document w') = root_lang (document w).

(** ** Documents complete enough to render *)

(** The value of [o.k] where the access does not throw. *)
Definition get (o : value) (k : string) : value :=
  match o with
  | Some (JObj fields) => lookup k fields
  | _ => None
  end.

(** A value whose properties can be read: anything but [undefined] and
    [null]. *)
Definition readable (o : value) : bool :=
  match o with
  | None => false
  | Some JNull => false
  | Some _ => true
  end.

Definition is_array (a : value) : bool :=
  match a with
  | Some (JArr _) => true
  | _ => false
  end.

(** An array none of whose entries is [null]. *)
Definition list_of (a : value) : bool :=
  match a with
  | Some (JArr l) => forallb (fun x => readable (Some x)) l
  | _ => false
  end.

(** A section with an array of entries under [items]. *)
Definition listing (section : value) (items : string) : bool :=
  readable section && list_of (get section items).

(** Every object the passes read into is there, every sequence they
    iterate is an array, and no entry they read into is [null]; the engine
    section may be missing. *)
Definition complete (c : json) : bool :=
  readable (get (Some c) "meta") &&
  readable (get (Some c) "nav") &&
  listing (get (Some c) "hero") "buttons" &&
  readable (get (Some c) "sections") &&
  (listing (get (get (Some c) "sections") "benefits") "features" &&
   list_of (get (get (get (Some c) "sections") "benefits") "metrics")) &&
  listing (get (get (Some c) "sections") "differential") "items" &&
  (listing (get (get (Some c) "sections") "howItWorks") "steps" &&
   readable (get (get (get (Some c) "sections") "howItWorks") "integration")) &&
  (negb (truthy (get (get (Some c) "sections") "engine")) ||
   list_of (get (get (get (Some c) "sections") "engine") "stages")) &&
  listing (get (get (Some c) "sections") "featureSet") "features" &&
  listing (get (get (Some c) "sections") "testimonials") "items" &&
  (readable (get (get (Some c) "sections") "beforeAfter") &&
   readable (get (get (get (Some c) "sections") "beforeAfter") "before") &&
   readable (get (get (get (Some c) "sections") "beforeAfter") "after") &&
   is_array (get (get (get (get (Some c) "sections") "beforeAfter") "before") "items") &&
   is_array (get (get (get (get (Some c) "sections") "beforeAfter") "after") "items") &&
   is_array (get (get (get (Some c) "sections") "beforeAfter") "footer")) &&
  listing (get (get (Some c) "sections") "useCases") "cases" &&
  listing (get (get (Some c) "sections") "faq") "items" &&
  listing (get (get (Some c) "sections") "finalCTA") "buttons" &&
  (readable (get (Some c) "footer") &&
   readable (get (get (Some c) "footer") "company") &&
   readable (get (get (Some c) "footer") "contact")).

(** No object anywhere in the value has an own property named [toString],
    so every part of it has a string conversion. *)
Fixpoint plain_json (j : json) : bool :=
  match j with
  | JArr l => forallb plain_json l
  | JObj fields =>
      negb (isSome (lookup "toString" fields)) &&
      forallb (fun kv => plain_json (snd kv)) fields
  | _ => true
  end.

Definition plain (v : value) : bool :=
  match v with
  | None => true
  | Some j => plain_json j
  end.

(** From any world that holds content [c] and whose page has a root
    element, [m] returns a value satisfying [Q] and leaves both in place. *)
Definition runs_to {A} (c : json) (m : JS A) (Q : A -> Prop) : Prop :=
  forall w, content w = c -> isSome (documentElement (document w)) = true ->
            exists a w', m w = Ok a w' /\ content w' = c /\
                         isSome (documentElement (document w')) = true /\ Q a.

(** The sections whose passes read into them without a guard. *)
Definition required_sections : list string :=
  ["benefits"; "differential"; "howItWorks"; "featureSet"; "testimonials";
   "beforeAfter"; "useCases"; "faq"; "finalCTA"].

(** From any world holding content [c], [m] throws. *)
Definition throws_at {A} (c : json) (m : JS A) : Prop :=
  forall w, content w = c -> returned (m w) = false.

(** ** The binding table *)

(** The entries of an array. *)
Definition entries (a : value) : list json :=
  match a with
  | Some (JArr l) => l
  | _ => []
  end.

(** What an element is given: a string to hold literally, or markup to
    parse. *)
Inductive Written : Type :=
| Literal (text : string)
| Parsed (html : string).

(** The children that leaves in the element [el]. *)
Definition realise (parse : string -> string -> list Node) (el : Node)
  (t : Written) : list Node :=
  match t with
  | Literal s => text_nodes s
  | Parsed html => parse (tagName el) html
  end.

(** What a field bound with [setText] gives its element; [None] where the
    value has no string conversion. *)
Definition text_of (o : value) (k : string) : option Written :=
  option_map Literal (textContent_of (get o k)).

(** What a field bound with [setHTML] gives its element. *)
Definition markup_of (o : value) (k : string) : option Written :=
  option_map Parsed (innerHTML_of (get o k)).

(** What a list bound through [innerHTML] gives its container. *)
Definition list_items (items : value) : option Written :=
  option_map (fun ss => Parsed (String.concat "" ss)) (li_strings (entries items)).

(** The locations [render] binds outside its loops, each with what it
    receives from content [c]: the scalar fields as text, the engine
    statement and the two before/after lists as markup.  The engine rows are
    there only when the content has an engine section. *)
Definition bindings (c : json) : list (string * option Written) :=
  let nav := get (Some c) "nav" in
  let hero := get (Some c) "hero" in
  let sections := get (Some c) "sections" in
  let benefits := get sections "benefits" in
  let differential := get sections "differential" in
  let howItWorks := get sections "howItWorks" in
  let engine := get sections "engine" in
  let featureSet := get sections "featureSet" in
  let testimonials := get sections "testimonials" in
  let beforeAfter := get sections "beforeAfter" in
  let useCases := get sections "useCases" in
  let faq := get sections "faq" in
  let finalCTA := get sections "finalCTA" in
  let footer := get (Some c) "footer" in
  ([("nav.benefits", text_of nav "benefits");
    ("nav.howItWorks", text_of nav "howItWorks");
    ("nav.features", text_of nav "features");
    ("nav.faq", text_of nav "faq");
    ("nav.contact", text_of nav "contact");
    ("nav.cta", text_of nav "cta");
    ("hero.tag", text_of hero "tag");
    ("hero.title", text_of hero "title");
    ("hero.subtitle", text_of hero "subtitle");
    ("hero.trustedBy", text_of hero "trustedBy");
    ("benefits.tag", text_of benefits "tag");
    ("benefits.title", text_of benefits "title");
    ("benefits.subtitle", text_of benefits "subtitle");
    ("benefits.metricsTitle", text_of benefits "metricsTitle");
    ("differential.tag", text_of differential "tag");
    ("differential.title", text_of differential "title");
    ("howItWorks.tag", text_of howItWorks "tag");
    ("howItWorks.title", text_of howItWorks "title");
    ("howItWorks.integration.title",
     text_of (get howItWorks "integration") "title");
    ("howItWorks.integration.description",
     text_of (get howItWorks "integration") "description")] ++
   (if truthy engine
    then [("engine.tag", text_of engine "tag");
          ("engine.title", text_of engine "title");
          ("engine.subtitle", text_of engine "subtitle");
          ("engine.statement", markup_of engine "statement")]
    else []) ++
   [("featureSet.tag", text_of featureSet "tag");
    ("featureSet.title", text_of featureSet "title");
    ("testimonials.tag", text_of testimonials "tag");
    ("testimonials.title", text_of testimonials "title");
    ("beforeAfter.tag", text_of beforeAfter "tag");
    ("beforeAfter.title", text_of beforeAfter "title");
    ("beforeAfter.before.title", text_of (get beforeAfter "before") "title");
    ("beforeAfter.after.title", text_of (get beforeAfter "after") "title");
    ("beforeAfter.before.items",
     list_items (get (get beforeAfter "before") "items"));
    ("beforeAfter.after.items",
     list_items (get (get beforeAfter "after") "items"));
    ("useCases.tag", text_of useCases "tag");
    ("useCases.title", text_of useCases "title");
    ("faq.tag", text_of faq "tag");
    ("faq.title", text_of faq "title");
    ("finalCTA.title", text_of finalCTA "title");
    ("finalCTA.subtitle", text_of finalCTA "subtitle");
    ("finalCTA.note", text_of finalCTA "note");
    ("footer.tagline", text_of footer "tagline");
    ("footer.company.description",
     text_of (get footer "company") "description");
    ("footer.contact.location", text_of (get footer "contact") "location");
    ("footer.copyright", text_of footer "copyright")])%list.

(** The parser builds no element with a [data-i18n] attribute from the
    markup that content [c] supplies for the raw locations. *)
Definition inert (parse : string -> string -> list Node) (c : json) : Prop :=
  forall K html tag,
    In (K, Some (Parsed html)) (bindings c) ->
    forallb unbound (parse tag html) = true.

(** The markup [s] is harmless for content [c]: a parser that is inert on
    [c] builds no bound element from it. *)
Definition harmless_in (c : json) (s : string) : Prop :=
  forall parse, inert parse c -> forall tag, forallb unbound (parse tag s) = true.

(** A world holding content [c] whose page is flat, has a root element and
    receives no bound element from the markup of [c]. *)
Definition tidy (c : json) (w : World) : Prop :=
  content w = c /\
  forallb flat (document w) = true /\
  isSome (documentElement (document w)) = true /\
  inert (html_parser w) c.

(** From any tidy world, [m] returns, leaves the world tidy and keeps the
    element selected by [K] if there is one. *)
Definition runs_by {A} (c : json) (K : string) (m : JS A) : Prop :=
  forall w, tidy c w ->
    exists a w', m w = Ok a w' /\ tidy c w' /\
                 html_parser w' = html_parser w /\
                 isSome (querySelector (matches K) (document w'))
                 = isSome (querySelector (matches K) (document w)).

(** From any tidy world, [m] returns, leaves the world tidy and leaves the
    element selected by [K] as it found it. *)
Definition passes {A} (c : json) (K : string) (m : JS A) : Prop :=
  forall w, tidy c w ->
    exists a w', m w = Ok a w' /\ tidy c w' /\
                 html_parser w' = html_parser w /\
                 querySelector (matches K) (document w')
                 = querySelector (matches K) (document w).

(** From any tidy world whose page has an element for [K], [m] returns,
    leaves the world tidy and leaves that element with the children [t]
    gives it. *)
Definition binds {A} (c : json) (K : string) (t : Written) (m : JS A) : Prop :=
  forall w, tidy c w ->
    isSome (querySelector (matches K) (document w)) = true ->
    exists a w' e, m w = Ok a w' /\ tidy c w' /\
                   html_parser w' = html_parser w /\
                   querySelector (matches K) (document w') = Some e /\
                   childNodes e = realise (html_parser w) e t.

(** * Properties *)

(** ** Trees *)

Lemma Node_nested_ind (P : Node -> Prop) :
  (forall s, P (Text s)) ->
  (forall t a c kids, Forall P kids -> P (Elem t a c kids)) ->
  forall n, P n.
Proof.
  intros HT HE. fix IH 1. intros [s | t a c kids].
  - apply HT.
  - apply HE. induction kids as [|k kids IHk]; constructor; [apply IH | exact IHk].
Qed.

Lemma first_change_split {A} (h : A -> option A) l l' :
  first_change h l = Some l' ->
  exists l1 k k' l2, l = (l1 ++ k :: l2)%list /\ l' = (l1 ++ k' :: l2)%list /\
                     h k = Some k' /\ Forall (fun x => h x = None) l1.
Proof.
  revert l'. induction l as [|x l IH]; intros l' H; simpl in H; [discriminate |].
  destruct (h x) as [x'|] eqn:E.
  - injection H as <-. exists [], x, x', l. repeat split; auto.
  - destruct (first_change h l) as [r|] eqn:Er; [| discriminate].
    injection H as <-. destruct (IH r eq_refl) as (l1 & k & k' & l2 & -> & -> & Hk & Hl).
    exists (x :: l1), k, k', l2. repeat split; auto.
Qed.

Lemma first_change_None {A} (h : A -> option A) l :
  first_change h l = None <-> Forall (fun x => h x = None) l.
Proof.
  induction l as [|x l IH]; simpl.
  - split; auto.
  - destruct (h x) eqn:E.
    + split; [discriminate | intros H; inversion H; congruence].
    + destruct (first_change h l).
      * split; [discriminate |]. intros H. inversion H; subst.
        apply IH in H3. discriminate.
      * split; auto. intros _. constructor; [assumption | now apply IH].
Qed.

Lemma first_change_app {A} (h : A -> option A) l1 l2 :
  first_change h (l1 ++ l2) =
  match first_change h l1 with
  | Some l1' => Some (l1' ++ l2)%list
  | None => option_map (app l1) (first_change h l2)
  end.
Proof.
  induction l1 as [|x l1 IH]; simpl.
  - destruct (first_change h l2); reflexivity.
  - destruct (h x); [reflexivity |]. rewrite IH.
    destruct (first_change h l1); [reflexivity |].
    destruct (first_change h l2); reflexivity.
Qed.

Lemma first_some_app {A B} (f : A -> option B) l1 l2 :
  first_some f (l1 ++ l2) =
  match first_some f l1 with
  | Some b => Some b
  | None => first_some f l2
  end.
Proof.
  induction l1 as [|x l1 IH]; simpl; [reflexivity |].
  destruct (f x); [reflexivity | exact IH].
Qed.

Lemma first_some_None {A B} (f : A -> option B) l :
  Forall (fun x => f x = None) l -> first_some f l = None.
Proof.
  induction 1 as [|x l Hx _ IH]; simpl; [reflexivity |]. now rewrite Hx.
Qed.

Lemma find_app {A} (p : A -> bool) l1 l2 :
  find p (l1 ++ l2) =
  match find p l1 with
  | Some b => Some b
  | None => find p l2
  end.
Proof.
  induction l1 as [|x l1 IH]; simpl; [reflexivity |].
  destruct (p x); [reflexivity | exact IH].
Qed.

Lemma first_some_find {A B} (f : A -> option B) (p : B -> bool) (g : A -> list B) l :
  Forall (fun x => f x = find p (g x)) l ->
  first_some f l = find p (flat_map g l).
Proof.
  induction 1 as [|x l Hx _ IH]; simpl; [reflexivity |].
  rewrite find_app, <- Hx, IH. reflexivity.
Qed.

(** The unfoldings of the tree functions on a node given by its
    children. *)
Lemma find_node_eq sel n :
  find_node sel n =
  if sel n then Some n else first_some (find_node sel) (childNodes n).
Proof. destruct n; reflexivity. Qed.

Lemma unbound_eq n :
  unbound n = negb (bound n) && forallb unbound (childNodes n).
Proof. destruct n; reflexivity. Qed.

Lemma flat_eq n :
  flat n = if bound n || is_title n then forallb unbound (childNodes n)
           else forallb flat (childNodes n).
Proof. destruct n; reflexivity. Qed.

Lemma outline_eq n :
  outline n = if bound n then [n] else flat_map outline (childNodes n).
Proof. destruct n; reflexivity. Qed.

Lemma matches_bound K n : matches K n = true -> bound n = true.
Proof. unfold matches, bound. destruct (getAttribute _ n); [reflexivity | discriminate]. Qed.

Lemma unbound_flat n : unbound n = true -> flat n = true.
Proof.
  induction n as [s | t a c kids IH] using Node_nested_ind; [reflexivity |].
  rewrite unbound_eq, flat_eq. intros H. apply andb_true_iff in H.
  destruct H as [Hb Hk]. apply negb_true_iff in Hb. rewrite Hb. simpl childNodes in *.
  destruct (is_title _); simpl; [exact Hk |].
  rewrite forallb_forall in *. rewrite Forall_forall in IH. auto.
Qed.

Lemma unbound_find K n : unbound n = true -> find_node (matches K) n = None.
Proof.
  induction n as [s | t a c kids IH] using Node_nested_ind; [reflexivity |].
  rewrite unbound_eq, find_node_eq. intros H. apply andb_true_iff in H.
  destruct H as [Hb Hk]. apply negb_true_iff in Hb.
  destruct (matches K _) eqn:M; [apply matches_bound in M; congruence |].
  apply first_some_None. simpl childNodes in *.
  rewrite forallb_forall in Hk. rewrite Forall_forall in *. auto.
Qed.

Lemma unbound_find_all K l :
  forallb unbound l = true -> first_some (find_node (matches K)) l = None.
Proof.
  intros H. apply first_some_None. rewrite forallb_forall in H.
  apply Forall_forall. intros x Hx. apply unbound_find. auto.
Qed.

Lemma unbound_outline n : unbound n = true -> outline n = [].
Proof.
  induction n as [s | t a c kids IH] using Node_nested_ind; [reflexivity |].
  rewrite unbound_eq, outline_eq. intros H. apply andb_true_iff in H.
  destruct H as [Hb Hk]. apply negb_true_iff in Hb. rewrite Hb.
  simpl childNodes in *. rewrite forallb_forall in Hk. rewrite Forall_forall in IH.
  assert (E : forall k, In k kids -> outline k = []) by auto.
  clear - E. induction kids as [|k kids IHk]; [reflexivity |]. simpl.
  rewrite E by (now left). apply IHk. intros x Hx. apply E. now right.
Qed.

Lemma unbound_change K f n : unbound n = true -> change_node (matches K) f n = None.
Proof.
  induction n as [s | t a c kids IH] using Node_nested_ind; [reflexivity |].
  rewrite unbound_eq. intros H. apply andb_true_iff in H.
  destruct H as [Hb Hk]. apply negb_true_iff in Hb. simpl.
  destruct (matches K _) eqn:M; [apply matches_bound in M; congruence |].
  replace (first_change _ kids) with (@None (list Node)); [reflexivity |].
  symmetry. apply first_change_None. simpl childNodes in *.
  rewrite forallb_forall in Hk. rewrite Forall_forall in *. auto.
Qed.

(** On a flat page, [querySelector] on a key looks through the outline. *)
Lemma flat_find K n :
  flat n = true -> find_node (matches K) n = find (matches K) (outline n).
Proof.
  induction n as [s | t a c kids IH] using Node_nested_ind; [reflexivity |].
  rewrite flat_eq, find_node_eq, outline_eq. intros F.
  destruct (matches K _) eqn:M.
  - rewrite (matches_bound _ _ M). simpl. now rewrite M.
  - destruct (bound _) eqn:B; simpl in F |- *.
    + rewrite M. now apply unbound_find_all.
    + apply first_some_find. rewrite Forall_forall in *. intros k Hk. apply IH; [exact Hk |].
      destruct (is_title _).
      * apply unbound_flat. rewrite forallb_forall in F. auto.
      * rewrite forallb_forall in F. auto.
Qed.

Lemma flat_querySelector K d :
  forallb flat d = true ->
  querySelector (matches K) d = find (matches K) (flat_map outline d).
Proof.
  intros F. apply first_some_find. rewrite forallb_forall in F.
  apply Forall_forall. intros k Hk. apply flat_find. auto.
Qed.

Lemma first_change_flat_map {A B} (h : A -> option A) (g : B -> option B)
      (o : A -> list B) l :
  Forall (fun k => first_change g (o k) = option_map o (h k)) l ->
  first_change g (flat_map o l) = option_map (flat_map o) (first_change h l).
Proof.
  induction 1 as [|k l Hk _ IH]; simpl; [reflexivity |].
  rewrite first_change_app, Hk, IH.
  destruct (h k); simpl; [reflexivity |].
  destruct (first_change h l); reflexivity.
Qed.

Lemma change_outline K f n :
  (forall e, matches K e = true -> bound (f e) = true) ->
  flat n = true ->
  first_change (on_match K f) (outline n)
  = option_map outline (change_node (matches K) f n).
Proof.
  intros Hf.
  induction n as [s | t a c kids IH] using Node_nested_ind; [reflexivity |].
  rewrite flat_eq, outline_eq. intros F. simpl change_node.
  destruct (matches K _) eqn:M.
  - rewrite (matches_bound _ _ M). simpl. unfold on_match at 1. rewrite M. simpl.
    rewrite (outline_eq (f _)), Hf by exact M. reflexivity.
  - destruct (bound _) eqn:B; simpl in F |- *.
    + unfold on_match at 1. rewrite M. simpl.
      replace (first_change _ kids) with (@None (list Node)); [reflexivity |].
      symmetry. apply first_change_None. rewrite forallb_forall in F.
      apply Forall_forall. intros k Hk. apply unbound_change. auto.
    + rewrite (first_change_flat_map (change_node (matches K) f)).
      * destruct (first_change _ kids) as [kids'|]; simpl; [| reflexivity].
        replace (bound (Elem t a c kids')) with (bound (Elem t a c kids)) by reflexivity.
        now rewrite B.
      * rewrite Forall_forall in *. intros k Hk. apply IH; [exact Hk |].
        destruct (is_title _).
        -- apply unbound_flat. rewrite forallb_forall in F. auto.
        -- rewrite forallb_forall in F. auto.
Qed.

Lemma update_outline K f d :
  (forall e, matches K e = true -> bound (f e) = true) ->
  forallb flat d = true ->
  flat_map outline (update (matches K) f d)
  = update_list (on_match K f) (flat_map outline d).
Proof.
  intros Hf F. unfold update, update_list.
  rewrite (first_change_flat_map (change_node (matches K) f)).
  - destruct (first_change _ d); reflexivity.
  - rewrite forallb_forall in F. apply Forall_forall. intros k Hk.
    apply change_outline; auto.
Qed.

Lemma update_list_cons {A} (g : A -> option A) x l :
  update_list g (x :: l)
  = match g x with
    | Some x' => x' :: l
    | None => x :: update_list g l
    end.
Proof.
  unfold update_list. simpl. destruct (g x); [reflexivity |].
  destruct (first_change g l); reflexivity.
Qed.

Lemma find_update_same K f l :
  (forall e, matches K e = true -> matches K (f e) = true) ->
  find (matches K) (update_list (on_match K f) l)
  = option_map f (find (matches K) l).
Proof.
  intros Hf. induction l as [|x l IH]; [reflexivity |].
  rewrite update_list_cons. unfold on_match at 1.
  destruct (matches K x) eqn:M; simpl.
  - now rewrite Hf, M.
  - now rewrite M.
Qed.

Lemma find_update_other K key f l :
  (forall e, matches key e = true -> matches K (f e) = false) ->
  key <> K ->
  find (matches K) (update_list (on_match key f) l) = find (matches K) l.
Proof.
  intros Hf Hne. induction l as [|x l IH]; [reflexivity |].
  rewrite update_list_cons. unfold on_match at 1.
  destruct (matches key x) eqn:M; simpl.
  - rewrite Hf by exact M.
    replace (matches K x) with false; [reflexivity |].
    unfold matches in *. destruct (getAttribute _ x) as [k|]; [| reflexivity].
    apply String.eqb_eq in M. subst k. symmetry. now apply String.eqb_neq.
  - destruct (matches K x); [reflexivity | exact IH].
Qed.

(** ** Changes that keep a page flat *)

Lemma isSome_first_some_app {A B} (f : A -> option B) l1 l2 :
  isSome (first_some f (l1 ++ l2))
  = isSome (first_some f l1) || isSome (first_some f l2).
Proof. rewrite first_some_app. destruct (first_some f l1); reflexivity. Qed.

Lemma isSome_first_some_cons {A B} (f : A -> option B) x l :
  isSome (first_some f (x :: l)) = isSome (f x) || isSome (first_some f l).
Proof. simpl. destruct (f x); reflexivity. Qed.

Lemma forallb_middle {A} (p : A -> bool) l1 k l2 :
  forallb p (l1 ++ k :: l2) = forallb p l1 && p k && forallb p l2.
Proof. rewrite forallb_app. simpl. now rewrite andb_assoc. Qed.

Lemma akin_middle l1 k k' l2 :
  akin k k' ->
  (forallb flat (l1 ++ k :: l2) = true -> forallb flat (l1 ++ k' :: l2) = true) /\
  (forallb unbound (l1 ++ k :: l2) = true -> forallb unbound (l1 ++ k' :: l2) = true) /\
  (flat k = true ->
   forall K, isSome (first_some (find_node (matches K)) (l1 ++ k' :: l2))
             = isSome (first_some (find_node (matches K)) (l1 ++ k :: l2))).
Proof.
  intros H. rewrite !forallb_middle. repeat split.
  - intros F. apply andb_true_iff in F. destruct F as [F F2].
    apply andb_true_iff in F. destruct F as [F1 Fk].
    destruct (H Fk) as (Fk' & _). now rewrite F1, Fk', F2.
  - intros F. apply andb_true_iff in F. destruct F as [F F2].
    apply andb_true_iff in F. destruct F as [F1 Fk].
    destruct (H (unbound_flat _ Fk)) as (_ & U & _). now rewrite F1, (U Fk), F2.
  - intros Fk K. destruct (H Fk) as (_ & _ & P).
    now rewrite !isSome_first_some_app, !isSome_first_some_cons, P.
Qed.

Lemma akin_child t a c l1 k k' l2 :
  akin k k' -> akin (Elem t a c (l1 ++ k :: l2)) (Elem t a c (l1 ++ k' :: l2)).
Proof.
  intros H F. destruct (akin_middle l1 k k' l2 H) as (HF & HU & HP).
  rewrite flat_eq in F. simpl childNodes in F.
  replace (bound (Elem t a c (l1 ++ k :: l2)) || is_title (Elem t a c (l1 ++ k :: l2)))
    with (bound (Elem t a c (l1 ++ k' :: l2)) || is_title (Elem t a c (l1 ++ k' :: l2)))
    in F by reflexivity.
  assert (Fk : flat k = true).
  { destruct (_ || _); rewrite forallb_middle in F;
      apply andb_true_iff in F; destruct F as [F _];
      apply andb_true_iff in F; destruct F as [_ F]; [now apply unbound_flat | exact F]. }
  repeat split.
  - rewrite flat_eq. simpl childNodes. destruct (_ || _); auto.
  - rewrite !unbound_eq. simpl childNodes. intros U. apply andb_true_iff in U.
    destruct U as [U1 U2]. apply andb_true_iff. split; [exact U1 | auto].
  - intros K. rewrite !find_node_eq. simpl childNodes.
    replace (matches K (Elem t a c (l1 ++ k' :: l2)))
      with (matches K (Elem t a c (l1 ++ k :: l2))) by reflexivity.
    destruct (matches K _); [reflexivity | auto].
Qed.

Lemma change_akin sel f n :
  (forall e, sel e = true -> akin e (f e)) ->
  forall n', change_node sel f n = Some n' -> akin n n'.
Proof.
  intros Hf.
  induction n as [s | t a c kids IH] using Node_nested_ind; intros n' H; simpl in H.
  - destruct (sel _) eqn:S; [| discriminate]. injection H as <-. now apply Hf.
  - destruct (sel _) eqn:S; [injection H as <-; now apply Hf |].
    destruct (first_change _ kids) as [kids'|] eqn:E; [| discriminate].
    injection H as <-.
    apply first_change_split in E. destruct E as (l1 & k & k' & l2 & -> & -> & Hk & _).
    apply akin_child. rewrite Forall_forall in IH. apply (IH k); [| exact Hk].
    apply in_elt.
Qed.

Lemma update_akin sel f d :
  (forall e, sel e = true -> akin e (f e)) ->
  forallb flat d = true ->
  forallb flat (update sel f d) = true /\
  forall K, isSome (querySelector (matches K) (update sel f d))
            = isSome (querySelector (matches K) d).
Proof.
  intros Hf F. unfold update.
  destruct (first_change _ d) as [d'|] eqn:E; [| now split].
  apply first_change_split in E. destruct E as (l1 & k & k' & l2 & -> & -> & Hk & _).
  apply (change_akin _ _ _ Hf) in Hk.
  destruct (akin_middle l1 k k' l2 Hk) as (HF & _ & HP). split; [auto |].
  apply HP. rewrite forallb_middle in F. apply andb_true_iff in F. destruct F as [F _].
  apply andb_true_iff in F. apply F.
Qed.

Lemma assoc_put_other name name' v a :
  name' <> name -> assoc name' (put name v a) = assoc name' a.
Proof.
  intros Hne. induction a as [|[n0 v0] a IH]; simpl.
  - destruct (String.eqb_spec name name'); [congruence | reflexivity].
  - destruct (String.eqb_spec n0 name) as [-> |]; simpl.
    + destruct (String.eqb_spec name name'); [congruence | reflexivity].
    + destruct (n0 =? name'); [reflexivity | exact IH].
Qed.

Lemma akin_attribute name v e :
  name <> "data-i18n" -> akin e (with_attribute name v e).
Proof.
  intros Hne F. destruct e as [s | t a c kids]; [now repeat split |].
  assert (B : bound (with_attribute name v (Elem t a c kids)) = bound (Elem t a c kids)).
  { unfold bound. simpl. rewrite assoc_put_other by congruence. reflexivity. }
  repeat split.
  - rewrite flat_eq in *. simpl childNodes in *. rewrite B. exact F.
  - rewrite !unbound_eq. simpl childNodes. now rewrite B.
  - intros K. rewrite !find_node_eq. simpl childNodes.
    replace (matches K (with_attribute name v (Elem t a c kids)))
      with (matches K (Elem t a c kids)).
    + destruct (matches K _); reflexivity.
    + unfold matches. simpl. rewrite assoc_put_other by congruence. reflexivity.
Qed.

Lemma text_nodes_unbound s : forallb unbound (text_nodes s) = true.
Proof. unfold text_nodes. destruct (s =? ""); reflexivity. Qed.

(** Replacing the children of a bound element or of a title by nodes
    without bound elements. *)
Lemma akin_children new e :
  bound e || is_title e = true -> forallb unbound new = true ->
  akin e (with_children new e).
Proof.
  intros S U F. destruct e as [s | t a c kids]; [now repeat split |].
  rewrite flat_eq in F. rewrite S in F. simpl childNodes in F.
  repeat split.
  - rewrite flat_eq.
    replace (bound (with_children new (Elem t a c kids)) || is_title (with_children new (Elem t a c kids)))
      with (bound (Elem t a c kids) || is_title (Elem t a c kids)) by reflexivity.
    now rewrite S.
  - rewrite !unbound_eq. simpl childNodes. intros H. apply andb_true_iff in H.
    destruct H as [H _]. apply andb_true_iff. split; [exact H | exact U].
  - intros K. rewrite !find_node_eq. simpl childNodes.
    replace (matches K (with_children new (Elem t a c kids)))
      with (matches K (Elem t a c kids)) by reflexivity.
    destruct (matches K _); [reflexivity |].
    now rewrite !unbound_find_all.
Qed.

(** Appending a title element to an element. *)
Lemma akin_append s e :
  akin e (with_children (childNodes e ++ [Elem "title" [] [] (text_nodes s)]) e).
Proof.
  intros F. destruct e as [d | t a c kids]; [now repeat split |].
  simpl childNodes. set (ti := Elem "title" [] [] (text_nodes s)).
  assert (Ut : unbound ti = true).
  { unfold ti. rewrite unbound_eq. simpl childNodes. now rewrite text_nodes_unbound. }
  repeat split.
  - rewrite flat_eq in *. simpl childNodes in *.
    replace (bound (with_children (kids ++ [ti]) (Elem t a c kids)) || is_title (with_children (kids ++ [ti]) (Elem t a c kids)))
      with (bound (Elem t a c kids) || is_title (Elem t a c kids)) by reflexivity.
    destruct (_ || _); rewrite forallb_app, F; cbn [forallb andb]; [now rewrite Ut |].
    now rewrite (unbound_flat _ Ut).
  - rewrite !unbound_eq. simpl childNodes. intros H. apply andb_true_iff in H.
    destruct H as [H1 H2]. apply andb_true_iff. split; [exact H1 |].
    rewrite forallb_app, H2. cbn [forallb andb]. now rewrite Ut.
  - intros K. rewrite !find_node_eq. simpl childNodes.
    replace (matches K (with_children (kids ++ [ti]) (Elem t a c kids)))
      with (matches K (Elem t a c kids)) by reflexivity.
    destruct (matches K _); [reflexivity |].
    rewrite isSome_first_some_app, isSome_first_some_cons, (unbound_find _ _ Ut).
    cbn [isSome first_some orb]. now rewrite orb_false_r.
Qed.

Lemma akin_refl e : akin e e.
Proof. intros F. now repeat split. Qed.

Lemma first_change_akin (h : Node -> option Node) d :
  (forall k k', h k = Some k' -> akin k k') ->
  forallb flat d = true ->
  forallb flat (match first_change h d with Some d' => d' | None => d end) = true /\
  forall K, isSome (querySelector (matches K)
                      (match first_change h d with Some d' => d' | None => d end))
            = isSome (querySelector (matches K) d).
Proof.
  intros Hh F. destruct (first_change h d) as [d'|] eqn:E; [| now split].
  apply first_change_split in E. destruct E as (l1 & k & k' & l2 & -> & -> & Hk & _).
  apply Hh in Hk.
  destruct (akin_middle l1 k k' l2 Hk) as (HF & _ & HP). split; [auto |].
  apply HP. rewrite forallb_middle in F. apply andb_true_iff in F. destruct F as [F _].
  apply andb_true_iff in F. apply F.
Qed.

Lemma set_lang_akin s d :
  forallb flat d = true ->
  forallb flat (set_lang s d) = true /\
  forall K, isSome (querySelector (matches K) (set_lang s d))
            = isSome (querySelector (matches K) d).
Proof.
  apply first_change_akin. intros k k' H.
  destruct (is_element k); [| discriminate]. injection H as <-.
  apply akin_attribute. discriminate.
Qed.

Lemma append_to_head_akin s d :
  forallb flat d = true ->
  forallb flat (append_to_head (Elem "title" [] [] (text_nodes s)) d) = true /\
  forall K, isSome (querySelector (matches K)
                      (append_to_head (Elem "title" [] [] (text_nodes s)) d))
            = isSome (querySelector (matches K) d).
Proof.
  apply first_change_akin. intros root root' H.
  destruct (is_element root); [| discriminate]. injection H as <-.
  destruct (tagName root =? "html"); [| apply akin_refl].
  destruct (first_change _ (childNodes root)) as [kids'|] eqn:E; [| apply akin_refl].
  apply first_change_split in E. destruct E as (l1 & k & k' & l2 & E & -> & Hk & _).
  destruct root as [? | t a c kids]; [apply akin_refl |]. simpl in E. subst kids.
  simpl with_children. apply akin_child.
  destruct (is_head k); [| discriminate]. injection Hk as <-. apply akin_append.
Qed.

Lemma set_title_akin s d :
  forallb flat d = true ->
  forallb flat (set_title s d) = true /\
  forall K, isSome (querySelector (matches K) (set_title s d))
            = isSome (querySelector (matches K) d).
Proof.
  intros F. unfold set_title.
  destruct (first_change _ d) as [d'|] eqn:E; [| now apply append_to_head_akin].
  pose proof (update_akin is_title (with_children (text_nodes s)) d) as H.
  unfold update in H. rewrite E in H. apply H; [| exact F].
  intros e He. apply akin_children; [now rewrite He, orb_true_r | apply text_nodes_unbound].
Qed.

(** ** The root element *)

Lemma isSome_find_middle {A} (p : A -> bool) l1 k l2 :
  isSome (find p (l1 ++ k :: l2)) = isSome (find p l1) || p k || isSome (find p l2).
Proof.
  rewrite find_app. destruct (find p l1); [reflexivity |]. simpl.
  destruct (p k); reflexivity.
Qed.

Lemma change_node_is_element sel f n n' :
  (forall e, is_element (f e) = is_element e) ->
  change_node sel f n = Some n' -> is_element n' = is_element n.
Proof.
  intros Hf H. destruct n as [s | t a c kids]; simpl in H.
  - destruct (sel _); [| discriminate]. injection H as <-. apply Hf.
  - destruct (sel _); [injection H as <-; apply Hf |].
    destruct (first_change _ kids); [| discriminate]. now injection H as <-.
Qed.

Lemma first_change_root (h : Node -> option Node) d :
  (forall k k', h k = Some k' -> is_element k' = is_element k) ->
  isSome (documentElement (match first_change h d with Some d' => d' | None => d end))
  = isSome (documentElement d).
Proof.
  intros Hh. destruct (first_change h d) as [d'|] eqn:E; [| reflexivity].
  apply first_change_split in E. destruct E as (l1 & k & k' & l2 & -> & -> & Hk & _).
  unfold documentElement. rewrite !isSome_find_middle. now rewrite (Hh _ _ Hk).
Qed.

Lemma with_children_is_element new e : is_element (with_children new e) = is_element e.
Proof. now destruct e. Qed.

Lemma with_attribute_is_element name v e :
  is_element (with_attribute name v e) = is_element e.
Proof. now destruct e. Qed.

Lemma update_root sel f d :
  (forall e, is_element (f e) = is_element e) ->
  isSome (documentElement (update sel f d)) = isSome (documentElement d).
Proof.
  intros Hf. apply first_change_root. intros k k'. now apply change_node_is_element.
Qed.

Lemma set_lang_root s d :
  isSome (documentElement (set_lang s d)) = isSome (documentElement d).
Proof.
  apply first_change_root. intros k k' H. destruct (is_element k) eqn:E; [| discriminate].
  injection H as <-. now rewrite with_attribute_is_element.
Qed.

Lemma append_to_head_root ti d :
  isSome (documentElement (append_to_head ti d)) = isSome (documentElement d).
Proof.
  apply first_change_root. intros k k' H. destruct (is_element k) eqn:E; [| discriminate].
  injection H as <-. destruct (tagName k =? "html"); [| exact E].
  destruct (first_change _ (childNodes k)); [| exact E].
  now rewrite with_children_is_element.
Qed.

Lemma set_title_root s d :
  isSome (documentElement (set_title s d)) = isSome (documentElement d).
Proof.
  unfold set_title.
  pose proof (update_root is_title (with_children (text_nodes s)) d
                (with_children_is_element _)) as H.
  unfold update in H. destruct (first_change _ d); [exact H |].
  apply append_to_head_root.
Qed.

(** ** The place of the first match *)

Lemma find_None_change sel f n : find_node sel n = None -> change_node sel f n = None.
Proof.
  induction n as [s | t a c kids IH] using Node_nested_ind; simpl.
  - destruct (sel _); [discriminate | reflexivity].
  - destruct (sel _); [discriminate |]. intros H.
    replace (first_change _ kids) with (@None (list Node)); [reflexivity |].
    symmetry. apply first_change_None.
    induction kids as [|k kids IHk]; constructor; simpl in H;
      inversion IH as [|? ? Hk Hr]; subst;
      destruct (find_node sel k) eqn:E; try discriminate; auto.
Qed.

Lemma first_change_first (h : Node -> option Node) before n n' after :
  Forall (fun k => h k = None) before -> h n = Some n' ->
  first_change h (before ++ n :: after) = Some (before ++ n' :: after)%list.
Proof.
  intros Hb Hn. rewrite first_change_app.
  rewrite (proj2 (first_change_None h before) Hb). simpl. now rewrite Hn.
Qed.

Lemma first_some_first {B} (h : Node -> option B) before n r after :
  Forall (fun k => h k = None) before -> h n = Some r ->
  first_some h (before ++ n :: after) = Some r.
Proof.
  intros Hb Hn. rewrite first_some_app, (first_some_None h before Hb). simpl.
  now rewrite Hn.
Qed.

Lemma change_at_place sel f p :
  forall n n', first_at sel p n -> change_node sel f n = Some n' ->
               first_change (change_node sel f) (plug p n) = Some (plug p n').
Proof.
  induction p as [before after | outer IH t a c before after]; intros n n' F H; simpl in *.
  - apply first_change_first; [| exact H].
    eapply Forall_impl; [| exact F]. intros k. apply find_None_change.
  - destruct F as (Fb & S & Fo). apply IH; [exact Fo |]. simpl. rewrite S.
    rewrite (first_change_first _ before n n' after); [reflexivity | | exact H].
    eapply Forall_impl; [| exact Fb]. intros k. apply find_None_change.
Qed.

Lemma find_at_place sel p :
  forall n r, first_at sel p n -> find_node sel n = Some r ->
              querySelector sel (plug p n) = Some r.
Proof.
  unfold querySelector.
  induction p as [before after | outer IH t a c before after]; intros n r F H; simpl in *.
  - now apply first_some_first.
  - destruct F as (Fb & S & Fo). apply IH; [exact Fo |]. simpl. rewrite S.
    now apply first_some_first.
Qed.

(** ** The switcher controls *)

Lemma includes_In s l : includes s l = true <-> In s l.
Proof.
  unfold includes. rewrite existsb_exists. split.
  - intros (x & Hx & E). apply String.eqb_eq in E. now subst.
  - intros H. exists s. split; [assumption | apply String.eqb_refl].
Qed.

Lemma toggle_In token force cl : In token (toggle token force cl) <-> force = true.
Proof.
  unfold toggle. destruct force.
  - split; [reflexivity | intros _].
    destruct (includes token cl) eqn:I.
    + now apply includes_In.
    + apply in_or_app. right. now left.
  - split; [| discriminate]. intros H. apply filter_In in H.
    destruct H as [_ H]. now rewrite String.eqb_refl in H.
Qed.

Lemma toggle_idempotent token force cl :
  toggle token force (toggle token force cl) = toggle token force cl.
Proof.
  unfold toggle. destruct force.
  - destruct (includes token cl) eqn:I.
    + now rewrite I.
    + assert (I' : includes token (cl ++ [token]) = true).
      { apply includes_In, in_or_app. right. now left. }
      now rewrite I'.
  - induction cl as [|c cl IH]; simpl; [reflexivity |].
    destruct (negb (c =? token)) eqn:E; simpl; [rewrite E; f_equal |]; exact IH.
Qed.

Lemma toggle_off token force cl :
  toggle token false (toggle token force cl) = toggle token false cl.
Proof.
  destruct force; [| apply toggle_idempotent].
  unfold toggle. destruct (includes token cl); [reflexivity |].
  rewrite filter_app. simpl. rewrite String.eqb_refl. simpl. apply app_nil_r.
Qed.

(** Every control the selector finds after a marking carries [active]
    exactly when its code is the language marked. *)
Lemma mark_lang_buttons lang n :
  forall inside btn,
    In btn (lang_buttons inside (mark lang inside n)) ->
    (In "active" (classList btn) <-> getAttribute "data-lang" btn = Some lang).
Proof.
  induction n as [s | t a c kids IH] using Node_nested_ind; intros inside btn H.
  - destruct H.
  - simpl in H. apply in_app_or in H. destruct H as [H | H].
    + destruct (if inside then assoc "data-lang" a else None) as [l|] eqn:E;
        [| destruct H].
      destruct H as [<- | []]. simpl.
      destruct inside; [| discriminate]. rewrite E, toggle_In.
      split.
      * intros Q. apply String.eqb_eq in Q. now subst.
      * intros Q. injection Q as ->. apply String.eqb_refl.
    + apply in_flat_map in H. destruct H as (k' & Hk' & Hb).
      apply in_map_iff in Hk'. destruct Hk' as (k & <- & Hk).
      rewrite Forall_forall in IH. exact (IH k Hk _ _ Hb).
Qed.

Lemma mark_idempotent lang n :
  forall inside, mark lang inside (mark lang inside n) = mark lang inside n.
Proof.
  induction n as [s | t a c kids IH] using Node_nested_ind; intros inside;
    [reflexivity |].
  simpl. f_equal.
  - destruct (if inside then assoc "data-lang" a else None);
      [apply toggle_idempotent | reflexivity].
  - rewrite map_map. apply map_ext_in. intros k Hk.
    rewrite Forall_forall in IH. now apply IH.
Qed.

Lemma unmark_mark lang n :
  forall inside, unmark inside (mark lang inside n) = unmark inside n.
Proof.
  induction n as [s | t a c kids IH] using Node_nested_ind; intros inside;
    [reflexivity |].
  simpl. f_equal.
  - destruct (if inside then assoc "data-lang" a else None);
      [apply toggle_off | reflexivity].
  - rewrite map_map. apply map_ext_in. intros k Hk.
    rewrite Forall_forall in IH. now apply IH.
Qed.

Lemma mark_find_id id lang n :
  forall inside,
    isSome (find_node (has_id id) (mark lang inside n))
    = isSome (find_node (has_id id) n).
Proof.
  induction n as [s | t a c kids IH] using Node_nested_ind; intros inside;
    [reflexivity |].
  rewrite !find_node_eq.
  replace (has_id id (mark lang inside (Elem t a c kids)))
    with (has_id id (Elem t a c kids)) by reflexivity.
  destruct (has_id id _); [reflexivity |]. simpl childNodes.
  generalize (inside || has_id "lang-switcher" (Elem t a c kids)). intros flag.
  induction kids as [|k kids IHk]; [reflexivity |].
  inversion IH as [|? ? Hk Hr]; subst.
  cbn [map]. rewrite !isSome_first_some_cons, Hk, IHk; auto.
Qed.

(** What [querySelector] finds is selected. *)
Lemma first_some_In {A B} (f : A -> option B) l b :
  first_some f l = Some b -> exists x, In x l /\ f x = Some b.
Proof.
  induction l as [|x l IH]; simpl; [discriminate |].
  destruct (f x) eqn:E.
  - intros H. injection H as <-. exists x. auto.
  - intros H. destruct (IH H) as (y & Hy & Ey). exists y. auto.
Qed.

Lemma find_node_sel sel n r : find_node sel n = Some r -> sel r = true.
Proof.
  induction n as [s | t a c kids IH] using Node_nested_ind; rewrite find_node_eq.
  - destruct (sel (Text s)) eqn:S; [| discriminate]. intros H. now injection H as <-.
  - destruct (sel (Elem t a c kids)) eqn:S; [intros H; now injection H as <- |].
    simpl childNodes. intros H. apply first_some_In in H.
    destruct H as (k & Hk & Ek). rewrite Forall_forall in IH. now apply (IH k).
Qed.

Lemma querySelector_sel sel d r : querySelector sel d = Some r -> sel r = true.
Proof.
  intros H. apply first_some_In in H. destruct H as (k & _ & Ek).
  now apply (find_node_sel sel k).
Qed.

(** ** Language detection *)

Lemma supported_Some x l : supported x = Some l <-> x = Some l /\ In l supportedLangs.
Proof.
  unfold supported. destruct x as [s|].
  - destruct (negb (s =? "") && includes s supportedLangs) eqn:E.
    + apply andb_true_iff in E. destruct E as [_ E]. apply includes_In in E.
      split.
      * intros H. injection H as <-. now split.
      * intros [H _]. exact H.
    + split; [discriminate |]. intros [H Hin]. injection H as ->.
      rewrite (proj2 (includes_In _ _) Hin), andb_true_r in E.
      simpl in Hin. destruct Hin as [<- | [<- | []]]; discriminate.
  - split; [discriminate | intros [H _]; discriminate].
Qed.

Lemma supported_None x : supported x = None <-> forall l, ~ (x = Some l /\ In l supportedLangs).
Proof.
  split.
  - intros E l H. apply supported_Some in H. congruence.
  - intros H. destruct (supported x) as [l|] eqn:E; [| reflexivity].
    apply supported_Some in E. now apply H in E.
Qed.

Lemma pathMatch_Some w l : pathMatch (pathname (window w)) = Some l <-> path_signal w l.
Proof.
  unfold pathMatch, path_signal. set (p := pathname (window w)).
  destruct (prefix "/en/" p) eqn:En.
  - split.
    + intros H. injection H as <-. split; [simpl; auto | exact En].
    + intros [[<- | [<- | []]] H]; [| reflexivity].
      apply prefix_correct in En. apply prefix_correct in H.
      simpl in En, H. rewrite En in H. discriminate.
  - destruct (prefix "/es/" p) eqn:Es.
    + split.
      * intros H. injection H as <-. split; [simpl; auto | exact Es].
      * intros [[<- | [<- | []]] H]; [reflexivity |].
        simpl in H. congruence.
    + split; [discriminate |].
      intros [[<- | [<- | []]] H]; simpl in H; congruence.
Qed.

Lemma pathMatch_None w : pathMatch (pathname (window w)) = None <-> silent path_signal w.
Proof.
  split.
  - intros E l H. apply pathMatch_Some in H. congruence.
  - intros H. destruct (pathMatch (pathname (window w))) as [l|] eqn:E; [| reflexivity].
    apply pathMatch_Some in E. now apply H in E.
Qed.

(** C4, as the script has it.  Language resolution takes the first signal
    present in the order path, query parameter, stored preference, browser
    locale, default, where the path signal is a supported code between the
    first two slashes of the path (a path that starts with [/en/] or
    [/es/]): such a code wins over everything, a supported query value wins
    over the stored and browser values, and so on down to ["es"]; the
    result is always one of the supported languages. *)
Theorem detectLanguage_priority (w : World) :
  (forall l, path_signal w l -> detectLanguage w = l) /\
  (forall l, silent path_signal w -> query_signal w l -> detectLanguage w = l) /\
  (forall l, silent path_signal w -> silent query_signal w ->
             stored_signal w l -> detectLanguage w = l) /\
  (forall l, silent path_signal w -> silent query_signal w ->
             silent stored_signal w ->
             browser_signal w l -> detectLanguage w = l) /\
  (silent path_signal w -> silent query_signal w ->
   silent stored_signal w -> silent browser_signal w ->
   detectLanguage w = "es") /\
  In (detectLanguage w) supportedLangs.
Proof.
  unfold detectLanguage.
  destruct (pathMatch (pathname (window w))) as [lp|] eqn:Ep.
  { apply pathMatch_Some in Ep. assert (Hin : In lp supportedLangs) by apply Ep.
    repeat split; try assumption.
    - intros l H. apply pathMatch_Some in H. apply pathMatch_Some in Ep. congruence.
    - intros l H. now apply H in Ep.
    - intros l H. now apply H in Ep.
    - intros l H. now apply H in Ep.
    - intros H. now apply H in Ep. }
  destruct (supported (search_lang (window w))) as [lq|] eqn:Eq.
  { apply supported_Some in Eq. assert (Hin : In lq supportedLangs) by apply Eq.
    repeat split; try assumption.
    - intros l H. apply pathMatch_Some in H. congruence.
    - intros l _ [H _]. destruct Eq as [Eq _]. congruence.
    - intros l _ H. now apply H in Eq.
    - intros l _ H. now apply H in Eq.
    - intros _ H. now apply H in Eq. }
  pose proof (proj1 (supported_None _) Eq) as Nq.
  destruct (supported (gerard_lang w)) as [ls|] eqn:Es.
  { apply supported_Some in Es. assert (Hin : In ls supportedLangs) by apply Es.
    repeat split; try assumption.
    - intros l H. apply pathMatch_Some in H. congruence.
    - intros l _ H. now apply Nq in H.
    - intros l _ _ [H _]. destruct Es as [Es _]. congruence.
    - intros l _ _ H. now apply H in Es.
    - intros _ _ H. now apply H in Es. }
  pose proof (proj1 (supported_None _) Es) as Ns.
  set (b := substring 0 2 (navigator_language (window w))).
  destruct (includes b supportedLangs) eqn:Eb.
  - apply includes_In in Eb. repeat split; try assumption.
    + intros l H. apply pathMatch_Some in H. congruence.
    + intros l _ H. now apply Nq in H.
    + intros l _ _ H. now apply Ns in H.
    + intros l _ _ _ [H _]. now subst.
    + intros _ _ _ H. exfalso. apply (H b). now split.
  - repeat split; try (simpl; auto; fail).
    + intros l H. apply pathMatch_Some in H. congruence.
    + intros l _ H. now apply Nq in H.
    + intros l _ _ H. now apply Ns in H.
    + intros l _ _ _ [H Hin]. apply includes_In in Hin. subst l b. congruence.
Qed.

(** The path outranks the query: [/en/?lang=es] resolves to [en]. *)
Lemma detectLanguage_priority_witness :
  detectLanguage
    (mkWorld "es" JNull (Some "es") (fun _ => true)
             (mkWindow "/en/" (Some "es") "es-ES")
             Sample.parser Sample.page false []) = "en".
Proof.
  apply (proj1 (detectLanguage_priority _)).
  split; [simpl; auto | reflexivity].
Defined.

(** C4, as the claim has it, fails.  On the URL [/en?lang=es] the first
    path segment is the supported code [en], yet the script resolves to the
    query value [es]: its pattern asks for a slash after the code. *)
Lemma detectLanguage_path_without_slash :
  let w := mkWorld "es" JNull None (fun _ => true)
                   (mkWindow "/en" (Some "es") "en-GB")
                   Sample.parser Sample.page false [] in
  first_segment (pathname (window w)) = "en" /\
  In "en" supportedLangs /\
  detectLanguage w = "es".
Proof. repeat split. simpl. auto. Qed.

(** ** Loading *)

Lemma fetches_app t u : fetches (t ++ u) = (fetches t ++ fetches u)%list.
Proof.
  induction t as [|[] t IH]; simpl; try exact IH; [reflexivity | now f_equal].
Qed.

Lemma storage_writes_app t u :
  storage_writes (t ++ u) = (storage_writes t ++ storage_writes u)%list.
Proof.
  induction t as [|[] t IH]; simpl; try exact IH; [reflexivity | now f_equal].
Qed.

Lemma console_errors_app t u :
  console_errors (t ++ u) = (console_errors t ++ console_errors u)%list.
Proof.
  induction t as [|[] t IH]; simpl; try exact IH; [reflexivity | now f_equal].
Qed.

Lemma text_writes_app t u :
  text_writes (t ++ u) = (text_writes t ++ text_writes u)%list.
Proof.
  induction t as [|[] t IH]; simpl; try exact IH; [reflexivity | now f_equal].
Qed.

Lemma markup_writes_app t u :
  markup_writes (t ++ u) = (markup_writes t ++ markup_writes u)%list.
Proof.
  induction t as [|[] t IH]; simpl; try exact IH; [reflexivity | now f_equal].
Qed.

Section LoaderFacts.

Variable fetch : string -> response.

(** The defining equation of [loadContent], with the [catch] block's test
    as a boolean. *)
Lemma loadContent_eq lang w :
  loadContent fetch lang w =
  match try_load fetch lang w with
  | (w1, None) => w1
  | (w1, Some error) =>
      if lang =? "es" then emit (ConsoleError error) w1
      else loadContent fetch "es" (emit (ConsoleError error) w1)
  end.
Proof.
  rewrite loadContent_equation_1.
  destruct (try_load fetch lang w) as [w1 [error|]]; simpl; [| reflexivity].
  destruct (string_dec lang "es") as [->|Hne]; simpl; [reflexivity |].
  apply String.eqb_neq in Hne. now rewrite Hne.
Qed.

Lemma try_load_failed lang w :
  failed fetch lang = true ->
  exists error, try_load fetch lang w = (emit (Fetch (content_url lang)) w, Some error).
Proof.
  unfold failed, try_load.
  destruct (fetch (content_url lang)) as [|[|] [doc|]]; try discriminate; eauto.
Qed.

Lemma try_load_ok lang w doc :
  fetch (content_url lang) = Response true (Some doc) ->
  setItem_ok w lang = true ->
  try_load fetch lang w =
  (emit (SetItem "gerard-lang" lang)
     (set_gerard_lang lang (set_content doc (emit (Fetch (content_url lang)) w))),
   None).
Proof. unfold try_load. intros -> S. simpl. now rewrite S. Qed.

Lemma try_load_threw lang w doc :
  fetch (content_url lang) = Response true (Some doc) ->
  setItem_ok w lang = false ->
  try_load fetch lang w =
  (set_content doc (emit (Fetch (content_url lang)) w), Some SetItemThrew).
Proof. unfold try_load. intros -> S. simpl. now rewrite S. Qed.

Lemma failed_false lang :
  failed fetch lang = false ->
  exists doc, fetch (content_url lang) = Response true (Some doc).
Proof.
  unfold failed.
  destruct (fetch (content_url lang)) as [|[|] [doc|]]; try discriminate; eauto.
Qed.

(** A load that succeeds at once. *)
Lemma loadContent_ok lang w doc :
  fetch (content_url lang) = Response true (Some doc) ->
  setItem_ok w lang = true ->
  loadContent fetch lang w =
  emit (SetItem "gerard-lang" lang)
    (set_gerard_lang lang (set_content doc (emit (Fetch (content_url lang)) w))).
Proof.
  intros H S. rewrite loadContent_eq, (try_load_ok _ _ _ H S). reflexivity.
Qed.

(** A load that fails: the error is logged, and any language but ["es"]
    goes on to load ["es"]. *)
Lemma loadContent_failed lang w :
  failed fetch lang = true ->
  exists error,
    loadContent fetch lang w =
    let w1 := emit (ConsoleError error) (emit (Fetch (content_url lang)) w) in
    if lang =? "es" then w1 else loadContent fetch "es" w1.
Proof.
  intros H. destruct (try_load_failed lang w H) as [error E].
  exists error. rewrite loadContent_eq, E. reflexivity.
Qed.

(** A load whose document arrives but whose preference cannot be stored:
    the document is held, the error is logged, and any language but ["es"]
    goes on to load ["es"]. *)
Lemma loadContent_threw lang w doc :
  fetch (content_url lang) = Response true (Some doc) ->
  setItem_ok w lang = false ->
  loadContent fetch lang w =
  let w1 := emit (ConsoleError SetItemThrew)
              (set_content doc (emit (Fetch (content_url lang)) w)) in
  if lang =? "es" then w1 else loadContent fetch "es" w1.
Proof.
  intros H S. rewrite loadContent_eq, (try_load_threw _ _ _ H S). reflexivity.
Qed.

(** The three ways a load of [lang] from [w1] can go, [w1] having the
    store of [w]. *)
Ltac load_cases_in lang w1 w Sw :=
  let F := fresh "F" in
  let e := fresh "e" in
  let doc := fresh "doc" in
  let D := fresh "D" in
  let S := fresh "S" in
  destruct (failed fetch lang) eqn:F;
  [ destruct (loadContent_failed lang w1 F) as [e ->]
  | destruct (failed_false _ F) as [doc D];
    destruct (setItem_ok w lang) eqn:S;
    [ rewrite (loadContent_ok lang w1 doc D) by (first [exact S | rewrite Sw; exact S])
    | rewrite (loadContent_threw lang w1 doc D) by (first [exact S | rewrite Sw; exact S]) ] ];
  cbv zeta.

Ltac load_cases lang w := load_cases_in lang w w (@eq_refl _ (setItem_ok w)).

(** What a load leaves alone, and how it extends the logs, in terms of one
    more load of ["es"]. *)
Lemma loadContent_frame lang w :
  document (loadContent fetch lang w) = document w /\
  currentLang (loadContent fetch lang w) = currentLang w /\
  window (loadContent fetch lang w) = window w /\
  click_wired (loadContent fetch lang w) = click_wired w /\
  setItem_ok (loadContent fetch lang w) = setItem_ok w /\
  html_parser (loadContent fetch lang w) = html_parser w /\
  text_writes (trace (loadContent fetch lang w)) = text_writes (trace w) /\
  markup_writes (trace (loadContent fetch lang w)) = markup_writes (trace w).
Proof.
  assert (Hes : forall w,
    document (loadContent fetch "es" w) = document w /\
    currentLang (loadContent fetch "es" w) = currentLang w /\
    window (loadContent fetch "es" w) = window w /\
    click_wired (loadContent fetch "es" w) = click_wired w /\
    setItem_ok (loadContent fetch "es" w) = setItem_ok w /\
    html_parser (loadContent fetch "es" w) = html_parser w /\
    text_writes (trace (loadContent fetch "es" w)) = text_writes (trace w) /\
    markup_writes (trace (loadContent fetch "es" w)) = markup_writes (trace w)).
  { intros w0. load_cases "es" w0; simpl;
      rewrite ?text_writes_app, ?markup_writes_app; simpl;
      rewrite ?app_nil_r; auto 10. }
  load_cases lang w.
  - destruct (lang =? "es").
    + simpl. rewrite ?text_writes_app, ?markup_writes_app. simpl.
      rewrite ?app_nil_r. auto 10.
    + destruct (Hes (emit (ConsoleError e) (emit (Fetch (content_url lang)) w)))
        as (-> & -> & -> & -> & -> & -> & -> & ->). simpl.
      rewrite ?text_writes_app, ?markup_writes_app. simpl.
      rewrite ?app_nil_r. auto 10.
  - simpl. rewrite ?text_writes_app, ?markup_writes_app. simpl.
    rewrite ?app_nil_r. auto 10.
  - destruct (lang =? "es").
    + simpl. rewrite ?text_writes_app, ?markup_writes_app. simpl.
      rewrite ?app_nil_r. auto 10.
    + destruct (Hes (emit (ConsoleError SetItemThrew)
                       (set_content doc (emit (Fetch (content_url lang)) w))))
        as (-> & -> & -> & -> & -> & -> & -> & ->). simpl.
      rewrite ?text_writes_app, ?markup_writes_app. simpl.
      rewrite ?app_nil_r. auto 10.
Qed.

(** C5. A failing load of a language other than ["es"] is followed by
    exactly one load of ["es"]; a failing load of ["es"] is followed by no
    load at all. *)
Theorem loadContent_fallback_once lang w :
  failed fetch lang = true ->
  fetches (trace (loadContent fetch lang w)) =
  (fetches (trace w) ++
   (if lang =? "es" then [content_url "es"]
    else [content_url lang; content_url "es"]))%list.
Proof.
  intros F. destruct (loadContent_failed lang w F) as [e ->]. cbv zeta.
  destruct (lang =? "es") eqn:E.
  - apply String.eqb_eq in E. subst lang. simpl.
    rewrite !fetches_app. simpl. now rewrite app_nil_r.
  - remember (emit (ConsoleError e) (emit (Fetch (content_url lang)) w)) as w1 eqn:W1.
    load_cases "es" w1; subst w1; simpl;
      rewrite !fetches_app; simpl; rewrite <- !app_assoc; reflexivity.
Qed.

(** Every load fetches the requested document first, and then the Spanish
    one exactly when the first attempt failed and was not itself for
    ["es"]. *)
Lemma loadContent_fetches lang w :
  fetches (trace (loadContent fetch lang w)) =
  (fetches (trace w) ++
   content_url lang ::
   (if attempt_fails fetch w lang && negb (lang =? "es")
    then [content_url "es"] else []))%list.
Proof.
  unfold attempt_fails.
  load_cases lang w; cbn [orb negb andb].
  - destruct (lang =? "es") eqn:E; simpl.
    + rewrite !fetches_app. simpl. now rewrite app_nil_r.
    + remember (emit (ConsoleError e) (emit (Fetch (content_url lang)) w))
        as w1 eqn:W1.
      load_cases "es" w1; subst w1; simpl;
        rewrite !fetches_app; simpl; rewrite <- !app_assoc; reflexivity.
  - simpl. rewrite !fetches_app. simpl. rewrite <- !app_assoc. reflexivity.
  - destruct (lang =? "es") eqn:E; simpl.
    + rewrite !fetches_app. simpl. now rewrite app_nil_r.
    + remember (emit (ConsoleError SetItemThrew)
                  (set_content doc (emit (Fetch (content_url lang)) w)))
        as w1 eqn:W1.
      load_cases "es" w1; subst w1; simpl;
        rewrite !fetches_app; simpl; rewrite <- !app_assoc; reflexivity.
Qed.

(** What a load stores, and what it holds afterwards when an attempt of
    it got through. *)
Lemma loadContent_store lang w :
  let ok := negb (attempt_fails fetch w lang) in
  let fallback := negb ok && negb (lang =? "es")
                  && negb (attempt_fails fetch w "es") in
  gerard_lang (loadContent fetch lang w) =
  (if ok then Some lang else if fallback then Some "es" else gerard_lang w) /\
  storage_writes (trace (loadContent fetch lang w)) =
  (storage_writes (trace w) ++
   (if ok then [("gerard-lang", lang)]
    else if fallback then [("gerard-lang", "es")] else []))%list.
Proof.
  unfold attempt_fails.
  load_cases lang w; cbn [orb negb andb].
  - destruct (lang =? "es") eqn:E; cbn [negb andb].
    + simpl. rewrite !storage_writes_app. simpl. now rewrite !app_nil_r.
    + remember (emit (ConsoleError e) (emit (Fetch (content_url lang)) w))
        as w1 eqn:W1.
      assert (Sw : setItem_ok w1 = setItem_ok w) by (subst w1; reflexivity).
      load_cases_in "es" w1 w Sw; subst w1; simpl;
        rewrite !storage_writes_app; simpl; now rewrite ?app_nil_r.
  - simpl. rewrite !storage_writes_app. simpl. now rewrite !app_nil_r.
  - destruct (lang =? "es") eqn:E; cbn [negb andb].
    + simpl. rewrite !storage_writes_app. simpl. now rewrite !app_nil_r.
    + remember (emit (ConsoleError SetItemThrew)
                  (set_content doc (emit (Fetch (content_url lang)) w)))
        as w1 eqn:W1.
      assert (Sw : setItem_ok w1 = setItem_ok w) by (subst w1; reflexivity).
      load_cases_in "es" w1 w Sw; subst w1; simpl;
        rewrite !storage_writes_app; simpl; now rewrite ?app_nil_r.
Qed.

(** C7, as the script has it.  A load of [lang] that succeeds stores
    [lang] as the preference when the store accepts the write.  An attempt
    that fails, because the fetch or the parse fails or because the store
    throws, writes nothing to the store; whatever is written during that
    load is the fallback's ["es"]. *)
Theorem loadContent_stored_preference lang w :
  (failed fetch lang = false -> setItem_ok w lang = true ->
   gerard_lang (loadContent fetch lang w) = Some lang /\
   storage_writes (trace (loadContent fetch lang w)) =
   (storage_writes (trace w) ++ [("gerard-lang", lang)])%list) /\
  (attempt_fails fetch w lang = true ->
   gerard_lang (fst (try_load fetch lang w)) = gerard_lang w /\
   storage_writes (trace (fst (try_load fetch lang w))) =
   storage_writes (trace w)) /\
  (attempt_fails fetch w lang = true ->
   let fallback := negb (lang =? "es") && negb (attempt_fails fetch w "es") in
   gerard_lang (loadContent fetch lang w) =
   (if fallback then Some "es" else gerard_lang w) /\
   storage_writes (trace (loadContent fetch lang w)) =
   (storage_writes (trace w) ++
    (if fallback then [("gerard-lang", "es")] else []))%list).
Proof.
  split; [| split].
  - intros F S. pose proof (loadContent_store lang w) as H. cbv zeta in H.
    assert (A : attempt_fails fetch w lang = false)
      by (unfold attempt_fails; now rewrite F, S).
    rewrite A in H. exact H.
  - unfold attempt_fails. intros A. destruct (failed fetch lang) eqn:F.
    + destruct (try_load_failed lang w F) as [e ->]. simpl.
      split; [reflexivity |]. rewrite storage_writes_app. simpl.
      now rewrite app_nil_r.
    + destruct (failed_false _ F) as [doc D]. simpl in A.
      apply negb_true_iff in A. rewrite (try_load_threw _ _ _ D A). simpl.
      split; [reflexivity |]. rewrite storage_writes_app. simpl.
      now rewrite app_nil_r.
  - intros A. pose proof (loadContent_store lang w) as H. cbv zeta in H |- *.
    rewrite A in H. exact H.
Qed.

(** When the requested load and the fallback both fail, [content] is not
    assigned. *)
Lemma loadContent_double_failure lang w :
  failed fetch lang = true -> failed fetch "es" = true ->
  content (loadContent fetch lang w) = content w.
Proof.
  intros F Fes. destruct (loadContent_failed lang w F) as [e ->]. cbv zeta.
  destruct (lang =? "es"); [reflexivity |].
  destruct (loadContent_failed "es"
              (emit (ConsoleError e) (emit (Fetch (content_url lang)) w)) Fes)
    as [e' ->].
  reflexivity.
Qed.

(** C3, as the script has it.  When the load of a language other than
    ["es"] fails and the fallback load of ["es"] fails too, [content] is
    left as it was and the page is not touched by the load; content that was
    unset stays unset, and the render that follows changes nothing. *)
Theorem double_failure_leaves_content_unset lang w :
  lang <> "es" ->
  failed fetch lang = true ->
  failed fetch "es" = true ->
  content (loadContent fetch lang w) = content w /\
  document (loadContent fetch lang w) = document w /\
  (content w = JNull ->
   content (loadContent fetch lang w) = JNull /\
   render (loadContent fetch lang w) = Ok tt (loadContent fetch lang w)).
Proof.
  intros _ F Fes.
  pose proof (loadContent_double_failure lang w F Fes) as C.
  split; [exact C |]. split; [apply loadContent_frame |].
  intros U. rewrite U in C. split; [exact C |].
  unfold render, bind, this_content, read. now rewrite C.
Qed.

(** C9. Switching to the language that is already current returns at once:
    nothing is fetched, and the current language, the content, the stored
    preference and the page stay as they are. *)
Theorem switchLanguage_same_noop lang w :
  lang = currentLang w ->
  switchLanguage fetch lang w = Ok tt w.
Proof.
  intros ->. unfold switchLanguage. now rewrite String.eqb_refl.
Qed.

End LoaderFacts.

(** C8. With [content] unset a render pass returns at once: no element and
    no piece of document metadata changes. *)
Theorem render_unset_noop (w : World) :
  content w = JNull ->
  render w = Ok tt w.
Proof.
  intros U. unfold render, bind, this_content, read. now rewrite U.
Qed.

Lemma render_unset_noop_witness :
  render Sample.world0 = Ok tt Sample.world0.
Proof. apply (render_unset_noop Sample.world0). reflexivity. Defined.

Lemma switchLanguage_same_noop_witness :
  switchLanguage Sample.both "es" Sample.world0 = Ok tt Sample.world0.
Proof. apply (switchLanguage_same_noop Sample.both "es" Sample.world0). reflexivity. Defined.

Lemma loadContent_fallback_once_witness :
  fetches (trace (loadContent Sample.down "en" Sample.world0)) =
  ["/content/content-en.json"; "/content/content-es.json"].
Proof.
  apply (loadContent_fallback_once Sample.down "en" Sample.world0). reflexivity.
Defined.

Lemma loadContent_stored_preference_witness :
  gerard_lang (loadContent Sample.both "en" Sample.world0) = Some "en".
Proof.
  apply (proj1 (loadContent_stored_preference Sample.both "en" Sample.world0));
    reflexivity.
Defined.

(** C7, as the claim has it, fails.  In a browser whose store throws, the
    English document arrives and parses, yet no preference is stored: the
    [setItem] call sits inside the [try] block, so the load counts as failed
    and goes on to the Spanish document, which replaces the English one. *)
Lemma load_succeeds_store_throws :
  Sample.both (content_url "en") = Response true (Some (Sample.full "en")) /\
  gerard_lang (loadContent Sample.both "en" Sample.world_no_storage) = None /\
  storage_writes (trace (loadContent Sample.both "en" Sample.world_no_storage)) = [] /\
  fetches (trace (loadContent Sample.both "en" Sample.world_no_storage)) =
  ["/content/content-en.json"; "/content/content-es.json"] /\
  content (loadContent Sample.both "en" Sample.world_no_storage) = Sample.full "es".
Proof.
  split; [reflexivity |].
  rewrite (loadContent_threw Sample.both "en" Sample.world_no_storage
             (Sample.full "en") eq_refl eq_refl).
  cbv zeta. cbn [String.eqb Ascii.eqb Bool.eqb].
  erewrite (loadContent_threw Sample.both "es"); [| reflexivity | reflexivity].
  repeat split.
Qed.

Lemma double_failure_leaves_content_unset_witness :
  render (loadContent Sample.down "en" Sample.world0) =
  Ok tt (loadContent Sample.down "en" Sample.world0).
Proof.
  apply (double_failure_leaves_content_unset Sample.down "en" Sample.world0);
    [discriminate | reflexivity | reflexivity | reflexivity].
Defined.

(** ** What rendering can change *)

Lemma renders_refl w : renders w w.
Proof.
  unfold renders. repeat split. exists []. split; [now rewrite app_nil_r | constructor].
Qed.

Lemma renders_trans w1 w2 w3 : renders w1 w2 -> renders w2 w3 -> renders w1 w3.
Proof.
  unfold renders.
  intros (A1 & B1 & C1 & D1 & E1 & F1 & G1 & t1 & T1 & H1)
         (A2 & B2 & C2 & D2 & E2 & F2 & G2 & t2 & T2 & H2).
  repeat split; try congruence.
  exists (t1 ++ t2)%list. split.
  - now rewrite T2, T1, app_assoc.
  - apply Forall_app. now split.
Qed.

Section Keeps.

Context {A B : Type}.

Lemma keeps_ret (a : A) : keeps (ret a).
Proof. intros w. apply renders_refl. Qed.

Lemma keeps_throw : keeps (@throw A).
Proof. intros w. apply renders_refl. Qed.

Lemma keeps_read (f : World -> A) : keeps (read f).
Proof. intros w. apply renders_refl. Qed.

Lemma keeps_bind (m : JS A) (k : A -> JS B) :
  keeps m -> (forall a, keeps (k a)) -> keeps (bind m k).
Proof.
  intros Hm Hk w. unfold bind. specialize (Hm w).
  destruct (m w) as [a w1 | w1]; simpl in *; [| exact Hm].
  eapply renders_trans; [exact Hm | apply Hk].
Qed.

End Keeps.

Lemma keeps_string_of s : keeps (string_of s).
Proof. destruct s; [apply keeps_ret | apply keeps_throw]. Qed.

Lemma keeps_member o k : keeps (member o k).
Proof.
  destruct o as [[| | | | |]|]; simpl;
    first [apply keeps_ret | apply keeps_throw].
Qed.

Lemma keeps_each f l : (forall x i, keeps (f x i)) -> forall i, keeps (each f l i).
Proof.
  intros Hf. induction l as [|x rest IH]; intros i; simpl.
  - apply keeps_ret.
  - apply keeps_bind; [apply Hf | intros _; apply IH].
Qed.

Lemma keeps_forEach a f : (forall x i, keeps (f x i)) -> keeps (forEach a f).
Proof.
  intros Hf. destruct a as [[| | | | l |]|]; simpl;
    first [apply keeps_throw | now apply keeps_each].
Qed.

Lemma keeps_li_markup items : keeps (li_markup items).
Proof.
  destruct items as [[| | | | l |]|]; simpl; try apply keeps_throw.
  apply keeps_bind; [apply keeps_string_of | intros; apply keeps_ret].
Qed.

Lemma keeps_on_document f : keeps (on_document f).
Proof.
  intros w. unfold renders. simpl. repeat split.
  exists []. split; [now rewrite app_nil_r | constructor].
Qed.

Lemma keeps_emit e : binding_write e -> keeps (modify (emit e)).
Proof.
  intros H w. unfold renders. simpl. repeat split.
  exists [e]. split; [reflexivity | now constructor].
Qed.

(** Decompose a pass into its calls and discharge each by the lemma of the
    operation called. *)
Ltac keeps_step :=
  match goal with
  | |- keeps (bind _ _) => apply keeps_bind; [| intro]
  | |- keeps (if ?b then _ else _) => destruct b
  | |- keeps (match ?x with Some _ => _ | None => _ end) => destruct x
  | |- keeps (forEach _ _) => apply keeps_forEach; intros ? ?
  | |- keeps (member _ _) => apply keeps_member
  | |- keeps (string_of _) => apply keeps_string_of
  | |- keeps this_content => apply keeps_read
  | |- keeps (exists_el _) => apply keeps_read
  | |- keeps (read _) => apply keeps_read
  | |- keeps (ret _) => apply keeps_ret
  | |- keeps throw => apply keeps_throw
  | |- keeps (li_markup _) => apply keeps_li_markup
  | |- keeps (on_document _) => apply keeps_on_document
  | |- keeps (modify (emit _)) => apply keeps_emit; simpl; tauto
  end.

Ltac keeps_pass := repeat keeps_step.

Lemma keeps_set_textContent key v : keeps (set_textContent key v).
Proof. unfold set_textContent. keeps_pass. Qed.

Lemma keeps_setText key v : keeps (setText key v).
Proof. unfold setText. keeps_pass. apply keeps_set_textContent. Qed.

Lemma keeps_set_innerHTML key v : In key raw_keys -> keeps (set_innerHTML key v).
Proof. intros R. unfold set_innerHTML. keeps_pass. Qed.

Lemma keeps_setHTML key v : In key raw_keys -> keeps (setHTML key v).
Proof. intros R. unfold setHTML. keeps_pass. now apply keeps_set_innerHTML. Qed.

Lemma keeps_set_meta name meta k : keeps (set_meta name meta k).
Proof. unfold set_meta. keeps_pass. Qed.

Lemma keeps_set_root_lang v : keeps (set_root_lang v).
Proof. unfold set_root_lang. keeps_pass. Qed.

Ltac keeps_call :=
  match goal with
  | |- keeps (setText _ _) => apply keeps_setText
  | |- keeps (set_textContent _ _) => apply keeps_set_textContent
  | |- keeps (setHTML _ _) => apply keeps_setHTML; simpl; tauto
  | |- keeps (set_innerHTML _ _) => apply keeps_set_innerHTML; simpl; tauto
  | |- keeps (set_meta _ _ _) => apply keeps_set_meta
  | |- keeps (set_root_lang _) => apply keeps_set_root_lang
  | _ => keeps_step
  end.

Ltac keeps_calls := repeat keeps_call.

Lemma keeps_renderMeta : keeps renderMeta.
Proof. unfold renderMeta. keeps_calls. Qed.

Lemma keeps_renderNav : keeps renderNav.
Proof. unfold renderNav. keeps_calls. Qed.

Lemma keeps_renderHero : keeps renderHero.
Proof. unfold renderHero. keeps_calls. Qed.

Lemma keeps_renderBenefits : keeps renderBenefits.
Proof. unfold renderBenefits. keeps_calls. Qed.

Lemma keeps_renderDifferential : keeps renderDifferential.
Proof. unfold renderDifferential. keeps_calls. Qed.

Lemma keeps_renderHowItWorks : keeps renderHowItWorks.
Proof. unfold renderHowItWorks. keeps_calls. Qed.

Lemma keeps_renderEngine : keeps renderEngine.
Proof. unfold renderEngine. keeps_calls. Qed.

Lemma keeps_renderFeatures : keeps renderFeatures.
Proof. unfold renderFeatures. keeps_calls. Qed.

Lemma keeps_renderTestimonials : keeps renderTestimonials.
Proof. unfold renderTestimonials. keeps_calls. Qed.

Lemma keeps_renderBeforeAfter : keeps renderBeforeAfter.
Proof. unfold renderBeforeAfter. keeps_calls. Qed.

Lemma keeps_renderUseCases : keeps renderUseCases.
Proof. unfold renderUseCases. keeps_calls. Qed.

Lemma keeps_renderFAQ : keeps renderFAQ.
Proof. unfold renderFAQ. keeps_calls. Qed.

Lemma keeps_renderFinalCTA : keeps renderFinalCTA.
Proof. unfold renderFinalCTA. keeps_calls. Qed.

Lemma keeps_renderFooter : keeps renderFooter.
Proof. unfold renderFooter. keeps_calls. Qed.

#[local] Hint Resolve keeps_renderMeta keeps_renderNav keeps_renderHero
  keeps_renderBenefits keeps_renderDifferential keeps_renderHowItWorks
  keeps_renderEngine keeps_renderFeatures keeps_renderTestimonials
  keeps_renderBeforeAfter keeps_renderUseCases keeps_renderFAQ
  keeps_renderFinalCTA keeps_renderFooter : core.

Lemma keeps_render : keeps render.
Proof. unfold render. repeat (keeps_step; auto). Qed.

(** ** Absent sections *)

Lemma bind_ext_content {A B} (m : JS A) (k1 k2 : A -> JS B) w :
  keeps m ->
  (forall a w', content w' = content w -> k1 a w' = k2 a w') ->
  bind m k1 w = bind m k2 w.
Proof.
  intros Hm Hk. unfold bind. specialize (Hm w).
  destruct (m w) as [a w1 | w1]; simpl in Hm; [| reflexivity].
  apply Hk. apply Hm.
Qed.

Lemma renderEngine_absent w fields sections :
  content w = JObj fields ->
  lookup "sections" fields = Some (JObj sections) ->
  lookup "engine" sections = None ->
  renderEngine w = Ok tt w.
Proof.
  intros C S E. unfold renderEngine, bind, this_content, read.
  rewrite C. simpl. rewrite S. simpl. rewrite E. reflexivity.
Qed.

(** C2, as the claim has it, fails.  Without [sections.benefits] the
    benefits pass throws, the render is abandoned there, and the FAQ and
    footer locations keep their template content. *)
Lemma render_without_benefits_throws :
  returned (renderBenefits (set_content Sample.without_benefits Sample.world0))
  = false /\
  returned (render (set_content Sample.without_benefits Sample.world0))
  = false /\
  querySelector (matches "faq.title")
    (document (world_of (render (set_content Sample.without_benefits
                                   Sample.world0)))) =
  Some (Sample.slot "faq.title") /\
  querySelector (matches "footer.tagline")
    (document (world_of (render (set_content Sample.without_benefits
                                   Sample.world0)))) =
  Some (Sample.slot "footer.tagline").
Proof. repeat split; reflexivity. Qed.

(** C2, as the script has it.  When the content document has no
    [sections.engine], the engine pass returns at once without throwing and
    leaves the world as it is, and the render pass is the sequence of the
    thirteen other passes (only the engine pass has such a guard). *)
Theorem renderEngine_absent_noop w fields sections :
  content w = JObj fields ->
  lookup "sections" fields = Some (JObj sections) ->
  lookup "engine" sections = None ->
  renderEngine w = Ok tt w /\
  render w =
  (renderMeta ;; renderNav ;; renderHero ;; renderBenefits ;;
   renderDifferential ;; renderHowItWorks ;; renderFeatures ;;
   renderTestimonials ;; renderBeforeAfter ;; renderUseCases ;; renderFAQ ;;
   renderFinalCTA ;; renderFooter) w.
Proof.
  intros C S E. split; [eapply renderEngine_absent; eassumption |].
  unfold render. unfold bind at 1. unfold this_content, read.
  rewrite C. simpl negb. cbv iota.
  apply bind_ext_content; [apply keeps_renderMeta | intros _ w1 C1].
  apply bind_ext_content; [apply keeps_renderNav | intros _ w2 C2].
  apply bind_ext_content; [apply keeps_renderHero | intros _ w3 C3].
  apply bind_ext_content; [apply keeps_renderBenefits | intros _ w4 C4].
  apply bind_ext_content; [apply keeps_renderDifferential | intros _ w5 C5].
  apply bind_ext_content; [apply keeps_renderHowItWorks | intros _ w6 C6].
  unfold bind at 1.
  rewrite (renderEngine_absent w6 fields sections); [reflexivity | congruence | assumption | assumption].
Qed.

Lemma renderEngine_absent_noop_witness :
  renderEngine (set_content Sample.without_engine Sample.world0) =
  Ok tt (set_content Sample.without_engine Sample.world0).
Proof.
  eapply (renderEngine_absent_noop
            (set_content Sample.without_engine Sample.world0));
    reflexivity.
Defined.

(** ** Values with a string conversion *)

Lemma json_nested_ind (P : json -> Prop) :
  P JNull -> (forall b, P (JBool b)) -> (forall r, P (JNum r)) ->
  (forall s, P (JStr s)) ->
  (forall l, Forall P l -> P (JArr l)) ->
  (forall fields, Forall (fun kv => P (snd kv)) fields -> P (JObj fields)) ->
  forall j, P j.
Proof.
  intros H1 H2 H3 H4 H5 H6. fix IH 1.
  intros [| b | r | s | l | fields];
    [exact H1 | apply H2 | apply H3 | apply H4 | |].
  - apply H5. induction l as [|x l IHl]; constructor; [apply IH | exact IHl].
  - apply H6. induction fields as [|[k v] fields IHf]; constructor;
      [apply IH | exact IHf].
Qed.

Lemma ToString_JArr_cons x rest :
  ToString_json (JArr (x :: rest)) =
  match (match x with JNull => Some "" | _ => ToString_json x end) with
  | None => None
  | Some sx =>
      match rest with
      | [] => Some sx
      | _ :: _ =>
          match ToString_json (JArr rest) with
          | Some sr => Some (sx ++ "," ++ sr)
          | None => None
          end
      end
  end.
Proof. reflexivity. Qed.

Lemma plain_ToString_json j :
  plain_json j = true -> exists s, ToString_json j = Some s.
Proof.
  induction j as [| b | r | s | l IH | fields IH] using json_nested_ind; intros H;
    try (simpl; eauto; fail).
  - destruct b; simpl; eauto.
  - simpl in H. induction l as [|x l IHl]; [simpl; eauto |].
    simpl in H. apply andb_true_iff in H. destruct H as [Hx Hl].
    inversion IH as [|? ? Px Pl]; subst.
    destruct (IHl Pl Hl) as [sr Er]. destruct (Px Hx) as [sx Ex].
    rewrite ToString_JArr_cons, Er.
    assert (E : exists s0, match x with JNull => Some "" | _ => ToString_json x end = Some s0)
      by (destruct x; eauto).
    destruct E as [s0 ->]. destruct l; eauto.
  - simpl in H |- *. apply andb_true_iff in H. destruct H as [H _].
    destruct (lookup "toString" fields); [discriminate | eauto].
Qed.

Lemma plain_ToString v : plain v = true -> exists s, ToString v = Some s.
Proof. destruct v as [j|]; [apply plain_ToString_json | simpl; eauto]. Qed.

Lemma plain_textContent v : plain v = true -> exists s, textContent_of v = Some s.
Proof.
  destruct v as [j|]; [| simpl; eauto]. intros H.
  destruct (plain_ToString_json j H) as [s E]. destruct j; simpl in *; eauto.
Qed.

Lemma plain_innerHTML v : plain v = true -> exists s, innerHTML_of v = Some s.
Proof.
  destruct v as [j|]; [| simpl; eauto]. intros H.
  destruct (plain_ToString_json j H) as [s E]. destruct j; simpl in *; eauto.
Qed.

Lemma plain_lookup k fields :
  forallb (fun kv => plain_json (snd kv)) fields = true ->
  plain (lookup k fields) = true.
Proof.
  induction fields as [|[k' v] fields IH]; simpl; [reflexivity |].
  intros H. apply andb_true_iff in H. destruct H as [Hv Hr].
  destruct (k' =? k); [exact Hv | auto].
Qed.

Lemma plain_get o k : plain o = true -> plain (get o k) = true.
Proof.
  destruct o as [[| | | | | fields]|]; simpl; try reflexivity.
  intros H. apply andb_true_iff in H. destruct H as [_ H]. now apply plain_lookup.
Qed.

Lemma plain_entry l x : plain (Some (JArr l)) = true -> In x l -> plain (Some x) = true.
Proof. simpl. rewrite forallb_forall. auto. Qed.

Lemma plain_li l : plain (Some (JArr l)) = true -> exists ss, li_strings l = Some ss.
Proof.
  simpl. induction l as [|x l IH]; simpl; [eauto |].
  intros H. apply andb_true_iff in H. destruct H as [Hx Hl].
  destruct (plain_ToString_json x Hx) as [s ->]. destruct (IH Hl) as [ss ->]. eauto.
Qed.

(** ** Complete documents *)

Section Runs.

Variable c : json.

Lemma runs_ret {A} (a : A) (Q : A -> Prop) : Q a -> runs_to c (ret a) Q.
Proof. intros H w C R. exists a, w. auto. Qed.

Lemma runs_seq {A B} (m : JS A) (k : JS B) Q :
  runs_to c m (fun _ => True) -> runs_to c k Q ->
  runs_to c (bind m (fun _ => k)) Q.
Proof.
  intros Hm Hk w C R. destruct (Hm w C R) as (a & w1 & E & C1 & R1 & _).
  unfold bind. rewrite E. now apply Hk.
Qed.

Lemma runs_bind_member {B} o k (K : value -> JS B) Q :
  readable o = true -> runs_to c (K (get o k)) Q ->
  runs_to c (bind (member o k) K) Q.
Proof.
  intros Ro H w C R. unfold bind.
  destruct o as [[| | | | |]|]; try discriminate; simpl; now apply H.
Qed.

Lemma runs_bind_content {B} (K : value -> JS B) Q :
  runs_to c (K (Some c)) Q -> runs_to c (bind this_content K) Q.
Proof.
  intros H w C R. unfold bind, this_content, read. rewrite C. now apply H.
Qed.

Lemma runs_bind_read {A B} (f : World -> A) (K : A -> JS B) Q :
  (forall a, runs_to c (K a) Q) -> runs_to c (bind (read f) K) Q.
Proof. intros H w C R. unfold bind, read. now apply H. Qed.

Lemma runs_bind_exists_el {B} key (K : bool -> JS B) Q :
  (forall b, runs_to c (K b) Q) -> runs_to c (bind (exists_el key) K) Q.
Proof. intros H. unfold exists_el. now apply runs_bind_read. Qed.

Lemma runs_bind_string_of {B} o (K : string -> JS B) Q :
  (exists s, o = Some s) -> (forall s, runs_to c (K s) Q) ->
  runs_to c (bind (string_of o) K) Q.
Proof. intros [s ->] H w C R. unfold bind. simpl. now apply H. Qed.

Lemma runs_bind_li {B} items (K : value -> JS B) Q :
  is_array items = true -> plain items = true -> (forall v, plain v = true -> runs_to c (K v) Q) ->
  runs_to c (bind (li_markup items) K) Q.
Proof.
  intros A P H w C R. unfold bind.
  destruct items as [[| | | | l |]|]; try discriminate.
  destruct (plain_li l P) as [ss E]. simpl. unfold bind. rewrite E. simpl.
  now apply H.
Qed.

Lemma runs_on_document f :
  (forall d, isSome (documentElement (f d)) = isSome (documentElement d)) ->
  runs_to c (on_document f) (fun _ => True).
Proof.
  intros H w C R. eexists tt, _. split; [reflexivity |]. simpl. rewrite H. auto.
Qed.

Lemma runs_emit e : runs_to c (modify (emit e)) (fun _ => True).
Proof. intros w C R. eexists tt, _. split; [reflexivity |]. simpl. auto. Qed.

Lemma runs_set_textContent key v :
  plain v = true -> runs_to c (set_textContent key v) (fun _ => True).
Proof.
  intros P. unfold set_textContent.
  apply runs_bind_string_of; [now apply plain_textContent | intros s].
  apply runs_seq; [| apply runs_emit].
  apply runs_on_document. intros d. apply update_root, with_children_is_element.
Qed.

Lemma runs_set_innerHTML key v :
  plain v = true -> runs_to c (set_innerHTML key v) (fun _ => True).
Proof.
  intros P. unfold set_innerHTML.
  apply runs_bind_string_of; [now apply plain_innerHTML | intros s].
  apply runs_bind_read. intros parse.
  apply runs_seq; [| apply runs_emit].
  apply runs_on_document. intros d. apply update_root.
  intros e. apply with_children_is_element.
Qed.

Lemma runs_setText key v : plain v = true -> runs_to c (setText key v) (fun _ => True).
Proof.
  intros P. unfold setText. apply runs_bind_exists_el. intros [|].
  - now apply runs_set_textContent.
  - now apply runs_ret.
Qed.

Lemma runs_setHTML key v : plain v = true -> runs_to c (setHTML key v) (fun _ => True).
Proof.
  intros P. unfold setHTML. apply runs_bind_exists_el. intros [|].
  - now apply runs_set_innerHTML.
  - now apply runs_ret.
Qed.

Lemma runs_set_meta name meta k :
  readable meta = true -> plain meta = true ->
  runs_to c (set_meta name meta k) (fun _ => True).
Proof.
  intros Rm P. unfold set_meta. apply runs_bind_read. intros [tag|].
  - apply runs_bind_member; [exact Rm |].
    apply runs_bind_string_of; [apply plain_ToString; now apply plain_get | intros s].
    apply runs_on_document. intros d. apply update_root, with_attribute_is_element.
  - now apply runs_ret.
Qed.

Lemma runs_set_root_lang v :
  plain v = true -> runs_to c (set_root_lang v) (fun _ => True).
Proof.
  intros P w C R. unfold set_root_lang, bind, read.
  destruct (documentElement (document w)) as [root|] eqn:E; [| discriminate].
  destruct (plain_ToString v P) as [s ->]. simpl.
  eexists tt, _. split; [reflexivity |]. simpl. now rewrite set_lang_root, E.
Qed.

Lemma runs_each f l :
  (forall x i, In x l -> runs_to c (f (Some x) i) (fun _ => True)) ->
  forall i, runs_to c (each f l i) (fun _ => True).
Proof.
  induction l as [|x rest IH]; intros Hf i; simpl.
  - now apply runs_ret.
  - apply runs_seq; [apply Hf; now left |].
    apply IH. intros y j Hy. apply Hf. now right.
Qed.

(** Iterating an array of entries that are not [null]. *)
Lemma runs_forEach a f :
  list_of a = true -> plain a = true ->
  (forall x i, readable x = true -> plain x = true ->
               runs_to c (f x i) (fun _ => True)) ->
  runs_to c (forEach a f) (fun _ => True).
Proof.
  intros L P Hf. destruct a as [[| | | | l |]|]; try discriminate. simpl in L.
  apply runs_each. intros x i Hx. apply Hf.
  - rewrite forallb_forall in L. now apply L.
  - now apply (plain_entry l).
Qed.

(** Iterating an array whose entries are not read into. *)
Lemma runs_forEach_any a f :
  is_array a = true -> plain a = true ->
  (forall x i, plain x = true -> runs_to c (f x i) (fun _ => True)) ->
  runs_to c (forEach a f) (fun _ => True).
Proof.
  intros L P Hf. destruct a as [[| | | | l |]|]; try discriminate.
  apply runs_each. intros x i Hx. apply Hf. now apply (plain_entry l).
Qed.

End Runs.

Lemma truthy_readable v : truthy v = true -> readable v = true.
Proof. destruct v as [[| | | | |]|]; simpl; auto. Qed.

(** A value read out of plain content is plain. *)
Ltac plainly := first [reflexivity | repeat apply plain_get; assumption].

Ltac runs_step :=
  match goal with
  | |- runs_to _ (bind this_content _) _ => apply runs_bind_content; cbv beta
  | |- runs_to _ (bind (member _ _) _) _ =>
      apply runs_bind_member; [assumption | cbv beta]
  | |- runs_to _ (bind (exists_el _) _) _ =>
      apply runs_bind_exists_el; intros [|]
  | |- runs_to _ (bind (string_of _) _) _ =>
      apply runs_bind_string_of; [apply plain_ToString; plainly | intro; cbv beta]
  | |- runs_to _ (bind (li_markup _) _) _ =>
      apply runs_bind_li; [assumption | plainly | intros ? ?; cbv beta]
  | |- runs_to _ (bind _ (fun _ => ?k)) _ => apply runs_seq
  | |- runs_to _ (forEach _ _) _ =>
      first [ apply runs_forEach; [assumption | plainly | intros ? ? ? ?]
            | apply runs_forEach_any; [assumption | plainly | intros ? ? ?] ]
  | |- runs_to _ (ret tt) _ => apply runs_ret; exact I
  | |- runs_to _ (setText _ _) _ => apply runs_setText; plainly
  | |- runs_to _ (setHTML _ _) _ => apply runs_setHTML; plainly
  | |- runs_to _ (set_textContent _ _) _ => apply runs_set_textContent; plainly
  | |- runs_to _ (set_innerHTML _ _) _ => apply runs_set_innerHTML; plainly
  | |- runs_to _ (set_meta _ _ _) _ => apply runs_set_meta; [assumption | plainly]
  | |- runs_to _ (set_root_lang _) _ => apply runs_set_root_lang; plainly
  | |- runs_to _ (on_document (set_title _)) _ =>
      apply runs_on_document; intro; apply set_title_root
  end.

Lemma readable_get o k : readable (get o k) = true -> readable o = true.
Proof. destruct o as [[| | | | |]|]; simpl; auto. Qed.

(** Split the conjuncts of [complete c] into hypotheses. *)
Ltac split_complete H :=
  unfold complete, listing in H;
  repeat match goal with
         | K : _ && _ = true |- _ =>
             apply andb_true_iff in K; destruct K
         end;
  match goal with
  | K : readable (get (Some _) "meta") = true |- _ =>
      pose proof (readable_get _ _ K)
  end.

Section CompleteDocument.

Variable c : json.
Hypothesis well : complete c = true.
Hypothesis printable : plain (Some c) = true.

Lemma runs_renderMeta : runs_to c renderMeta (fun _ => True).
Proof. split_complete well. unfold renderMeta. repeat runs_step. Qed.

Lemma runs_renderNav : runs_to c renderNav (fun _ => True).
Proof. split_complete well. unfold renderNav. repeat runs_step. Qed.

Lemma runs_renderHero : runs_to c renderHero (fun _ => True).
Proof. split_complete well. unfold renderHero. repeat runs_step. Qed.

Lemma runs_renderBenefits : runs_to c renderBenefits (fun _ => True).
Proof. split_complete well. unfold renderBenefits. repeat runs_step. Qed.

Lemma runs_renderDifferential : runs_to c renderDifferential (fun _ => True).
Proof. split_complete well. unfold renderDifferential. repeat runs_step. Qed.

Lemma runs_renderHowItWorks : runs_to c renderHowItWorks (fun _ => True).
Proof. split_complete well. unfold renderHowItWorks. repeat runs_step. Qed.

Lemma runs_renderEngine : runs_to c renderEngine (fun _ => True).
Proof.
  split_complete well. unfold renderEngine. do 3 runs_step.
  destruct (truthy (get (get (Some c) "sections") "engine")) eqn:T;
    cbn [negb]; cbv iota.
  - pose proof (truthy_readable _ T).
    match goal with K : negb true || _ = true |- _ => cbn [negb orb] in K end.
    repeat runs_step.
  - runs_step.
Qed.

Lemma runs_renderFeatures : runs_to c renderFeatures (fun _ => True).
Proof. split_complete well. unfold renderFeatures. repeat runs_step. Qed.

Lemma runs_renderTestimonials : runs_to c renderTestimonials (fun _ => True).
Proof. split_complete well. unfold renderTestimonials. repeat runs_step. Qed.

Lemma runs_renderBeforeAfter : runs_to c renderBeforeAfter (fun _ => True).
Proof. split_complete well. unfold renderBeforeAfter. repeat runs_step. Qed.

Lemma runs_renderUseCases : runs_to c renderUseCases (fun _ => True).
Proof. split_complete well. unfold renderUseCases. repeat runs_step. Qed.

Lemma runs_renderFAQ : runs_to c renderFAQ (fun _ => True).
Proof. split_complete well. unfold renderFAQ. repeat runs_step. Qed.

Lemma runs_renderFinalCTA : runs_to c renderFinalCTA (fun _ => True).
Proof. split_complete well. unfold renderFinalCTA. repeat runs_step. Qed.

Lemma runs_renderFooter : runs_to c renderFooter (fun _ => True).
Proof. split_complete well. unfold renderFooter. repeat runs_step. Qed.

Lemma runs_render : runs_to c render (fun _ => True).
Proof.
  unfold render. apply runs_bind_content. cbv beta.
  destruct (negb (truthy (Some c))); [apply runs_ret; exact I |].
  repeat (apply runs_seq;
          [first [ apply runs_renderMeta | apply runs_renderNav
                 | apply runs_renderHero | apply runs_renderBenefits
                 | apply runs_renderDifferential | apply runs_renderHowItWorks
                 | apply runs_renderEngine | apply runs_renderFeatures
                 | apply runs_renderTestimonials | apply runs_renderBeforeAfter
                 | apply runs_renderUseCases | apply runs_renderFAQ
                 | apply runs_renderFinalCTA ] |]).
  apply runs_renderFooter.
Qed.

End CompleteDocument.

(** ** Missing sections *)

Section Throws.

Variable c : json.

Lemma throws_bind_here {A B} (m : JS A) (k : A -> JS B) :
  throws_at c m -> throws_at c (bind m k).
Proof.
  intros H w C. unfold bind. specialize (H w C).
  destruct (m w); [discriminate | reflexivity].
Qed.

Lemma throws_bind_later {A B} (m : JS A) (k : A -> JS B) :
  keeps m -> (forall a, throws_at c (k a)) -> throws_at c (bind m k).
Proof.
  intros K H w C. unfold bind. pose proof (K w) as (_ & C' & _).
  destruct (m w) as [a w' | w']; [| reflexivity].
  apply H. simpl in C'. congruence.
Qed.

Lemma throws_bind_member {B} o k (K : value -> JS B) :
  (readable o = true -> throws_at c (K (get o k))) ->
  throws_at c (bind (member o k) K).
Proof.
  intros H w C. unfold bind.
  destruct o as [[| | | | |]|]; simpl; try reflexivity; now apply H.
Qed.

Lemma throws_bind_content {B} (K : value -> JS B) :
  throws_at c (K (Some c)) -> throws_at c (bind this_content K).
Proof.
  intros H w C. unfold bind, this_content, read. rewrite C. now apply H.
Qed.

End Throws.

(** A pass whose first statement reads into a section that is not there. *)
Ltac section_missing :=
  apply throws_bind_content; cbv beta;
  apply throws_bind_member; intros _; cbv beta;
  apply throws_bind_member; intros _; cbv beta;
  apply throws_bind_here;
  apply throws_bind_member; intros ?; congruence.

(** Walk down the sequence of passes to the one that throws. *)
Ltac reach_pass :=
  first [ apply throws_bind_here; assumption
        | apply throws_bind_later;
          [auto using keeps_renderMeta, keeps_renderNav, keeps_renderHero,
             keeps_renderBenefits, keeps_renderDifferential,
             keeps_renderHowItWorks, keeps_renderEngine, keeps_renderFeatures,
             keeps_renderTestimonials, keeps_renderBeforeAfter,
             keeps_renderUseCases, keeps_renderFAQ, keeps_renderFinalCTA
          | intros _]; reach_pass ].

(** The frame of a render pass on the effects of loading. *)
Lemma binding_writes_silent t :
  Forall binding_write t ->
  fetches t = [] /\ storage_writes t = [] /\ console_errors t = [].
Proof.
  induction 1 as [|e t He _ IH]; [now repeat split |].
  destruct e; simpl in *; try contradiction; exact IH.
Qed.

(** ** The active switcher control *)

Lemma updateLangSwitcher_eq w :
  updateLangSwitcher w =
  Ok tt (set_document (map (mark (currentLang w) false) (document w)) w).
Proof. reflexivity. Qed.

(** After [updateLangSwitcher], a switcher control is active exactly when
    its language code is the current language. *)
Lemma updateLangSwitcher_marks w btn :
  In btn (querySelectorAll_lang_buttons
            (document (world_of (updateLangSwitcher w)))) ->
  (In "active" (classList btn) <->
   getAttribute "data-lang" btn = Some (currentLang w)).
Proof.
  rewrite updateLangSwitcher_eq. simpl. unfold querySelectorAll_lang_buttons.
  intros H. apply in_flat_map in H. destruct H as (n' & Hn' & Hb).
  apply in_map_iff in Hn'. destruct Hn' as (n & <- & _).
  exact (mark_lang_buttons _ _ _ _ Hb).
Qed.

Section SwitchFacts.

Variable fetch : string -> response.

(** A switch to another language: the body after the guard. *)
Lemma switchLanguage_eq lang w :
  lang <> currentLang w ->
  switchLanguage fetch lang w =
  (render ;; updateLangSwitcher) (loadContent fetch lang (set_currentLang lang w)).
Proof.
  intros N. apply String.eqb_neq in N. unfold switchLanguage. rewrite N.
  reflexivity.
Qed.

(** Whatever the switch does after loading, it keeps the language, the
    content and the stored preference the load left, and it fetches, stores
    and logs no more. *)
Lemma switchLanguage_state lang w :
  lang <> currentLang w ->
  let loaded := loadContent fetch lang (set_currentLang lang w) in
  let w' := world_of (switchLanguage fetch lang w) in
  currentLang w' = lang /\
  content w' = content loaded /\
  gerard_lang w' = gerard_lang loaded /\
  fetches (trace w') = fetches (trace loaded) /\
  storage_writes (trace w') = storage_writes (trace loaded) /\
  console_errors (trace w') = console_errors (trace loaded).
Proof.
  intros N. cbv zeta. rewrite (switchLanguage_eq _ _ N).
  set (loaded := loadContent fetch lang (set_currentLang lang w)).
  assert (L : currentLang loaded = lang).
  { subst loaded.
    destruct (loadContent_frame fetch lang (set_currentLang lang w)) as (_ & -> & _).
    reflexivity. }
  unfold bind. pose proof (keeps_render loaded) as K.
  destruct (render loaded) as [[] w2 | w2]; simpl in K;
    destruct K as (A & B & C & _ & _ & _ & _ & added & T & W);
    destruct (binding_writes_silent _ W) as (Wf & Ws & Wc);
    simpl; rewrite T, fetches_app, storage_writes_app, console_errors_app,
             Wf, Ws, Wc, !app_nil_r;
    repeat split; congruence.
Qed.




End SwitchFacts.




(** C3, as the claim has it, fails.  After a page load that rendered the
    Spanish document, the server goes down; a load of English then fails
    twice and leaves the Spanish document in place, not an unset content,
    and the render that follows assigns the text of every bound element
    again. *)
Lemma double_failure_keeps_loaded_content :
  let w1 := world_of (init Sample.both Sample.world0) in
  let w2 := loadContent Sample.down "en" (set_currentLang "en" w1) in
  failed Sample.down "en" = true /\
  failed Sample.down "es" = true /\
  content w2 = Sample.full "es" /\
  text_writes (trace (world_of (render w2))) =
  (text_writes (trace w2) ++
   [("nav.benefits", "Beneficios"); ("hero.title", "GERARD");
    ("benefits.title", "Por que GERARD"); ("faq.title", "title");
    ("footer.tagline", "Hecho en Madrid")])%list.
Proof. vm_compute. repeat split. Qed.

(** ** End to end *)

(** Page load with both documents on the server, then a switch from [es]
    to [en]: the root language attribute becomes [en] and exactly the [en]
    control is active. *)
Example switch_es_to_en :
  let w := world_of (switchLanguage Sample.both "en"
                       (world_of (init Sample.both Sample.world0))) in
  option_map (getAttribute "lang") (documentElement (document w))
  = Some (Some "en") /\
  map (fun btn => (getAttribute "data-lang" btn, classList btn))
      (querySelectorAll_lang_buttons (document w))
  = [(Some "es", ["btn"]); (Some "en", ["btn"; "active"])].
Proof. vm_compute. split; reflexivity. Qed.

(** Page load with the server down: nothing is rendered, and the page
    keeps its static content. *)
Example init_server_down :
  document (world_of (init Sample.down Sample.world0)) = Sample.page /\
  content (world_of (init Sample.down Sample.world0)) = JNull /\
  fetches (trace (world_of (init Sample.down Sample.world0))) =
  ["/content/content-es.json"].
Proof. repeat split; vm_compute; reflexivity. Qed.

(** ** What ends up where *)

Lemma matches_other key K e : key <> K -> matches key e = true -> matches K e = false.
Proof.
  unfold matches. destruct (getAttribute _ e) as [k|]; [| discriminate].
  intros N M. apply String.eqb_eq in M. subst k. now apply String.eqb_neq.
Qed.

Lemma find_update_elsewhere K key f l :
  (forall e, matches K (f e) = matches K e) ->
  key <> K ->
  find (matches K) (update_list (on_match key f) l) = find (matches K) l.
Proof.
  intros Hf N. apply find_update_other; [| exact N].
  intros e M. rewrite Hf. now apply (matches_other key).
Qed.

(** Replacing the children of the element for [key] by nodes without
    bound elements, on a flat page. *)
Lemma write_flat key (new : Node -> list Node) d :
  forallb flat d = true ->
  (forall e, forallb unbound (new e) = true) ->
  let d' := update (matches key) (fun e => with_children (new e) e) d in
  forallb flat d' = true /\
  isSome (documentElement d') = isSome (documentElement d) /\
  (forall K, key <> K ->
             querySelector (matches K) d' = querySelector (matches K) d) /\
  querySelector (matches key) d'
  = option_map (fun e => with_children (new e) e) (querySelector (matches key) d).
Proof.
  intros F U d'.
  assert (F' : forallb flat d' = true).
  { apply update_akin; [| exact F]. intros e M. apply akin_children; [| apply U].
    now rewrite (matches_bound _ _ M). }
  assert (O : flat_map outline d'
              = update_list (on_match key (fun e => with_children (new e) e))
                            (flat_map outline d)).
  { apply update_outline; [| exact F]. intros e M.
    replace (bound (with_children (new e) e)) with (bound e) by now destruct e.
    now apply (matches_bound key). }
  split; [exact F' |]. split.
  { apply update_root. intros e. apply with_children_is_element. }
  split.
  - intros K N. rewrite !flat_querySelector, O by assumption.
    apply find_update_elsewhere; [| exact N]. intros e. now destruct e.
  - rewrite !flat_querySelector, O by assumption.
    apply find_update_same. intros e M. now destruct e.
Qed.

Lemma tidy_emit c e w : tidy c w -> tidy c (emit e w).
Proof. intros T. exact T. Qed.

Section Bindings.

Variable c : json.
Variable K : string.

Lemma passes_runs {A} (m : JS A) : passes c K m -> runs_by c K m.
Proof.
  intros H w T. destruct (H w T) as (a & w' & E & T' & P & Q).
  exists a, w'. rewrite Q. auto.
Qed.

Lemma runs_by_ret {A} (a : A) : runs_by c K (ret a).
Proof. intros w T. exists a, w. auto. Qed.

Lemma runs_by_seq {A B} (m : JS A) (k : JS B) :
  runs_by c K m -> runs_by c K k -> runs_by c K (bind m (fun _ => k)).
Proof.
  intros Hm Hk w T. destruct (Hm w T) as (a & w1 & E & T1 & P1 & Q1).
  destruct (Hk w1 T1) as (b & w2 & E2 & T2 & P2 & Q2).
  exists b, w2. unfold bind. rewrite E, E2.
  split; [reflexivity |]. split; [exact T2 |]. split; congruence.
Qed.

Lemma runs_by_bind_member {B} o k (Kf : value -> JS B) :
  readable o = true -> runs_by c K (Kf (get o k)) ->
  runs_by c K (bind (member o k) Kf).
Proof.
  intros R H w T. unfold bind.
  destruct o as [[| | | | |]|]; try discriminate; simpl; now apply H.
Qed.

Lemma runs_by_bind_content {B} (Kf : value -> JS B) :
  runs_by c K (Kf (Some c)) -> runs_by c K (bind this_content Kf).
Proof.
  intros H w T. unfold bind, this_content, read.
  destruct T as (C & T). rewrite C. apply H. now split.
Qed.

Lemma runs_by_bind_read {A B} (f : World -> A) (Kf : A -> JS B) :
  (forall a, runs_by c K (Kf a)) -> runs_by c K (bind (read f) Kf).
Proof. intros H w T. unfold bind, read. now apply H. Qed.

Lemma runs_by_bind_string_of {B} o (Kf : string -> JS B) :
  (exists s, o = Some s) -> (forall s, runs_by c K (Kf s)) ->
  runs_by c K (bind (string_of o) Kf).
Proof. intros [s ->] H w T. unfold bind. simpl. now apply H. Qed.

Lemma runs_by_on_document f :
  (forall d, forallb flat d = true ->
             forallb flat (f d) = true /\
             forall K', isSome (querySelector (matches K') (f d))
                        = isSome (querySelector (matches K') d)) ->
  (forall d, isSome (documentElement (f d)) = isSome (documentElement d)) ->
  runs_by c K (on_document f).
Proof.
  intros Hf Hr w (C & F & R & I). destruct (Hf _ F) as (F' & P).
  eexists tt, _. split; [reflexivity |]. simpl. unfold tidy. simpl.
  rewrite Hr. auto 10.
Qed.

Lemma runs_by_set_meta name meta k :
  readable meta = true -> plain meta = true ->
  runs_by c K (set_meta name meta k).
Proof.
  intros Rm P. unfold set_meta. apply runs_by_bind_read. intros [tag|].
  - apply runs_by_bind_member; [exact Rm |].
    apply runs_by_bind_string_of; [apply plain_ToString; now apply plain_get | intros s].
    apply runs_by_on_document.
    + intros d F. apply update_akin; [| exact F].
      intros e _. apply akin_attribute. discriminate.
    + intros d. apply update_root, with_attribute_is_element.
  - apply runs_by_ret.
Qed.

Lemma runs_by_set_root_lang v : plain v = true -> runs_by c K (set_root_lang v).
Proof.
  intros P w T. unfold set_root_lang, bind, read.
  pose proof T as (_ & _ & R & _).
  destruct (documentElement (document w)) as [root|] eqn:E; [| discriminate].
  destruct (plain_ToString v P) as [s ->]. simpl.
  apply (runs_by_on_document (set_lang s)); [| | exact T].
  - intros d F. now apply set_lang_akin.
  - intros d. apply set_lang_root.
Qed.

Lemma runs_by_set_title s : runs_by c K (on_document (set_title s)).
Proof.
  apply runs_by_on_document.
  - intros d F. now apply set_title_akin.
  - intros d. apply set_title_root.
Qed.

Lemma passes_ret {A} (a : A) : passes c K (ret a).
Proof. intros w T. exists a, w. auto. Qed.

Lemma passes_seq {A B} (m : JS A) (k : JS B) :
  passes c K m -> passes c K k -> passes c K (bind m (fun _ => k)).
Proof.
  intros Hm Hk w T. destruct (Hm w T) as (a & w1 & E & T1 & P1 & Q1).
  destruct (Hk w1 T1) as (b & w2 & E2 & T2 & P2 & Q2).
  exists b, w2. unfold bind. rewrite E, E2.
  split; [reflexivity |]. split; [exact T2 |]. split; congruence.
Qed.

Lemma passes_bind_member {B} o k (Kf : value -> JS B) :
  readable o = true -> passes c K (Kf (get o k)) ->
  passes c K (bind (member o k) Kf).
Proof.
  intros R H w T. unfold bind.
  destruct o as [[| | | | |]|]; try discriminate; simpl; now apply H.
Qed.

Lemma passes_bind_content {B} (Kf : value -> JS B) :
  passes c K (Kf (Some c)) -> passes c K (bind this_content Kf).
Proof.
  intros H w T. unfold bind, this_content, read.
  destruct T as (C & T). rewrite C. apply H. now split.
Qed.

Lemma passes_bind_read {A B} (f : World -> A) (Kf : A -> JS B) :
  (forall a, passes c K (Kf a)) -> passes c K (bind (read f) Kf).
Proof. intros H w T. unfold bind, read. now apply H. Qed.

Lemma passes_bind_exists {B} key (Kf : bool -> JS B) :
  (forall b, passes c K (Kf b)) -> passes c K (bind (exists_el key) Kf).
Proof. intros H. unfold exists_el. now apply passes_bind_read. Qed.

Lemma passes_bind_string_of {B} o (Kf : string -> JS B) :
  (exists s, o = Some s) -> (forall s, passes c K (Kf s)) ->
  passes c K (bind (string_of o) Kf).
Proof. intros [s ->] H w T. unfold bind. simpl. now apply H. Qed.

(** The world after a write to the element for [key]. *)
Lemma passes_write key (new : World -> Node -> list Node) e :
  (key =? K) = false ->
  (forall w, tidy c w -> forall el, forallb unbound (new w el) = true) ->
  passes c K (fun w =>
    Ok tt (emit e (set_document
             (update (matches key) (fun el => with_children (new w el) el)
                     (document w)) w))).
Proof.
  intros N U w T. pose proof T as (C & F & R & I).
  destruct (write_flat key (new w) (document w) F (U w T)) as (F' & R' & Q & _).
  eexists tt, _. split; [reflexivity |]. unfold tidy. simpl.
  rewrite R'. repeat split; auto.
  apply Q. now apply String.eqb_neq.
Qed.

Lemma set_textContent_eq key v s w :
  textContent_of v = Some s ->
  set_textContent key v w =
  Ok tt (emit (SetTextContent key s)
           (set_document
              (update (matches key) (fun el => with_children (text_nodes s) el)
                      (document w)) w)).
Proof. intros E. unfold set_textContent, bind. rewrite E. reflexivity. Qed.

Lemma set_innerHTML_eq key v s w :
  innerHTML_of v = Some s ->
  set_innerHTML key v w =
  Ok tt (emit (SetInnerHTML key s)
           (set_document
              (update (matches key)
                      (fun el => with_children (html_parser w (tagName el) s) el)
                      (document w)) w)).
Proof. intros E. unfold set_innerHTML, bind. rewrite E. reflexivity. Qed.

Lemma passes_set_textContent key v :
  (key =? K) = false -> plain v = true -> passes c K (set_textContent key v).
Proof.
  intros N P. destruct (plain_textContent v P) as [s E]. intros w T.
  rewrite (set_textContent_eq key v s w E).
  apply (passes_write key (fun _ _ => text_nodes s) _ N); [| exact T].
  intros. apply text_nodes_unbound.
Qed.

Lemma passes_set_innerHTML key v s :
  (key =? K) = false -> innerHTML_of v = Some s -> harmless_in c s ->
  passes c K (set_innerHTML key v).
Proof.
  intros N E H w T. rewrite (set_innerHTML_eq key v s w E).
  apply (passes_write key (fun w el => html_parser w (tagName el) s) _ N);
    [| exact T].
  intros w0 (_ & _ & _ & I) el. now apply H.
Qed.

Lemma passes_setText key v :
  (key =? K) = false -> plain v = true -> passes c K (setText key v).
Proof.
  intros N P. unfold setText. apply passes_bind_exists. intros [|].
  - now apply passes_set_textContent.
  - apply passes_ret.
Qed.

Lemma passes_setHTML key v s :
  (key =? K) = false -> innerHTML_of v = Some s -> harmless_in c s ->
  passes c K (setHTML key v).
Proof.
  intros N E H. unfold setHTML. apply passes_bind_exists. intros [|].
  - now apply (passes_set_innerHTML key v s).
  - apply passes_ret.
Qed.

Lemma passes_li_write key items :
  is_array items = true -> plain items = true -> (key =? K) = false ->
  (forall ss, li_strings (entries items) = Some ss ->
              harmless_in c (String.concat "" ss)) ->
  passes c K (bind (li_markup items) (set_innerHTML key)).
Proof.
  intros A P N H. destruct items as [[| | | | l |]|]; try discriminate.
  destruct (plain_li l P) as [ss E]. intros w T.
  unfold bind, li_markup, bind. rewrite E. simpl.
  apply (passes_set_innerHTML key _ (String.concat "" ss) N); auto.
Qed.

Lemma passes_each f l :
  (forall x i, In x l -> passes c K (f (Some x) i)) ->
  forall i, passes c K (each f l i).
Proof.
  induction l as [|x rest IH]; intros Hf i; simpl.
  - apply passes_ret.
  - apply passes_seq; [apply Hf; now left |].
    apply IH. intros y j Hy. apply Hf. now right.
Qed.

Lemma passes_forEach a f :
  list_of a = true -> plain a = true ->
  (forall x i, readable x = true -> plain x = true -> passes c K (f x i)) ->
  passes c K (forEach a f).
Proof.
  intros L P Hf. destruct a as [[| | | | l |]|]; try discriminate. simpl in L.
  apply passes_each. intros x i Hx. apply Hf.
  - rewrite forallb_forall in L. now apply L.
  - now apply (plain_entry l).
Qed.

Lemma passes_forEach_any a f :
  is_array a = true -> plain a = true ->
  (forall x i, plain x = true -> passes c K (f x i)) ->
  passes c K (forEach a f).
Proof.
  intros L P Hf. destruct a as [[| | | | l |]|]; try discriminate.
  apply passes_each. intros x i Hx. apply Hf. now apply (plain_entry l).
Qed.

Variable t : Written.

Lemma binds_seq_here {A B} (m : JS A) (k : JS B) :
  binds c K t m -> passes c K k -> binds c K t (bind m (fun _ => k)).
Proof.
  intros Hm Hk w T Q. destruct (Hm w T Q) as (a & w1 & e & E & T1 & P1 & Q1 & R1).
  destruct (Hk w1 T1) as (b & w2 & E2 & T2 & P2 & Q2).
  exists b, w2, e. unfold bind. rewrite E, E2.
  split; [reflexivity |]. split; [assumption |]. repeat split; congruence.
Qed.

Lemma binds_seq_later {A B} (m : JS A) (k : JS B) :
  runs_by c K m -> binds c K t k -> binds c K t (bind m (fun _ => k)).
Proof.
  intros Hm Hk w T Q. destruct (Hm w T) as (a & w1 & E & T1 & P1 & Q1).
  rewrite Q in Q1.
  destruct (Hk w1 T1 Q1) as (b & w2 & e & E2 & T2 & P2 & Q2 & R2).
  exists b, w2, e. unfold bind. rewrite E, E2.
  split; [reflexivity |]. split; [assumption |]. repeat split; congruence.
Qed.

Lemma binds_bind_member {B} o k (Kf : value -> JS B) :
  readable o = true -> binds c K t (Kf (get o k)) ->
  binds c K t (bind (member o k) Kf).
Proof.
  intros R H w T Q. unfold bind.
  destruct o as [[| | | | |]|]; try discriminate; simpl; now apply H.
Qed.

Lemma binds_bind_content {B} (Kf : value -> JS B) :
  binds c K t (Kf (Some c)) -> binds c K t (bind this_content Kf).
Proof.
  intros H w T Q. unfold bind, this_content, read.
  pose proof T as (C & _). rewrite C. now apply H.
Qed.

(** The existence test for [K] itself succeeds. *)
Lemma binds_bind_exists_same {B} (Kf : bool -> JS B) :
  binds c K t (Kf true) -> binds c K t (bind (exists_el K) Kf).
Proof.
  intros H w T Q. unfold bind, exists_el, read.
  destruct (querySelector (matches K) (document w)) eqn:E; [| discriminate].
  apply H; [exact T | now rewrite E].
Qed.

Lemma binds_bind_exists_other {B} key (Kf : bool -> JS B) :
  (forall b, binds c K t (Kf b)) -> binds c K t (bind (exists_el key) Kf).
Proof. intros H w T Q. unfold bind, exists_el, read. now apply H. Qed.

End Bindings.

Lemma binds_write c K (new : World -> Node -> list Node) e t :
  (forall w, tidy c w -> forall el, forallb unbound (new w el) = true) ->
  (forall w el, new w el = realise (html_parser w) el t) ->
  (forall w el kids, realise (html_parser w) (with_children kids el) t
                     = realise (html_parser w) el t) ->
  binds c K t (fun w =>
    Ok tt (emit e (set_document
             (update (matches K) (fun el => with_children (new w el) el)
                     (document w)) w))).
Proof.
  intros U Hn Hr w T P. pose proof T as (C & F & R & I).
  destruct (write_flat K (new w) (document w) F (U w T)) as (F' & R' & _ & Q).
  destruct (querySelector (matches K) (document w)) as [el|] eqn:E;
    [| discriminate].
  eexists tt, _, _. split; [reflexivity |]. unfold tidy. simpl.
  rewrite R'. repeat split; auto.
  - rewrite Q. reflexivity.
  - rewrite Hr, <- Hn. apply querySelector_sel in E.
    destruct el; [discriminate | reflexivity].
Qed.

Lemma binds_set_textContent c K v s :
  textContent_of v = Some s -> binds c K (Literal s) (set_textContent K v).
Proof.
  intros E w T. rewrite (set_textContent_eq K v s w E). revert w T.
  apply (binds_write c K (fun _ _ => text_nodes s)); try reflexivity.
  intros. apply text_nodes_unbound.
Qed.

Lemma binds_set_innerHTML c K v s :
  innerHTML_of v = Some s -> harmless_in c s ->
  binds c K (Parsed s) (set_innerHTML K v).
Proof.
  intros E H w T. rewrite (set_innerHTML_eq K v s w E). revert w T.
  apply (binds_write c K (fun w el => html_parser w (tagName el) s)).
  - intros w0 (_ & _ & _ & I) el. now apply H.
  - reflexivity.
  - intros w0 el kids. now destruct el.
Qed.

Lemma binds_setText c K v s :
  textContent_of v = Some s -> binds c K (Literal s) (setText K v).
Proof.
  intros E. unfold setText. apply binds_bind_exists_same.
  now apply binds_set_textContent.
Qed.

Lemma binds_setHTML c K v s :
  innerHTML_of v = Some s -> harmless_in c s ->
  binds c K (Parsed s) (setHTML K v).
Proof.
  intros E H. unfold setHTML. apply binds_bind_exists_same.
  now apply binds_set_innerHTML.
Qed.

Lemma binds_li_write c K items ss :
  is_array items = true -> li_strings (entries items) = Some ss ->
  harmless_in c (String.concat "" ss) ->
  binds c K (Parsed (String.concat "" ss))
        (bind (li_markup items) (set_innerHTML K)).
Proof.
  intros A E H. destruct items as [[| | | | l |]|]; try discriminate.
  simpl in E. intros w T.
  unfold bind, li_markup, bind. rewrite E. simpl.
  now apply (binds_set_innerHTML c K _ (String.concat "" ss)).
Qed.

(** The three strings content supplies as markup are rows of the table. *)
Lemma harmless_statement c :
  truthy (get (get (Some c) "sections") "engine") = true ->
  forall s,
    innerHTML_of (get (get (get (Some c) "sections") "engine") "statement") = Some s ->
    harmless_in c s.
Proof.
  intros T s E parse I tag. apply (I "engine.statement" s tag).
  unfold bindings. cbv zeta. rewrite T.
  apply in_or_app. right. apply in_or_app. left.
  unfold markup_of. rewrite E. simpl. tauto.
Qed.

Lemma harmless_before c ss :
  li_strings (entries (get (get (get (get (Some c) "sections") "beforeAfter")
                                "before") "items")) = Some ss ->
  harmless_in c (String.concat "" ss).
Proof.
  intros E parse I tag. apply (I "beforeAfter.before.items" _ tag).
  unfold bindings. cbv zeta.
  apply in_or_app. right. apply in_or_app. right.
  unfold list_items. rewrite E. simpl. tauto.
Qed.

Lemma harmless_after c ss :
  li_strings (entries (get (get (get (get (Some c) "sections") "beforeAfter")
                                "after") "items")) = Some ss ->
  harmless_in c (String.concat "" ss).
Proof.
  intros E parse I tag. apply (I "beforeAfter.after.items" _ tag).
  unfold bindings. cbv zeta.
  apply in_or_app. right. apply in_or_app. right.
  unfold list_items. rewrite E. simpl. tauto.
Qed.

Lemma readable_get_truthy o k : readable (get o k) = true -> truthy o = true.
Proof. destruct o as [[| | | | |]|]; simpl; auto; discriminate. Qed.

Lemma runs_by_renderMeta c K :
  complete c = true -> plain (Some c) = true -> runs_by c K renderMeta.
Proof.
  intros H P. split_complete H. unfold renderMeta.
  apply runs_by_bind_content. cbv beta.
  apply runs_by_bind_member; [assumption | cbv beta].
  apply runs_by_bind_member; [assumption | cbv beta].
  apply runs_by_bind_string_of; [apply plain_ToString; plainly | intros s].
  apply runs_by_seq; [apply runs_by_set_title |].
  apply runs_by_seq; [apply runs_by_set_meta; [assumption | plainly] |].
  apply runs_by_seq; [apply runs_by_set_meta; [assumption | plainly] |].
  apply runs_by_bind_member; [assumption | cbv beta].
  apply runs_by_set_root_lang. plainly.
Qed.

(** Resolve the engine guard with what is known of the engine section. *)
Ltac engine_guard :=
  match goal with
  | T : truthy ?e = _ |- context [negb (truthy ?e)] =>
      rewrite T; cbn [negb]; cbv iota
  end.

(** A computation that writes elsewhere. *)
Ltac passes_tac :=
  lazymatch goal with
  | |- passes _ _ (bind this_content _) =>
      apply passes_bind_content; cbv beta; passes_tac
  | |- passes _ _ (bind (member _ _) _) =>
      apply passes_bind_member; [assumption | cbv beta; passes_tac]
  | |- passes _ _ (bind (exists_el _) _) =>
      apply passes_bind_exists; intros [|]; cbv beta iota; passes_tac
  | |- passes _ _ (bind (string_of _) _) =>
      apply passes_bind_string_of;
      [apply plain_ToString; plainly | intro; cbv beta; passes_tac]
  | |- passes _ _ (bind (li_markup _) (set_innerHTML _)) =>
      apply passes_li_write;
      [assumption | plainly | reflexivity
      | first [exact (harmless_before _) | exact (harmless_after _)]]
  | |- passes _ _ (bind _ (fun _ => _)) => apply passes_seq; passes_tac
  | |- passes _ _ (forEach _ _) =>
      first [ apply passes_forEach;
              [assumption | plainly | intros ? ? ? ?; cbv beta; passes_tac]
            | apply passes_forEach_any;
              [assumption | plainly | intros ? ? ?; cbv beta; passes_tac] ]
  | |- passes _ _ (if negb (truthy _) then _ else _) =>
      engine_guard; passes_tac
  | |- passes _ _ (ret _) => apply passes_ret
  | |- passes _ _ (setText _ _) => apply passes_setText; [reflexivity | plainly]
  | |- passes ?c _ (setHTML ?key ?v) =>
      let s := fresh "s" in
      let E := fresh "E" in
      destruct (plain_innerHTML v ltac:(plainly)) as [s E];
      apply (passes_setHTML c _ key v s);
      [reflexivity | exact E | apply harmless_statement; assumption]
  | |- passes _ _ (set_textContent _ _) =>
      apply passes_set_textContent; [reflexivity | plainly]
  end.

(** A computation that runs before the location is written. *)
Ltac runs_tac :=
  first [ apply runs_by_renderMeta; assumption
        | apply passes_runs; passes_tac ].

(** A computation one of whose statements writes the location. *)
Ltac binds_tac :=
  lazymatch goal with
  | |- binds _ _ _ (bind this_content _) =>
      apply binds_bind_content; cbv beta; binds_tac
  | |- binds _ _ _ (bind (member _ _) _) =>
      apply binds_bind_member; [assumption | cbv beta; binds_tac]
  | |- binds _ ?K _ (bind (exists_el ?K) _) =>
      apply binds_bind_exists_same; cbv beta iota; binds_tac
  | |- binds _ _ _ (bind (exists_el _) _) =>
      apply binds_bind_exists_other; intros [|]; cbv beta iota; binds_tac
  | |- binds _ _ _ (bind (li_markup _) (set_innerHTML _)) =>
      apply binds_li_write;
      [assumption | eassumption
      | first [ apply harmless_before; assumption
              | apply harmless_after; assumption ]]
  | |- binds _ _ _ (bind _ (fun _ => _)) =>
      first [ solve [apply binds_seq_here; [binds_tac | passes_tac]]
            | apply binds_seq_later; [runs_tac | binds_tac] ]
  | |- binds _ _ _ (if negb (truthy _) then _ else _) =>
      engine_guard; binds_tac
  | |- binds _ _ _ (setText _ _) => apply binds_setText; assumption
  | |- binds _ _ _ (setHTML _ _) =>
      apply binds_setHTML; [assumption | apply harmless_statement; assumption]
  end.

Ltac unfold_passes :=
  unfold render, renderNav, renderHero, renderBenefits,
    renderDifferential, renderHowItWorks, renderEngine, renderFeatures,
    renderTestimonials, renderBeforeAfter, renderUseCases, renderFAQ,
    renderFinalCTA, renderFooter.

(** One row of the table. *)
Ltac binds_row :=
  unfold_passes;
  apply binds_bind_content; cbv beta;
  match goal with
  | T : truthy (Some ?c) = true |- context [negb (truthy (Some ?c))] =>
      rewrite T; cbn [negb]; cbv iota
  end;
  binds_tac.

(** What the row gives, when the field has a string conversion. *)
Ltac row_value Ht :=
  unfold text_of, markup_of, list_items in Ht;
  match type of Ht with
  | option_map _ ?o = Some _ =>
      destruct o eqn:?; [cbn [option_map] in Ht; injection Ht as <- | discriminate Ht]
  end.

Ltac binds_rows Hin :=
  cbn [In app] in Hin;
  repeat (destruct Hin as [Hin | Hin];
          [ let Ht := fresh "Ht" in
            apply pair_equal_spec in Hin; destruct Hin as [<- Ht];
            row_value Ht; binds_row |]);
  contradiction.

Lemma render_binds_table c K t :
  complete c = true -> plain (Some c) = true ->
  In (K, Some t) (bindings c) -> binds c K t render.
Proof.
  intros H P Hin. pose proof H as Hc. split_complete H.
  assert (Tc : truthy (Some c) = true)
    by (eapply readable_get_truthy; eassumption).
  unfold bindings in Hin. cbv zeta in Hin.
  destruct (truthy (get (get (Some c) "sections") "engine")) eqn:T.
  - pose proof (truthy_readable _ T).
    match goal with E : negb true || _ = true |- _ => cbn [negb orb] in E end.
    binds_rows Hin.
  - binds_rows Hin.
Qed.

(** ** Text and markup *)

(** The rows of the table that are markup are those of the raw keys. *)
Lemma bindings_parsed_raw c K html :
  In (K, Some (Parsed html)) (bindings c) -> In K raw_keys.
Proof.
  unfold bindings, text_of, markup_of, list_items. cbv zeta. intros H.
  destruct (truthy (get (get (Some c) "sections") "engine")); cbn [In app] in H;
    repeat (destruct H as [H | H];
            [ apply pair_equal_spec in H; destruct H as [<- H];
              first [ simpl; tauto
                    | exfalso;
                      match type of H with
                      | option_map _ ?o = _ => destruct o; discriminate H
                      end ] |]);
    contradiction.
Qed.

Lemma bindings_literal_not_raw c K text :
  In (K, Some (Literal text)) (bindings c) -> ~ In K raw_keys.
Proof.
  unfold bindings, text_of, markup_of, list_items. cbv zeta. intros H.
  destruct (truthy (get (get (Some c) "sections") "engine")); cbn [In app] in H;
    repeat (destruct H as [H | H];
            [ apply pair_equal_spec in H; destruct H as [<- H];
              first [ intros [R | [R | [R | []]]]; discriminate R
                    | exfalso;
                      match type of H with
                      | option_map _ ?o = _ => destruct o; discriminate H
                      end ] |]);
    contradiction.
Qed.

(** C1, as the claim has it, fails.  An entry of the "before" list is not
    the engine statement, yet its markup characters reach the page as
    markup: the string assigned to [innerHTML] holds the entry as it came,
    and the container ends up with a [b] element inside its [li], while the
    navigation label of the same document is kept as one text node. *)
Lemma before_items_inserted_as_markup :
  let w := world_of (render (set_content Sample.with_markup Sample.world0)) in
  option_map childNodes (querySelector (matches "nav.benefits") (document w))
  = Some [Text "<b>Beneficios</b>"] /\
  option_map childNodes
    (querySelector (matches "beforeAfter.before.items") (document w))
  = Some [Elem "li" [] [] [Elem "b" [] [] [Text "caos"]]] /\
  markup_writes (trace w)
  = [("engine.statement", "<em>motor</em>");
     ("beforeAfter.before.items", "<li><b>caos</b></li>")].
Proof. vm_compute. repeat split. Qed.

(** C1, as the script has it.  A render pass assigns [textContent]
    everywhere except at three raw locations: whatever the page and the
    content, every [innerHTML] assignment it makes goes to the element of
    the engine statement or of one of the two before/after lists.  On a
    complete, printable document and a flat page whose elements receive no
    bound element from the markup, the render returns and leaves the first
    element of every key of the binding table with the children of its row:
    a scalar field as one literal text node, the engine statement as the
    parse of the statement as it came, and each before/after list as the
    parse of its entries, each as it came between [<li>] and [</li>]; the
    markup rows of the table are the three raw keys and no other. *)
Theorem render_text_except_raw :
  (forall w, exists added,
     trace (world_of (render w)) = (trace w ++ added)%list /\
     Forall binding_write added) /\
  (forall w K t,
     complete (content w) = true ->
     plain (Some (content w)) = true ->
     forallb flat (document w) = true ->
     isSome (documentElement (document w)) = true ->
     inert (html_parser w) (content w) ->
     In (K, Some t) (bindings (content w)) ->
     isSome (querySelector (matches K) (document w)) = true ->
     exists w' e,
       render w = Ok tt w' /\
       querySelector (matches K) (document w') = Some e /\
       childNodes e = realise (html_parser w) e t) /\
  (forall c K html, In (K, Some (Parsed html)) (bindings c) -> In K raw_keys) /\
  (forall c K text, In (K, Some (Literal text)) (bindings c) -> ~ In K raw_keys).
Proof.
  split; [| split; [| split]].
  - intros w. destruct (keeps_render w) as (_ & _ & _ & _ & _ & _ & _ & H).
    exact H.
  - intros w K t Hc Hp Hf Hr Hi Hin Hq.
    destruct (render_binds_table (content w) K t Hc Hp Hin w) as
      ([] & w' & e & E & _ & _ & Q & R); [repeat split; assumption | exact Hq |].
    exists w', e. auto.
  - exact bindings_parsed_raw.
  - exact bindings_literal_not_raw.
Qed.

(** The parser of the samples is inert on the sample document with
    markup. *)
Lemma sample_parser_inert : inert Sample.parser Sample.with_markup.
Proof.
  intros K html tag H. vm_compute in H.
  repeat (destruct H as [H | H];
          [first [discriminate H | injection H as <- <-; reflexivity] |]).
  contradiction.
Qed.

(** On the sample document with markup: the navigation label stays text,
    tags and all, while the engine statement and the entries of the
    "before" list are parsed. *)
Lemma render_text_except_raw_witness :
  (exists w' e,
     render (set_content Sample.with_markup Sample.world0) = Ok tt w' /\
     querySelector (matches "nav.benefits") (document w') = Some e /\
     childNodes e = [Text "<b>Beneficios</b>"]) /\
  (exists w' e,
     render (set_content Sample.with_markup Sample.world0) = Ok tt w' /\
     querySelector (matches "engine.statement") (document w') = Some e /\
     childNodes e = [Elem "em" [] [] [Text "motor"]]) /\
  (exists w' e,
     render (set_content Sample.with_markup Sample.world0) = Ok tt w' /\
     querySelector (matches "beforeAfter.before.items") (document w') = Some e /\
     childNodes e = [Elem "li" [] [] [Elem "b" [] [] [Text "caos"]]]).
Proof.
  pose proof (proj1 (proj2 render_text_except_raw)
                (set_content Sample.with_markup Sample.world0)) as H.
  repeat split.
  - destruct (H "nav.benefits" (Literal "<b>Beneficios</b>")) as (w' & e & E & Q & C);
      [reflexivity | reflexivity | reflexivity | reflexivity
      | exact sample_parser_inert | vm_compute; tauto | reflexivity |].
    exists w', e. auto.
  - destruct (H "engine.statement" (Parsed "<em>motor</em>")) as (w' & e & E & Q & C);
      [reflexivity | reflexivity | reflexivity | reflexivity
      | exact sample_parser_inert | vm_compute; tauto | reflexivity |].
    exists w', e. auto.
  - destruct (H "beforeAfter.before.items" (Parsed "<li><b>caos</b></li>"))
      as (w' & e & E & Q & C);
      [reflexivity | reflexivity | reflexivity | reflexivity
      | exact sample_parser_inert | vm_compute; tauto | reflexivity |].
    exists w', e. auto.
Defined.

(** * Further properties of the script *)

(** ** What a render pass leaves alone *)

(** X1. However a render pass ends, it has changed nothing but the page:
    the current language, the content, the stored preference and the click
    wiring are as before, and nothing was fetched, stored or logged. *)
Theorem render_changes_page_only (w : World) :
  currentLang (world_of (render w)) = currentLang w /\
  content (world_of (render w)) = content w /\
  gerard_lang (world_of (render w)) = gerard_lang w /\
  click_wired (world_of (render w)) = click_wired w /\
  fetches (trace (world_of (render w))) = fetches (trace w) /\
  storage_writes (trace (world_of (render w))) = storage_writes (trace w) /\
  console_errors (trace (world_of (render w))) = console_errors (trace w).
Proof.
  destruct (keeps_render w) as (A & B & C & _ & _ & _ & E & added & T & W).
  destruct (binding_writes_silent _ W) as (Wf & Ws & Wc).
  rewrite T, fetches_app, storage_writes_app, console_errors_app, Wf, Ws, Wc,
    !app_nil_r.
  repeat split; assumption.
Qed.

(** ** Documents the first pass cannot read *)

(** X2. A loaded document that is truthy but has no [meta] (an object
    without that property, or a number, string, boolean or array) makes the
    render throw in its first pass, before anything on the page or in the
    metadata has changed. *)
Theorem render_without_meta_throws (w : World) :
  truthy (Some (content w)) = true ->
  match content w with
  | JObj fields => lookup "meta" fields = None
  | _ => True
  end ->
  render w = Threw w.
Proof.
  intros T M. unfold render, renderMeta, bind, this_content, read.
  rewrite T. simpl.
  destruct (content w) as [| b | r | s | l | fields]; simpl in *;
    try discriminate; try reflexivity.
  now rewrite M.
Qed.

Lemma render_without_meta_throws_witness :
  render (set_content (JObj [("lang", JStr "es")]) Sample.world0) =
  Threw (set_content (JObj [("lang", JStr "es")]) Sample.world0).
Proof.
  apply (render_without_meta_throws
           (set_content (JObj [("lang", JStr "es")]) Sample.world0));
    reflexivity.
Defined.

(** ** Duplicate locations *)

Lemma change_node_here sel f e : sel e = true -> change_node sel f e = Some (f e).
Proof. destruct e; simpl; now intros ->. Qed.

(** X3. [setText] binds the first element in tree order that matches the
    selector and no other: wherever that element sits, its children become
    the text and the rest of the document around it stays as it was, any
    later element with the same [data-i18n] key included. *)
Theorem setText_first_match_only key text s w p e :
  document w = plug p e ->
  first_at (matches key) p e ->
  matches key e = true ->
  textContent_of text = Some s ->
  document (world_of (setText key text w)) =
  plug p (with_children (text_nodes s) e).
Proof.
  intros D F M E.
  assert (Fe : find_node (matches key) e = Some e)
    by (rewrite find_node_eq; now rewrite M).
  unfold setText, bind, exists_el, read.
  rewrite D, (find_at_place _ p e e F Fe).
  rewrite (set_textContent_eq key text s w E). simpl. unfold update. rewrite D.
  rewrite (change_at_place _ _ p e (with_children (text_nodes s) e) F);
    [reflexivity |].
  now apply change_node_here.
Qed.

Lemma setText_first_match_only_witness :
  document (world_of
    (setText "k" (Some (JStr "nuevo"))
       (set_document
          [Sample.slot "other";
           Elem "div" [] [] [Sample.slot "k"; Sample.slot "k"];
           Sample.slot "k"]
          Sample.world0))) =
  [Sample.slot "other";
   Elem "div" [] [] [Elem "span" [("data-i18n", "k")] [] [Text "nuevo"];
                     Sample.slot "k"];
   Sample.slot "k"].
Proof.
  apply (setText_first_match_only "k" (Some (JStr "nuevo")) "nuevo" _
           (Inside (Top [Sample.slot "other"] [Sample.slot "k"])
                   "div" [] [] [] [Sample.slot "k"])
           (Sample.slot "k")).
  - reflexivity.
  - simpl. repeat split; repeat constructor.
  - reflexivity.
  - reflexivity.
Defined.

(** ** The stored preference on the next visit *)

Lemma detectLanguage_supported w : In (detectLanguage w) supportedLangs.
Proof.
  unfold detectLanguage.
  destruct (pathMatch (pathname (window w))) as [l|] eqn:P.
  { unfold pathMatch in P.
    destruct (prefix "/en/" _); [injection P as <-; simpl; auto |].
    destruct (prefix "/es/" _); [injection P as <-; simpl; auto | discriminate]. }
  destruct (supported (search_lang (window w))) as [l|] eqn:Q.
  { now apply supported_Some in Q. }
  destruct (supported (gerard_lang w)) as [l|] eqn:S.
  { now apply supported_Some in S. }
  cbv zeta.
  destruct (includes _ supportedLangs) eqn:B.
  - now apply includes_In.
  - simpl; auto.
Qed.

(** Without a path or query signal, detection is decided by the stored
    preference and, failing that, by the browser locale. *)
Lemma detectLanguage_from_store w :
  silent path_signal w -> silent query_signal w ->
  detectLanguage w =
  match supported (gerard_lang w) with
  | Some l => l
  | None =>
      if includes (substring 0 2 (navigator_language (window w))) supportedLangs
      then substring 0 2 (navigator_language (window w))
      else "es"
  end.
Proof.
  intros P Q. unfold detectLanguage.
  rewrite (proj2 (pathMatch_None w) P).
  now rewrite (proj2 (supported_None (search_lang (window w))) Q).
Qed.

Section NextVisit.

Variable fetch : string -> response.

(** X4. The stored preference round-trips through language detection: once
    a supported language has loaded and been stored, a later detection in
    the same browser on a URL without a path code and without a supported
    [lang] parameter returns that language, whatever the browser locale. *)
Theorem stored_preference_round_trip lang w :
  In lang supportedLangs ->
  failed fetch lang = false ->
  setItem_ok w lang = true ->
  silent path_signal w ->
  silent query_signal w ->
  detectLanguage (loadContent fetch lang w) = lang.
Proof.
  intros S F St P Q. destruct (failed_false fetch lang F) as [doc D].
  rewrite (loadContent_ok fetch lang w doc D St).
  rewrite detectLanguage_from_store; [| exact P | exact Q].
  cbn [gerard_lang window emit set_gerard_lang set_content].
  now rewrite (proj2 (supported_Some (Some lang) lang) (conj eq_refl S)).
Qed.

(** X5. [loadContent] stores whatever language it loaded, supported or
    not, but detection does not honour an unsupported one: after a
    successful load of a language outside the supported set, detection on a
    URL without signals falls through to the browser locale or ["es"]. *)
Theorem stored_unsupported_ignored lang w :
  ~ In lang supportedLangs ->
  failed fetch lang = false ->
  setItem_ok w lang = true ->
  silent path_signal w ->
  silent query_signal w ->
  gerard_lang (loadContent fetch lang w) = Some lang /\
  detectLanguage (loadContent fetch lang w) =
  (if includes (substring 0 2 (navigator_language (window w))) supportedLangs
   then substring 0 2 (navigator_language (window w))
   else "es").
Proof.
  intros S F St P Q. destruct (failed_false fetch lang F) as [doc D].
  rewrite (loadContent_ok fetch lang w doc D St). split; [reflexivity |].
  rewrite detectLanguage_from_store; [| exact P | exact Q].
  cbn [gerard_lang window emit set_gerard_lang set_content]. unfold supported.
  destruct (negb (lang =? "") && includes lang supportedLangs) eqn:E;
    [| reflexivity].
  apply andb_true_iff in E. destruct E as [_ E]. apply includes_In in E.
  contradiction.
Qed.

(** The three ways a load of [lang] from [w1] can go, [w1] having the
    store of [w]. *)
Ltac load_cases_in lang w1 w Sw :=
  let F := fresh "F" in
  let e := fresh "e" in
  let doc := fresh "doc" in
  let D := fresh "D" in
  let S := fresh "S" in
  destruct (failed fetch lang) eqn:F;
  [ destruct (loadContent_failed fetch lang w1 F) as [e ->]
  | destruct (failed_false fetch _ F) as [doc D];
    destruct (setItem_ok w lang) eqn:S;
    [ rewrite (loadContent_ok fetch lang w1 doc D)
        by (first [exact S | rewrite Sw; exact S])
    | rewrite (loadContent_threw fetch lang w1 doc D)
        by (first [exact S | rewrite Sw; exact S]) ] ];
  cbv zeta.

(** X6. A load calls [console.error] once for each attempt that failed and
    never otherwise: not at all when the requested document loads and is
    stored, once when that attempt fails and no fallback follows or the
    fallback succeeds, twice when the fallback fails as well. *)
Theorem loadContent_logs_each_failure lang w :
  length (console_errors (trace (loadContent fetch lang w))) =
  length (console_errors (trace w)) +
  (if attempt_fails fetch w lang
   then (if negb (lang =? "es") && attempt_fails fetch w "es" then 2 else 1)
   else 0).
Proof.
  unfold attempt_fails.
  load_cases_in lang w w (@eq_refl _ (setItem_ok w)); cbn [orb negb andb].
  - destruct (lang =? "es") eqn:E; cbn [negb andb].
    + simpl. rewrite !console_errors_app, !length_app. simpl. lia.
    + remember (emit (ConsoleError e) (emit (Fetch (content_url lang)) w))
        as w1 eqn:W1.
      assert (Sw : setItem_ok w1 = setItem_ok w) by (subst w1; reflexivity).
      load_cases_in "es" w1 w Sw; subst w1; simpl;
        rewrite !console_errors_app, !length_app; simpl; lia.
  - simpl. rewrite !console_errors_app, !length_app. simpl. lia.
  - destruct (lang =? "es") eqn:E; cbn [negb andb].
    + simpl. rewrite !console_errors_app, !length_app. simpl. lia.
    + remember (emit (ConsoleError SetItemThrew)
                  (set_content doc (emit (Fetch (content_url lang)) w)))
        as w1 eqn:W1.
      assert (Sw : setItem_ok w1 = setItem_ok w) by (subst w1; reflexivity).
      load_cases_in "es" w1 w Sw; subst w1; simpl;
        rewrite !console_errors_app, !length_app; simpl; lia.
Qed.

(** X7. [switchLanguage] does not check its argument against the
    supported languages: for any string other than the current language it
    makes that string the current language and fetches its content URL
    first, followed by one fetch of the Spanish document exactly when that
    attempt failed and was not for ["es"], however the switch ends. *)
Theorem switchLanguage_any_language lang w :
  lang <> currentLang w ->
  currentLang (world_of (switchLanguage fetch lang w)) = lang /\
  fetches (trace (world_of (switchLanguage fetch lang w))) =
  (fetches (trace w) ++
   content_url lang ::
   (if attempt_fails fetch w lang && negb (lang =? "es")
    then [content_url "es"] else []))%list.
Proof.
  intros N. pose proof (switchLanguage_state fetch lang w N) as S.
  cbv zeta in S. destruct S as (L & _ & _ & T & _).
  split; [exact L |]. rewrite T.
  exact (loadContent_fetches fetch lang (set_currentLang lang w)).
Qed.


End NextVisit.

Lemma stored_preference_round_trip_witness :
  detectLanguage (loadContent Sample.both "en" Sample.world0) = "en".
Proof.
  apply (stored_preference_round_trip Sample.both "en" Sample.world0).
  - simpl. auto.
  - reflexivity.
  - reflexivity.
  - intros l [[<- | [<- | []]] H]; discriminate.
  - intros l [H _]. discriminate.
Defined.

(** A server that also holds a French document. *)
Lemma stored_unsupported_ignored_witness :
  gerard_lang
    (loadContent (fun _ => Response true (Some (Sample.full "fr"))) "fr"
                 Sample.world0) = Some "fr" /\
  detectLanguage
    (loadContent (fun _ => Response true (Some (Sample.full "fr"))) "fr"
                 Sample.world0) = "es".
Proof.
  apply (stored_unsupported_ignored
           (fun _ => Response true (Some (Sample.full "fr"))) "fr" Sample.world0).
  - intros [H | [H | []]]; discriminate.
  - reflexivity.
  - reflexivity.
  - intros l [[<- | [<- | []]] H]; discriminate.
  - intros l [H _]. discriminate.
Defined.

Lemma switchLanguage_any_language_witness :
  currentLang (world_of (switchLanguage Sample.only_es "fr" Sample.world0)) = "fr" /\
  fetches (trace (world_of (switchLanguage Sample.only_es "fr" Sample.world0))) =
  ["/content/content-fr.json"; "/content/content-es.json"].
Proof.
  apply (switchLanguage_any_language Sample.only_es "fr" Sample.world0).
  discriminate.
Defined.


(** ** The switcher controls *)

(** X8. [updateLangSwitcher] is idempotent: running it again on its own
    result changes nothing. *)
Theorem updateLangSwitcher_idempotent (w : World) :
  updateLangSwitcher (world_of (updateLangSwitcher w)) = updateLangSwitcher w.
Proof.
  rewrite !updateLangSwitcher_eq. simpl. unfold set_document. simpl.
  do 2 f_equal. rewrite map_map. apply map_ext. intros n. apply mark_idempotent.
Qed.

(** X9. [updateLangSwitcher] changes nothing but the [active] token of
    switcher controls: the state and the effect log stay, and the page is
    the one it found up to the [active] token in the classes of the
    elements [#lang-switcher [data-lang]] selects; every other element, and
    every other class of a control, is where it was. *)
Theorem updateLangSwitcher_only_active (w : World) :
  currentLang (world_of (updateLangSwitcher w)) = currentLang w /\
  content (world_of (updateLangSwitcher w)) = content w /\
  gerard_lang (world_of (updateLangSwitcher w)) = gerard_lang w /\
  click_wired (world_of (updateLangSwitcher w)) = click_wired w /\
  trace (world_of (updateLangSwitcher w)) = trace w /\
  map (unmark false) (document (world_of (updateLangSwitcher w)))
  = map (unmark false) (document w).
Proof.
  rewrite updateLangSwitcher_eq. simpl. repeat split.
  rewrite map_map. apply map_ext. intros n. apply unmark_mark.
Qed.

(** ** Page load *)

Lemma mark_querySelector_id id lang d :
  isSome (querySelector (has_id id) (map (mark lang false) d))
  = isSome (querySelector (has_id id) d).
Proof.
  unfold querySelector. induction d as [|n d IH]; [reflexivity |].
  cbn [map]. now rewrite !isSome_first_some_cons, mark_find_id, IH.
Qed.

Lemma setupLangSwitcher_eq w :
  setupLangSwitcher w =
  match querySelector (has_id "lang-switcher") (document w) with
  | Some _ =>
      Ok tt (set_document (map (mark (currentLang w) false) (document w))
               (set_click_wired w))
  | None => Ok tt w
  end.
Proof.
  unfold setupLangSwitcher, bind, read.
  destruct (querySelector _ (document w)); reflexivity.
Qed.

Section PageLoad.

Variable fetch : string -> response.

Lemma init_eq w :
  init fetch w =
  (render ;; setupLangSwitcher)
    (loadContent fetch (detectLanguage w) (set_currentLang (detectLanguage w) w)).
Proof. reflexivity. Qed.

(** X10. Page load, however it ends: the current language is the detected
    one, hence a supported one; the detected language's document is fetched
    first, followed by the Spanish one exactly when that attempt failed and
    was not for ["es"]; and the switcher's click handler is installed only
    if the first render returned and the page it left has a
    [#lang-switcher], so a render that throws leaves the switcher dead. *)
Theorem init_outcome (w : World) :
  currentLang (world_of (init fetch w)) = detectLanguage w /\
  In (currentLang (world_of (init fetch w))) supportedLangs /\
  fetches (trace (world_of (init fetch w))) =
  (fetches (trace w) ++
   content_url (detectLanguage w) ::
   (if attempt_fails fetch w (detectLanguage w) && negb (detectLanguage w =? "es")
    then [content_url "es"] else []))%list /\
  click_wired (world_of (init fetch w)) =
  (if returned (init fetch w)
   then isSome (querySelector (has_id "lang-switcher")
                  (document (world_of (init fetch w))))
        || click_wired w
   else click_wired w).
Proof.
  rewrite init_eq.
  set (d := detectLanguage w).
  pose proof (loadContent_frame fetch d (set_currentLang d w))
    as (_ & LC & _ & LW & _).
  pose proof (loadContent_fetches fetch d (set_currentLang d w)) as LF.
  change (attempt_fails fetch (set_currentLang d w) d)
    with (attempt_fails fetch w d) in LF.
  set (loaded := loadContent fetch d (set_currentLang d w)) in *.
  simpl in LC, LW, LF.
  pose proof (keeps_render loaded) as K. unfold bind.
  assert (S : In d supportedLangs) by apply detectLanguage_supported.
  destruct (render loaded) as [[] w2 | w2]; simpl in K;
    destruct K as (A & _ & _ & _ & _ & _ & E & added & T & W);
    destruct (binding_writes_silent _ W) as (Wf & _).
  - rewrite setupLangSwitcher_eq.
    destruct (querySelector (has_id "lang-switcher") (document w2)) as [sw|] eqn:Q.
    + cbn [world_of returned currentLang set_document set_click_wired trace
           click_wired document].
      rewrite mark_querySelector_id, Q, A, LC, T, fetches_app, Wf, app_nil_r.
      repeat split; assumption.
    + simpl. rewrite Q, A, LC, T, fetches_app, Wf, app_nil_r, E, LW.
      repeat split; assumption.
  - simpl. rewrite A, LC, T, fetches_app, Wf, app_nil_r, E, LW.
    repeat split; assumption.
Qed.

End PageLoad.

(** ** Complete documents *)

(** X13. A complete, printable content document renders without throwing
    on every page that has a root element: if every object the passes read
    into is present, every sequence they iterate is an array, none of the
    entries they read into is [null] (the engine section being optional) and
    no object has an own property named [toString], then the render
    returns, whichever elements the page has or lacks. *)
Theorem render_complete_returns (w : World) :
  complete (content w) = true ->
  plain (Some (content w)) = true ->
  isSome (documentElement (document w)) = true ->
  returned (render w) = true.
Proof.
  intros H P R. destruct (runs_render (content w) H P w eq_refl R) as (a & w' & E & _).
  now rewrite E.
Qed.

Lemma render_complete_returns_witness :
  returned (render (set_content Sample.without_engine Sample.world0)) = true.
Proof.
  apply (render_complete_returns (set_content Sample.without_engine Sample.world0));
    reflexivity.
Defined.

(** ** Missing sections *)

(** X14. Every section but the engine is required: if the loaded content
    is truthy and one of the nine other sections is [undefined] or [null]
    (or the [sections] object itself is), the render throws, on every page;
    the passes after that section's never run. *)
Theorem render_missing_section_throws (w : World) (name : string) :
  In name required_sections ->
  truthy (Some (content w)) = true ->
  readable (get (get (Some (content w)) "sections") name) = false ->
  returned (render w) = false.
Proof.
  intros R T M. remember (content w) as c eqn:C. symmetry in C.
  revert w C. change (throws_at c render).
  unfold render. apply throws_bind_content. cbv beta. rewrite T. cbn [negb].
  cbv iota. simpl in R.
  destruct R as [<- | [<- | [<- | [<- | [<- | [<- | [<- | [<- | [<- | []]]]]]]]]].
  - assert (throws_at c renderBenefits)
      by (unfold renderBenefits; section_missing).
    reach_pass.
  - assert (throws_at c renderDifferential)
      by (unfold renderDifferential; section_missing).
    reach_pass.
  - assert (throws_at c renderHowItWorks)
      by (unfold renderHowItWorks; section_missing).
    reach_pass.
  - assert (throws_at c renderFeatures)
      by (unfold renderFeatures; section_missing).
    reach_pass.
  - assert (throws_at c renderTestimonials)
      by (unfold renderTestimonials; section_missing).
    reach_pass.
  - assert (throws_at c renderBeforeAfter)
      by (unfold renderBeforeAfter; section_missing).
    reach_pass.
  - assert (throws_at c renderUseCases)
      by (unfold renderUseCases; section_missing).
    reach_pass.
  - assert (throws_at c renderFAQ)
      by (unfold renderFAQ; section_missing).
    reach_pass.
  - assert (throws_at c renderFinalCTA)
      by (unfold renderFinalCTA; section_missing).
    reach_pass.
Qed.

Lemma render_missing_section_throws_witness :
  returned (render (set_content Sample.without_benefits Sample.world0)) = false.
Proof.
  apply (render_missing_section_throws
           (set_content Sample.without_benefits Sample.world0) "benefits");
    [simpl; auto | reflexivity | reflexivity].
Defined.

(** The full sample document is complete and printable, and stays so
    without its engine section, but is not complete without its benefits
    section. *)
Example complete_samples :
  complete (Sample.full "es") = true /\
  plain (Some (Sample.full "es")) = true /\
  complete Sample.without_engine = true /\
  complete Sample.without_benefits = false.
Proof. repeat split; reflexivity. Qed.

(** ** The root language *)

Section Spares.

Variable R : World -> World -> Prop.
Hypothesis HR : frame R.

Lemma spares_ret {A} (a : A) : spares R (ret a).
Proof. intros w. apply HR. Qed.

Lemma spares_throw {A} : spares R (@throw A).
Proof. intros w. apply HR. Qed.

Lemma spares_read {A} (f : World -> A) : spares R (read f).
Proof. intros w. apply HR. Qed.

Lemma spares_bind {A B} (m : JS A) (k : A -> JS B) :
  spares R m -> (forall a, spares R (k a)) -> spares R (bind m k).
Proof.
  intros Hm Hk w. unfold bind. specialize (Hm w).
  destruct (m w) as [a w1 | w1]; simpl in *; [| exact Hm].
  destruct HR as (_ & T & _). eapply T; [exact Hm | apply Hk].
Qed.

Lemma spares_string_of s : spares R (string_of s).
Proof. destruct s; [apply spares_ret | apply spares_throw]. Qed.

Lemma spares_member o k : spares R (member o k).
Proof.
  destruct o as [[| | | | |]|]; simpl;
    first [apply spares_ret | apply spares_throw].
Qed.

Lemma spares_each f l : (forall x i, spares R (f x i)) -> forall i, spares R (each f l i).
Proof.
  intros Hf. induction l as [|x rest IH]; intros i; simpl.
  - apply spares_ret.
  - apply spares_bind; [apply Hf | intros _; apply IH].
Qed.

Lemma spares_forEach a f : (forall x i, spares R (f x i)) -> spares R (forEach a f).
Proof.
  intros Hf. destruct a as [[| | | | l |]|]; simpl;
    first [apply spares_throw | now apply spares_each].
Qed.

Lemma spares_li_markup items : spares R (li_markup items).
Proof.
  destruct items as [[| | | | l |]|]; simpl; try apply spares_throw.
  apply spares_bind; [apply spares_string_of | intros; apply spares_ret].
Qed.

Lemma spares_set_textContent key v : spares R (set_textContent key v).
Proof.
  unfold set_textContent.
  apply spares_bind; [apply spares_string_of | intros s].
  apply spares_bind; [| intros _; intros w; apply HR].
  intros w. destruct HR as (_ & _ & _ & W). apply (W key (fun _ => text_nodes s)).
Qed.

Lemma spares_set_innerHTML key v : spares R (set_innerHTML key v).
Proof.
  unfold set_innerHTML.
  apply spares_bind; [apply spares_string_of | intros s].
  apply spares_bind; [apply spares_read | intros parse].
  apply spares_bind; [| intros _; intros w; apply HR].
  intros w. destruct HR as (_ & _ & _ & W).
  apply (W key (fun el => parse (tagName el) s)).
Qed.

Lemma spares_setText key v : spares R (setText key v).
Proof.
  unfold setText. apply spares_bind; [apply spares_read | intros [|]].
  - apply spares_set_textContent.
  - apply spares_ret.
Qed.

Lemma spares_setHTML key v : spares R (setHTML key v).
Proof.
  unfold setHTML. apply spares_bind; [apply spares_read | intros [|]].
  - apply spares_set_innerHTML.
  - apply spares_ret.
Qed.

End Spares.

(** Decompose a section pass into its calls. *)
Ltac spares_step :=
  match goal with
  | |- spares _ (bind _ _) => apply spares_bind; [assumption | | intro]
  | |- spares _ (if ?b then _ else _) => destruct b
  | |- spares _ (forEach _ _) => apply spares_forEach; [assumption | intros ? ?]
  | |- spares _ (member _ _) => apply spares_member; assumption
  | |- spares _ (string_of _) => apply spares_string_of; assumption
  | |- spares _ this_content => apply spares_read; assumption
  | |- spares _ (exists_el _) => apply spares_read; assumption
  | |- spares _ (ret _) => apply spares_ret; assumption
  | |- spares _ (li_markup _) => apply spares_li_markup; assumption
  | |- spares _ (setText _ _) => apply spares_setText; assumption
  | |- spares _ (setHTML _ _) => apply spares_setHTML; assumption
  | |- spares _ (set_textContent _ _) => apply spares_set_textContent; assumption
  | |- spares _ (set_innerHTML _ _) => apply spares_set_innerHTML; assumption
  end.

Lemma spares_section_passes R : frame R -> spares R section_passes.
Proof.
  intros HR.
  unfold section_passes, renderNav, renderHero, renderBenefits,
    renderDifferential, renderHowItWorks, renderEngine, renderFeatures,
    renderTestimonials, renderBeforeAfter, renderUseCases, renderFAQ,
    renderFinalCTA, renderFooter.
  repeat spares_step.
Qed.

Lemma change_node_attribute sel f name n n' :
  (forall e, getAttribute name (f e) = getAttribute name e) ->
  change_node sel f n = Some n' -> getAttribute name n' = getAttribute name n.
Proof.
  intros Hf H. destruct n as [s | t a c kids]; simpl in H.
  - destruct (sel _); [| discriminate]. injection H as <-. apply Hf.
  - destruct (sel _); [injection H as <-; apply Hf |].
    destruct (first_change _ kids); [| discriminate]. now injection H as <-.
Qed.

Lemma update_root_lang sel f d :
  (forall e, getAttribute "lang" (f e) = getAttribute "lang" e) ->
  (forall e, is_element (f e) = is_element e) ->
  root_lang (update sel f d) = root_lang d.
Proof.
  intros Ha He. unfold update.
  destruct (first_change _ d) as [d'|] eqn:E; [| reflexivity].
  apply first_change_split in E. destruct E as (l1 & k & k' & l2 & -> & -> & Hk & _).
  pose proof (change_node_attribute _ _ "lang" _ _ Ha Hk) as A.
  pose proof (change_node_is_element _ _ _ _ He Hk) as I.
  unfold root_lang, documentElement. rewrite !find_app.
  destruct (find is_element l1); [reflexivity |]. simpl. rewrite I.
  destruct (is_element k); [exact A | reflexivity].
Qed.

Lemma same_root_lang_section_passes : spares same_root_lang section_passes.
Proof.
  apply spares_section_passes. split; [| split; [| split]].
  - intros w. now split.
  - intros w1 w2 w3 [A1 B1] [A2 B2]. split; congruence.
  - intros e w. now split.
  - intros key new w. split; [reflexivity |]. simpl.
    apply update_root_lang; intros e; now destruct e.
Qed.

Lemma assoc_put name v a : assoc name (put name v a) = Some v.
Proof.
  induction a as [|[n0 v0] a IH]; simpl.
  - now rewrite String.eqb_refl.
  - destruct (n0 =? name) eqn:E; simpl; [now rewrite String.eqb_refl |].
    now rewrite E.
Qed.

Lemma set_lang_root_lang s d :
  isSome (documentElement d) = true -> root_lang (set_lang s d) = Some s.
Proof.
  unfold set_lang, root_lang, documentElement.
  induction d as [|n d IH]; simpl; [discriminate |].
  destruct (is_element n) eqn:E.
  - intros _. simpl. rewrite with_attribute_is_element, E.
    destruct n; [discriminate |]. simpl. apply assoc_put.
  - intros H. specialize (IH H).
    destruct (first_change _ d) as [d'|] eqn:F; simpl; rewrite E.
    + exact IH.
    + apply first_change_None in F. exfalso. clear IH.
      induction d as [|k d IHd]; [discriminate |]. simpl in H.
      inversion F as [|? ? Fk Fd]; subst.
      destruct (is_element k); [discriminate | auto].
Qed.

Lemma bind_returns {A B} (m : JS A) (k : A -> JS B) w b w' :
  bind m k w = Ok b w' -> exists a w1, m w = Ok a w1 /\ k a w1 = Ok b w'.
Proof.
  unfold bind. destruct (m w) as [a w1 | w1]; [eauto | discriminate].
Qed.

Lemma render_eq w :
  truthy (Some (content w)) = true ->
  render w = (renderMeta ;; section_passes) w.
Proof.
  intros T. unfold render, bind at 1, this_content, read. now rewrite T.
Qed.

(** What the metadata pass leaves when it returns. *)
Lemma renderMeta_returns w w1 :
  renderMeta w = Ok tt w1 ->
  content w1 = content w /\
  exists s, ToString (get (Some (content w)) "lang") = Some s /\
            root_lang (document w1) = Some s.
Proof.
  intros H. split.
  { pose proof (keeps_renderMeta w) as K. rewrite H in K. apply K. }
  unfold renderMeta in H.
  apply bind_returns in H. destruct H as (c & w2 & Hc & H).
  unfold this_content, read in Hc. injection Hc as <- <-.
  apply bind_returns in H. destruct H as (meta & w2 & Hm & H).
  assert (Rc : readable (Some (content w)) = true).
  { destruct (content w); simpl in *; (discriminate || reflexivity). }
  apply bind_returns in H. destruct H as (t & w3 & _ & H).
  apply bind_returns in H. destruct H as (s0 & w4 & _ & H).
  apply bind_returns in H. destruct H as (u1 & w5 & _ & H).
  apply bind_returns in H. destruct H as (u2 & w6 & _ & H).
  apply bind_returns in H. destruct H as (u3 & w7 & _ & H).
  apply bind_returns in H. destruct H as (l & w8 & Hl & H).
  assert (L : l = get (Some (content w)) "lang").
  { destruct (content w); simpl in *; try discriminate;
      now injection Hl as <- <-. }
  subst l. unfold set_root_lang, bind, read in H.
  destruct (documentElement (document w8)) eqn:Root; [| discriminate].
  destruct (ToString (get (Some (content w)) "lang")) as [s|]; [| discriminate].
  simpl in H. injection H as <-. exists s. split; [reflexivity |]. simpl.
  apply set_lang_root_lang. now rewrite Root.
Qed.

(** X15. A render that returns has set the root element's [lang]
    attribute to the string of the content's [lang] field, and no later
    pass has changed it; after a fallback load it is therefore the language
    of the Spanish document even though another language is current. *)
Theorem render_sets_root_lang w w' :
  truthy (Some (content w)) = true ->
  render w = Ok tt w' ->
  exists s, ToString (get (Some (content w)) "lang") = Some s /\
            root_lang (document w') = Some s.
Proof.
  intros T H. rewrite (render_eq w T) in H.
  apply bind_returns in H. destruct H as ([] & w1 & Hm & H).
  destruct (renderMeta_returns w w1 Hm) as (_ & s & Es & Ls).
  exists s. split; [exact Es |].
  pose proof (same_root_lang_section_passes w1) as (_ & S). rewrite H in S.
  simpl in S. congruence.
Qed.

Lemma render_sets_root_lang_witness :
  exists s,
    ToString (get (Some (content (set_content (Sample.full "en") Sample.world0)))
                  "lang") = Some s /\
    root_lang (document (world_of (render (set_content (Sample.full "en")
                                             Sample.world0)))) = Some s.
Proof.
  apply (render_sets_root_lang (set_content (Sample.full "en") Sample.world0)).
  - reflexivity.
  - vm_compute. reflexivity.
Defined.

(** ** A switch that succeeds *)

Lemma mark_root_lang lang d : root_lang (map (mark lang false) d) = root_lang d.
Proof.
  unfold root_lang, documentElement.
  induction d as [|n d IH]; [reflexivity |]. cbn [map find].
  replace (is_element (mark lang false n)) with (is_element n) by now destruct n.
  destruct (is_element n); [now destruct n | exact IH].
Qed.

Section SwitchSuccess.

Variable fetch : string -> response.

(** X17. A switch to another language whose document loads, is stored and
    is complete and printable runs to completion with one fetch: the
    requested language is current and stored, its document is the content,
    the root language attribute is that document's [lang] field, and a
    switcher control is active exactly when its code is the requested
    language. *)
Theorem switchLanguage_success lang w doc :
  lang <> currentLang w ->
  fetch (content_url lang) = Response true (Some doc) ->
  setItem_ok w lang = true ->
  complete doc = true ->
  plain (Some doc) = true ->
  isSome (documentElement (document w)) = true ->
  exists w' s,
    switchLanguage fetch lang w = Ok tt w' /\
    currentLang w' = lang /\
    content w' = doc /\
    gerard_lang w' = Some lang /\
    fetches (trace w') = (fetches (trace w) ++ [content_url lang])%list /\
    ToString (get (Some doc) "lang") = Some s /\
    root_lang (document w') = Some s /\
    forall btn, In btn (querySelectorAll_lang_buttons (document w')) ->
                (In "active" (classList btn) <->
                 getAttribute "data-lang" btn = Some lang).
Proof.
  intros N D St H P Rt. rewrite (switchLanguage_eq fetch lang w N).
  rewrite (loadContent_ok fetch lang _ doc D) by exact St.
  set (loaded := emit _ _).
  assert (C : content loaded = doc) by reflexivity.
  destruct (runs_render doc H P loaded C Rt) as ([] & w2 & E & C2 & _).
  pose proof (keeps_render loaded) as K. rewrite E in K. simpl in K.
  destruct K as (A & _ & G & _ & _ & _ & _ & added & T & W).
  destruct (binding_writes_silent _ W) as (Wf & _).
  assert (Tc : truthy (Some (content loaded)) = true).
  { rewrite C. unfold complete in H.
    repeat (apply andb_true_iff in H; destruct H as [H _]).
    now apply (readable_get_truthy _ "meta"). }
  pose proof E as E'. rewrite (render_eq loaded Tc) in E'.
  apply bind_returns in E'. destruct E' as ([] & w1 & Hm & Hs).
  destruct (renderMeta_returns loaded w1 Hm) as (_ & s & Es & Ls1).
  pose proof (same_root_lang_section_passes w1) as (_ & S).
  rewrite Hs in S. simpl in S.
  assert (Ls : root_lang (document w2) = Some s) by congruence.
  exists (world_of (updateLangSwitcher w2)), s.
  unfold bind. rewrite E.
  split; [reflexivity |]. rewrite updateLangSwitcher_eq. simpl.
  split; [rewrite A; reflexivity |]. split; [exact C2 |].
  split; [rewrite G; reflexivity |].
  split.
  { rewrite T. unfold loaded. simpl. rewrite !fetches_app, Wf. simpl.
    now rewrite <- !app_assoc, !app_nil_r. }
  split; [now rewrite C in Es |].
  split; [now rewrite mark_root_lang |].
  intros btn Hb.
  assert (L : currentLang w2 = lang) by (rewrite A; reflexivity).
  rewrite <- L. apply updateLangSwitcher_marks.
  now rewrite updateLangSwitcher_eq.
Qed.

End SwitchSuccess.

Lemma switchLanguage_success_witness :
  exists w' s,
    switchLanguage Sample.both "en" Sample.world0 = Ok tt w' /\
    currentLang w' = "en" /\
    content w' = Sample.full "en" /\
    gerard_lang w' = Some "en" /\
    fetches (trace w') = ["/content/content-en.json"] /\
    ToString (get (Some (Sample.full "en")) "lang") = Some s /\
    root_lang (document w') = Some s /\
    forall btn, In btn (querySelectorAll_lang_buttons (document w')) ->
                (In "active" (classList btn) <->
                 getAttribute "data-lang" btn = Some "en").
Proof.
  apply (switchLanguage_success Sample.both "en" Sample.world0 (Sample.full "en"));
    [discriminate | reflexivity | reflexivity | reflexivity | reflexivity
    | reflexivity].
Defined.
